(** * Steam custom-URL checker: a shallow embedding of
      [steam_custom_url_checker.py] and the properties of its
      check-and-record pipeline.

    Python values are modelled as the program uses them: a [str] is a
    list of Unicode code points, the [set] built by [load_seen_from_csv]
    is a [gset], the outcome tuple of a check is a record, the mutable
    [SteamChecker] object and the files, the terminal and the network
    form an explicit state threaded through a small state-and-exception
    monad. *)

From Stdlib Require Import ZArith QArith Qround Qpower String Ascii.
From stdpp Require Import base decidable option list gmap sets pretty.

Local Open Scope Z_scope.

(** ** Python strings *)

(** A [str] is a sequence of code points. *)
Definition str : Type := list N.

(** A literal of the source. *)
Definition lit (s : string) : str := N_of_ascii <$> list_ascii_of_string s.

Module Str.

(** [str.isspace] on one code point: the ASCII table of CPython
    ([\t\n\v\f\r], [\x1c]..[\x1f], space) and the Unicode white
    space beyond it. *)
Definition isspace (c : N) : bool :=
  ((9 <=? c) && (c <=? 13) || (28 <=? c) && (c <=? 32)
   || (c =? 133) || (c =? 160) || (c =? 5760)
   || (8192 <=? c) && (c <=? 8202)
   || (c =? 8232) || (c =? 8233) || (c =? 8239) || (c =? 8287)
   || (c =? 12288))%N.

Fixpoint lstrip (s : str) : str :=
  match s with
  | c :: s' => if isspace c then lstrip s' else s
  | [] => []
  end.

Definition rstrip (s : str) : str := reverse (lstrip (reverse s)).

(** [s.strip()] *)
Definition strip (s : str) : str := rstrip (lstrip s).

Fixpoint startswith (p s : str) : bool :=
  match p, s with
  | [], _ => true
  | a :: p', b :: s' => (a =? b)%N && startswith p' s'
  | _ :: _, [] => false
  end.

(** [needle in hay] *)
Fixpoint contains (needle hay : str) : bool :=
  startswith needle hay ||
  match hay with
  | [] => false
  | _ :: hay' => contains needle hay'
  end.

(** [s.split(sep)[0]] for a one-character separator: the part before
    the first occurrence of [sep]. *)
Fixpoint before (sep : N) (s : str) : str :=
  match s with
  | [] => []
  | c :: s' => if (c =? sep)%N then [] else c :: before sep s'
  end.

End Str.

(** ** Regular expressions of the source *)

(** The class [[a-z0-9]]. *)
Definition az09 (c : N) : bool :=
  ((97 <=? c) && (c <=? 122) || (48 <=? c) && (c <=? 57))%N.

(** [re.sub] with the pattern [[^a-z0-9]] and the empty replacement *)
Definition sub_non_alnum (n : str) : str := filter (λ c, az09 c = true) n.

(** [ALLOWED_RE.match(n)] for [ALLOWED_RE = re.compile(r"^[a-z0-9]+$")]:
    one or more allowed characters up to the end of the string, where
    [$] also matches just before a final newline. *)
Definition ALLOWED_RE_match (n : str) : bool :=
  let body := match reverse n with
              | 10%N :: r => reverse r
              | _ => n
              end in
  match body with
  | [] => false
  | _ => forallb az09 body
  end.

(** The spec's candidate invariant, in its own words: the string
    matches [[a-z0-9]+] and its length exceeds 2. *)
Definition is_candidate (n : str) : Prop :=
  Forall (λ c, az09 c = true) n ∧ (2 < length n)%nat.

(** ** Outcomes, exceptions and the environment *)

(** The status strings ["available"], ["taken"], ["unknown"]. *)
Inductive status := Available | Taken | Unknown.

Global Instance status_eq_dec : EqDecision status.
Proof. solve_decision. Defined.

Definition status_str (s : status) : str :=
  match s with
  | Available => lit "available"
  | Taken => lit "taken"
  | Unknown => lit "unknown"
  end.

(** The tuple [(status, http_status, note)] returned by a check;
    [http_status = None] is Python's [None]. *)
Record outcome := Outcome {
  o_status : status;
  o_http_status : option Z;
  o_note : str }.

(** Exceptions, by the [except] clause that catches them in
    [_check_once]: [asyncio.CancelledError], an instance of [Exception]
    (with [type(e).__name__]), or another [BaseException] that no clause
    names ([KeyboardInterrupt], [SystemExit]). *)
Inductive pyexc :=
  | CancelledError
  | Exc (kind : str)
  | BaseExc (kind : str).

Inductive res (A : Type) :=
  | Ok (a : A)
  | Raise (e : pyexc).
Arguments Ok {A} a.
Arguments Raise {A} e.

(** What [await resp.text()] delivers. *)
Inductive text_result :=
  | Text (body : str)
  | TextRaises (e : pyexc).

(** The response fields [_check_once] consumes. *)
Record response := Response {
  resp_url : str;           (* str(resp.url), after redirects *)
  resp_status : Z;          (* resp.status *)
  resp_text : text_result }.

(** What [session.get(url, allow_redirects=True)] delivers. *)
Inductive get_result :=
  | GetResponse (r : response)
  | GetRaises (e : pyexc).

(** Lines written to the terminal, one constructor per [print] of the
    checker; the arguments are the values interpolated in the f-string. *)
Inductive out_line :=
  | NoNamesToCheck
  | NamesQueued (total concurrency : Z) (delay : Q)
  | LineAvailable (checked total : Z) (name : str)
  | LineTaken (checked total : Z) (name : str)
  | LineUnknown (checked total : Z) (name note : str)
  | StatusLine (checked total available : Z) (elapsed_s remaining_s : str)
  | CreatedCustom
  | NoNamesInCustom.

(** A row of a csv file: its fields. *)
Definition row : Type := list str.

(** The files, the terminal and the network traffic.  A file that does
    not exist is [None].  [results.csv] is held as the rows its reader
    and writer exchange, [Available.txt] as its text, [Custom.txt] as the
    lines that iterating over it yields. *)
Record world := World {
  results_csv : option (list row);
  available_txt : option str;
  custom_txt : option (list str);
  stdout : list out_line;
  requests : list str;          (* URLs of the GETs issued, oldest first *)
  sessions : nat;               (* ClientSessions opened *)
  sleeps : list Q;              (* durations of the asyncio.sleep calls *)
  clock_reads : nat }.          (* readings of the wall clock so far *)

(** The state-and-exception monad of the embedding: effects done before
    an exception is raised stay done. *)
Definition M (A : Type) : Type := world → res A * world.

Global Instance M_ret : MRet M := λ A a w, (Ok a, w).
Global Instance M_bind : MBind M := λ A B f m w,
  match m w with
  | (Ok a, w') => f a w'
  | (Raise e, w') => (Raise e, w')
  end.

(** A result that touches nothing. *)
Definition lift {A} (r : res A) : M A := λ w, (r, w).

Definition raise {A} (e : pyexc) : M A := lift (Raise e).

(** The [SteamChecker] object. *)
Record SteamChecker := Checker {
  timeout : Z;
  retries : Z;
  delay : Q;
  concurrency : Z;
  checked : Z;
  available : Z;
  start_time : option Q;
  total_to_check : Z }.

(** [max(0.0, x)] on floats, which keeps its first argument unless the
    second is greater. *)
Definition max_float (a b : Q) : Q := if Qlt_le_dec a b then b else a.

(** [SteamChecker.__init__] *)
Definition SteamChecker_init (timeout_seconds retries : Z) (delay : Q)
    (concurrency : Z) : SteamChecker :=
  {| timeout := timeout_seconds;
     retries := Z.max 0 retries;
     delay := max_float 0 delay;
     concurrency := Z.max 1 concurrency;
     checked := 0;
     available := 0;
     start_time := None;
     total_to_check := 0 |}.

Definition set_counters (self : SteamChecker) (c a : Z) : SteamChecker :=
  {| timeout := timeout self; retries := retries self; delay := delay self;
     concurrency := concurrency self; checked := c; available := a;
     start_time := start_time self; total_to_check := total_to_check self |}.

Definition set_total_to_check (self : SteamChecker) (n : Z) : SteamChecker :=
  {| timeout := timeout self; retries := retries self; delay := delay self;
     concurrency := concurrency self; checked := checked self;
     available := available self; start_time := start_time self;
     total_to_check := n |}.

Definition set_start_time (self : SteamChecker) (t : Q) : SteamChecker :=
  {| timeout := timeout self; retries := retries self; delay := delay self;
     concurrency := concurrency self; checked := checked self;
     available := available self; start_time := Some t;
     total_to_check := total_to_check self |}.

(** *** Primitive effects *)

Definition log_line (l : out_line) (w : world) : world :=
  {| results_csv := results_csv w; available_txt := available_txt w;
     custom_txt := custom_txt w; stdout := stdout w ++ [l];
     requests := requests w; sessions := sessions w;
     sleeps := sleeps w; clock_reads := clock_reads w |}.

Definition log_request (url : str) (w : world) : world :=
  {| results_csv := results_csv w; available_txt := available_txt w;
     custom_txt := custom_txt w; stdout := stdout w;
     requests := requests w ++ [url]; sessions := sessions w;
     sleeps := sleeps w; clock_reads := clock_reads w |}.

Definition log_sleep (d : Q) (w : world) : world :=
  {| results_csv := results_csv w; available_txt := available_txt w;
     custom_txt := custom_txt w; stdout := stdout w;
     requests := requests w; sessions := sessions w;
     sleeps := sleeps w ++ [d]; clock_reads := clock_reads w |}.

Definition tick (w : world) : world :=
  {| results_csv := results_csv w; available_txt := available_txt w;
     custom_txt := custom_txt w; stdout := stdout w;
     requests := requests w; sessions := sessions w;
     sleeps := sleeps w; clock_reads := S (clock_reads w) |}.

Definition print (l : out_line) : M unit := λ w, (Ok (), log_line l w).

(** [async with ClientSession(...) as session] *)
Definition open_session : M unit := λ w,
  (Ok (), {| results_csv := results_csv w; available_txt := available_txt w;
             custom_txt := custom_txt w; stdout := stdout w;
             requests := requests w; sessions := S (sessions w);
             sleeps := sleeps w; clock_reads := clock_reads w |}).

Definition set_results (f : option (list row)) (w : world) : world :=
  {| results_csv := f; available_txt := available_txt w;
     custom_txt := custom_txt w; stdout := stdout w;
     requests := requests w; sessions := sessions w;
     sleeps := sleeps w; clock_reads := clock_reads w |}.

Definition set_custom (f : option (list str)) (w : world) : world :=
  {| results_csv := results_csv w; available_txt := available_txt w;
     custom_txt := f; stdout := stdout w;
     requests := requests w; sessions := sessions w;
     sleeps := sleeps w; clock_reads := clock_reads w |}.

Definition set_available (f : option str) (w : world) : world :=
  {| results_csv := results_csv w; available_txt := f;
     custom_txt := custom_txt w; stdout := stdout w;
     requests := requests w; sessions := sessions w;
     sleeps := sleeps w; clock_reads := clock_reads w |}.

(** Appending a row through [csv.writer] to a file opened with ["a"],
    which creates the file when it is missing. *)
Definition append_results (r : row) : M unit := λ w,
  (Ok (), set_results (Some (default [] (results_csv w) ++ [r])) w).

(** Appending text to [Available.txt], opened with ["a"]. *)
Definition append_available (s : str) : M unit := λ w,
  (Ok (), set_available (Some (default [] (available_txt w) ++ s)) w).

(** The constants of the module. *)
Definition CHECK_URL_format (name : str) : str :=
  lit "https://steamcommunity.com/id/" ++ name ++ lit "/".

Definition HEADER : row :=
  [lit "username"; lit "status"; lit "http_status"; lit "timestamp"; lit "note"].

Definition API_URL : str := lit "https://random-word-api.herokuapp.com/all".

(** What [json.loads(text)] delivers, as far as [fetch_full_wordlist]
    looks at it: a list, of which only [str(x)] of each element is
    used; a value that is not a list; or an exception. *)
Inductive json_result :=
  | JsonList (items : list str)
  | JsonOther
  | JsonRaises.

(** [str(n)] of an integer. *)
Definition str_of_Z (n : Z) : str := lit (pretty n).

(** Python's [range(lo, hi)]. *)
Definition range (lo hi : Z) : list Z :=
  (λ i, lo + Z.of_nat i) <$> seq 0 (Z.to_nat (hi - lo)).

(** ** A reference platform

    Concrete readings of the platform functions, used to run the
    program on examples: ASCII lower-casing, a clock formatted in UTC,
    and a few scripted networks. *)
Module Sample.

Definition lower (s : str) : str :=
  (λ c, if (65 <=? c)%N && (c <=? 90)%N then (c + 32)%N else c) <$> s.

Definition two_digits (n : Z) : str :=
  if n <? 10 then lit "0" ++ str_of_Z n else str_of_Z n.

(** [strftime("%H:%M:%S", gmtime(t))] *)
Definition hms (t : Q) : res str :=
  let secs := Qfloor t mod 86400 in
  Ok (two_digits (secs / 3600) ++ lit ":" ++ two_digits (secs mod 3600 / 60)
      ++ lit ":" ++ two_digits (secs mod 60)).

(** A local time zone equal to UTC on 2025-01-01. *)
Definition local_stamp (t : Q) : str :=
  lit "2025-01-01 " ++ match hms t with Ok s => s | Raise _ => [] end.

(** A clock that advances one second per reading. *)
Definition time_time (k : nat) : Q := inject_Z (Z.of_nat k).

Definition never_cancelled (k : nat) : bool := false.

Definition page (url : str) (body : string) : get_result :=
  GetResponse {| resp_url := url; resp_status := 200; resp_text := Text (lit body) |}.

(** Every name redirects to a profile-by-id page whose body says
    "could not be found". *)
Definition net_redirect (k : nat) (url : str) : get_result :=
  GetResponse {| resp_url := lit "https://steamcommunity.com/profiles/76561198000000000/";
                 resp_status := 200;
                 resp_text := Text (lit "The specified profile could not be found.") |}.

(** Every request fails to connect. *)
Definition net_down (k : nat) (url : str) : get_result :=
  GetRaises (Exc (lit "ClientConnectorError")).


(** The scenario of the spec: [abc] redirects to a profile path,
    every other name is reported as not found. *)
Definition net_scenario (k : nat) (url : str) : get_result :=
  if bool_decide (url = CHECK_URL_format (lit "abc"))
  then GetResponse {| resp_url := lit "https://steamcommunity.com/profiles/76561198000000001/";
                      resp_status := 200; resp_text := Text (lit "<html>avatar</html>") |}
  else page url "The specified profile could not be found.".

Definition empty_world : world :=
  {| results_csv := Some [HEADER]; available_txt := Some [];
     custom_txt := Some []; stdout := []; requests := []; sessions := 0;
     sleeps := []; clock_reads := 0 |}.

(** A store that already records [abc]. *)
Definition recorded_world : world :=
  set_results
    (Some [HEADER;
           [lit "abc"; lit "taken"; lit "200"; lit "2025-01-01 00:00:00";
            lit "redirect_to_profiles"]])
    empty_world.


(** No [Custom.txt], and a [Custom.txt] of blank lines. *)
Definition no_custom_world : world := set_custom None empty_world.
Definition blank_custom_world : world :=
  set_custom (Some [[10%N]; lit "   " ++ [10%N]]) empty_world.

(** A word API that serves two words separated by a comma, in front
    of the network of the scenario; and one that serves a JSON
    object. *)
Definition net_api (k : nat) (url : str) : get_result :=
  if bool_decide (url = API_URL) then page url "abc,xyz9" else net_scenario k url.

Definition net_api_object (k : nat) (url : str) : get_result := page url "{}".

(** A JSON parser that knows an object and a list of two numbers. *)
Definition json_loads (text : str) : json_result :=
  if bool_decide (text = lit "{}") then JsonOther
  else if bool_decide (text = lit "[123, 4567]") then JsonList [lit "123"; lit "4567"]
  else JsonRaises.

(** A platform on which formatting a time fails. *)
Definition hms_overflow (t : Q) : res str := Raise (Exc (lit "OverflowError")).


(** A checker in the middle of a run: one name of three checked, ten
    seconds after the start. *)
Definition running_checker : SteamChecker :=
  {| timeout := 12; retries := 2; delay := 0; concurrency := 1;
     checked := 1; available := 0; start_time := Some 0%Q;
     total_to_check := 3 |}.

Definition ten_seconds_in : world :=
  {| results_csv := Some [HEADER]; available_txt := Some [];
     custom_txt := Some []; stdout := []; requests := []; sessions := 1;
     sleeps := []; clock_reads := 10 |}.

End Sample.

(** ** The program *)

(** An element of the list handed to [run_check_list]: a [str], or a
    value of another type, of which the list comprehension only looks
    at the truth value. *)
Inductive pyobj :=
  | PyStr (s : str)
  | PyOther (truthy : bool).

(** What reading [results.csv] through [csv.DictReader] delivers: all
    its rows, or some rows and then an exception, after which the
    fallback iterates over the lines of the file. *)
Inductive csv_read :=
  | CsvRows (rows : list row)
  | CsvRaises (rows : list row) (lines : list str).

(** The dictionary [csv.DictReader] builds for a row: the field names
    zipped with the fields, then [None] ([restval]) for the field names
    the row is too short for; a later binding of a key overrides an
    earlier one. *)
Definition DictReader_row (fieldnames r : row) : list (str * option str) :=
  zip fieldnames (Some <$> r) ++ ((λ k, (k, None)) <$> drop (length r) fieldnames).

(** [row.get(key)]: [None] when the key is missing or bound to [None]. *)
Definition dict_get (key : str) (d : list (str * option str)) : option str :=
  match filter (λ kv, kv.1 = key) (reverse d) with
  | (_, v) :: _ => v
  | [] => None
  end.

(** The rows [csv.DictReader] yields: the first row of the file gives
    the field names, empty rows are skipped. *)
Definition DictReader (rows : list row) : list (list (str * option str)) :=
  match rows with
  | [] => []
  | fieldnames :: rest => DictReader_row fieldnames <$> filter (λ r, r ≠ []) rest
  end.

(** The body of the [for row in reader] loop. *)
Definition seen_add_row (seen : gset str) (d : list (str * option str)) : gset str :=
  let uname := Str.strip (default [] (dict_get (lit "username") d)) in
  if bool_decide (uname ≠ []) then {[uname]} ∪ seen else seen.

(** The body of the fallback loop [for ln in f]. *)
Definition seen_add_line (seen : gset str) (ln : str) : gset str :=
  if bool_decide (Str.strip ln ≠ []) then
    let first := Str.strip (Str.before 44 ln) in
    if bool_decide (first ≠ [] ∧ first ≠ lit "username")
    then {[first]} ∪ seen else seen
  else seen.

(** [load_seen_from_csv(path)], on what reading the file at [path]
    delivers ([None]: the file does not exist). *)
Definition load_seen_from_csv (f : option csv_read) : gset str :=
  match f with
  | None => ∅
  | Some (CsvRows rows) => foldl seen_add_row ∅ (DictReader rows)
  | Some (CsvRaises rows lines) =>
      foldl seen_add_line (foldl seen_add_row ∅ (DictReader rows)) lines
  end.

(** [ensure_files()] *)
Definition ensure_files (w : world) : world :=
  let w := match results_csv w with
           | None => set_results (Some [HEADER]) w
           | Some _ => w
           end in
  let w := set_available (Some (default [] (available_txt w))) w in
  set_custom (Some (default [] (custom_txt w))) w.

(** The test [n and isinstance(n, str)] of the first comprehension of
    [run_check_list]: the string, when it passes. *)
Definition is_truthy_str (n : pyobj) : option str :=
  match n with
  | PyStr [] => None
  | PyStr s => Some s
  | PyOther _ => None
  end.

Section Program.

(** The platform the program runs on. *)
Variable lower : str → str.                (* str.lower, with the Unicode tables *)
Variable http_get : nat → str → get_result. (* the k-th GET of the run, for a URL *)
Variable time_time : nat → Q.              (* the k-th reading of the wall clock *)
Variable local_stamp : Q → str.            (* strftime("%Y-%m-%d %H:%M:%S", localtime(t)) *)
Variable hms : Q → res str.                (* strftime("%H:%M:%S", gmtime(t)) *)
Variable sleep_cancelled : nat → bool.     (* the k-th sleep is interrupted by a cancellation *)

Definition read_clock : M Q := λ w, (Ok (time_time (clock_reads w)), tick w).

(** [now_ts()] *)
Definition now_ts : M str := t ← read_clock; mret (local_stamp t).

(** [await asyncio.sleep(d)] *)
Definition asyncio_sleep (d : Q) : M unit := λ w,
  if sleep_cancelled (length (sleeps w)) then (Raise CancelledError, log_sleep d w)
  else (Ok (), log_sleep d w).

(** [session.get(url, allow_redirects=True)] *)
Definition session_get (url : str) : M get_result := λ w,
  (Ok (http_get (length (requests w)) url), log_request url w).

(** *** [SteamChecker._check_once] *)

(** The two outer [except] clauses. *)
Definition check_once_except (e : pyexc) : res outcome :=
  match e with
  | CancelledError => Raise CancelledError
  | Exc kind => Ok (Outcome Unknown None (lit "exception:" ++ kind))
  | BaseExc kind => Raise (BaseExc kind)
  end.

Definition markers : list str :=
  [lit "avatar"; lit "profile_header"; lit "steamcommunity.com"; lit "steamid"].

(** The classification of a decoded body. *)
Definition classify_body (name : str) (status_code : Z) (body : str) : outcome :=
  let low := lower body in
  if Str.contains (lit "could not be found") low && bool_decide (2 < length name)%nat
  then Outcome Available (Some status_code) (lit "not_found_text")
  else if existsb (λ m, Str.contains m low) markers
  then Outcome Taken (Some status_code) (lit "profile_markers")
  else Outcome Taken (Some status_code) (lit "fallback_taken").

(** The [try] statement, on what the request delivered: the value
    returned, or the exception that leaves [_check_once]. *)
Definition check_response (name : str) (got : get_result) : res outcome :=
  match got with
  | GetRaises e => check_once_except e
  | GetResponse resp =>
      let final_url := resp_url resp in
      let status_code := resp_status resp in
      if Str.contains (lit "/profiles/") final_url
      then Ok (Outcome Taken (Some status_code) (lit "redirect_to_profiles"))
      else
        match resp_text resp with
        | TextRaises (Exc _) =>
            Ok (Outcome Unknown (Some status_code) (lit "unicode_error"))
        | TextRaises e => check_once_except e
        | Text body => Ok (classify_body name status_code body)
        end
  end.

(** The exception, if any, that an await of one attempt raises: the
    request itself, or reading the body, which is only reached when
    the final URL is not a profile redirect. *)
Definition raised_in_attempt (got : get_result) : option pyexc :=
  match got with
  | GetRaises e => Some e
  | GetResponse resp =>
      if Str.contains (lit "/profiles/") (resp_url resp) then None
      else match resp_text resp with
           | TextRaises e => Some e
           | Text _ => None
           end
  end.

Definition _check_once (name : str) : M outcome :=
  let url := CHECK_URL_format name in
  got ← session_get url;
  lift (check_response name got).

(** *** [SteamChecker._check_with_retries] *)

(** How one iteration of the [for attempt] loop ends. *)
Inductive loop_ctl :=
  | Return (last : outcome)
  | Continue (backoff : Q) (last : outcome).

Definition retry_body (self : SteamChecker) (name : str) (attempt : Z)
    (backoff : Q) : M loop_ctl :=
  last ← _check_once name;
  if bool_decide (o_status last ≠ Unknown) then mret (Return last)
  else if attempt <=? retries self
  then asyncio_sleep backoff;; mret (Continue (backoff * 2)%Q last)
  else mret (Continue backoff last).

Fixpoint retry_loop (self : SteamChecker) (name : str) (attempts : list Z)
    (backoff : Q) (last : outcome) : M outcome :=
  match attempts with
  | [] => mret last
  | attempt :: rest =>
      ctl ← retry_body self name attempt backoff;
      match ctl with
      | Return last => mret last
      | Continue backoff last => retry_loop self name rest backoff last
      end
  end.

(** [backoff = 0.6]; delays are the rationals their literals denote,
    and doubling is exact on them as it is on floats. *)
Definition backoff0 : Q := 6 # 10.
Definition no_attempt : outcome := Outcome Unknown None (lit "no_attempt").

Definition _check_with_retries (self : SteamChecker) (name : str) : M outcome :=
  retry_loop self name (range 1 (retries self + 2)) backoff0 no_attempt.

(** *** [SteamChecker.write_result] *)

Definition result_row (username : str) (status : status)
    (http_status : option Z) (ts note : str) : row :=
  [username; status_str status;
   match http_status with Some h => str_of_Z h | None => [] end;
   ts; note].

Definition write_result (username : str) (status : status)
    (http_status : option Z) (note : str) : M unit :=
  ts ← now_ts;
  append_results (result_row username status http_status ts note);;
  if bool_decide (status = Available)
  then append_available (username ++ [10%N])
  else mret ().

(** *** [SteamChecker._update_title] *)

(** The ETA of the [try] block. *)
Definition eta (self : SteamChecker) (elapsed : Q) : Q :=
  let avg := (elapsed / inject_Z (Z.max 1 (checked self)))%Q in
  (avg * inject_Z (Z.max 0 (total_to_check self - checked self)))%Q.

Definition _update_title (self : SteamChecker) : M unit :=
  now ← read_clock;
  match start_time self with
  | None => raise (Exc (lit "TypeError"))
  | Some st =>
      let elapsed := (now - st)%Q in
      match hms elapsed with
      | Raise e => raise e
      | Ok elapsed_s =>
          match hms (eta self elapsed) with
          | Ok remaining_s => mret ()
          | Raise (Exc _) =>
              let remaining_s := lit "..." in
              print (StatusLine (checked self) (total_to_check self)
                       (available self) elapsed_s remaining_s)
          | Raise e => raise e
          end
      end
  end.

(** *** The statements after a check, the same in [worker] and in the
    sequential loop of [run_check_list], up to the optional delay. *)

(** [self.checked += 1], and [self.available += 1] for an available
    name: the object is updated before anything can raise. *)
Definition count_check (self : SteamChecker) (o : outcome) : SteamChecker :=
  let self := set_counters self (checked self + 1) (available self) in
  match o_status o with
  | Available => set_counters self (checked self) (available self + 1)
  | _ => self
  end.

(** The prints and the writes, on the updated object. *)
Definition after_check (self : SteamChecker) (name : str) (o : outcome) : M unit :=
  match o_status o with
  | Available => print (LineAvailable (checked self) (total_to_check self) name)
  | Taken => print (LineTaken (checked self) (total_to_check self) name)
  | Unknown =>
      print (LineUnknown (checked self) (total_to_check self) name (o_note o))
  end;;
  write_result name (o_status o) (o_http_status o) (o_note o);;
  _update_title self.

(** [if self.delay: await asyncio.sleep(self.delay)] *)
Definition delay_sleep (self : SteamChecker) : M unit :=
  if Qeq_bool (delay self) 0 then mret () else asyncio_sleep (delay self).

(** The sequential loop [for name in names]. *)
Fixpoint check_all (self : SteamChecker) (names : list str) : M SteamChecker :=
  match names with
  | [] => mret self
  | name :: rest =>
      o ← _check_with_retries self name;
      let self := count_check self o in
      after_check self name o;;
      delay_sleep self;;
      check_all self rest
  end.

(** *** [SteamChecker.worker] and the pool

    The workers are tasks of one event loop: each runs from one
    suspension point to the next, in the order the loop resumes
    them. *)

Inductive wstate :=
  | WGet                         (* at [await queue.get()] *)
  | WSem (name : str)            (* at [async with sem] *)
  | WLoop (name : str) (attempts : list Z) (backoff : Q) (last : outcome)
                                 (* in [_check_with_retries], holding [sem] *)
  | WDelay                       (* in [asyncio.sleep(self.delay)] *)
  | WReturned                    (* after [break] *)
  | WFailed (e : pyexc).         (* ended by an exception *)

Record pool := Pool {
  p_self : SteamChecker;
  queue : list (option str);     (* the items of [q]; [None] is a stop sentinel *)
  unfinished : nat;              (* items put and not yet [task_done] *)
  sem : nat;                     (* value of the semaphore *)
  workers : list wstate }.

Definition set_worker (i : nat) (ws : wstate) (p : pool) : pool :=
  {| p_self := p_self p; queue := queue p; unfinished := unfinished p;
     sem := sem p; workers := <[i := ws]> (workers p) |}.

Definition set_queue (q : list (option str)) (p : pool) : pool :=
  {| p_self := p_self p; queue := q; unfinished := unfinished p;
     sem := sem p; workers := workers p |}.

Definition set_sem (n : nat) (p : pool) : pool :=
  {| p_self := p_self p; queue := queue p; unfinished := unfinished p;
     sem := n; workers := workers p |}.

Definition set_self (self : SteamChecker) (p : pool) : pool :=
  {| p_self := self; queue := queue p; unfinished := unfinished p;
     sem := sem p; workers := workers p |}.

(** [queue.task_done()] *)
Definition task_done (p : pool) : pool :=
  {| p_self := p_self p; queue := queue p; unfinished := pred (unfinished p);
     sem := sem p; workers := workers p |}.

(** Worker [i] leaves [async with sem] with the outcome [o] of
    [_check_with_retries] and runs up to its next suspension point. *)
Definition worker_finish (i : nat) (name : str) (o : outcome) (p : pool)
    (w : world) : pool * world :=
  let p := set_sem (S (sem p)) p in
  let self := count_check (p_self p) o in
  let p := set_self self p in
  match after_check self name o w with
  | (Raise e, w) => (set_worker i (WFailed e) p, w)
  | (Ok _, w) =>
      if Qeq_bool (delay self) 0 then (set_worker i WGet (task_done p), w)
      else match asyncio_sleep (delay self) w with
           | (Raise e, w) => (set_worker i (WFailed e) p, w)
           | (Ok _, w) => (set_worker i WDelay p, w)
           end
  end.

(** One turn of worker [i]. *)
Definition worker_step (i : nat) (p : pool) (w : world) : pool * world :=
  match workers p !! i with
  | None => (p, w)
  | Some WGet =>
      match queue p with
      | [] => (p, w)
      | None :: q => (set_worker i WReturned (task_done (set_queue q p)), w)
      | Some name :: q => (set_worker i (WSem name) (set_queue q p), w)
      end
  | Some (WSem name) =>
      match sem p with
      | O => (p, w)
      | S n =>
          (set_worker i
             (WLoop name (range 1 (retries (p_self p) + 2)) backoff0 no_attempt)
             (set_sem n p), w)
      end
  | Some (WLoop name [] backoff last) => worker_finish i name last p w
  | Some (WLoop name (attempt :: rest) backoff last) =>
      match retry_body (p_self p) name attempt backoff w with
      | (Raise e, w) => (set_worker i (WFailed e) (set_sem (S (sem p)) p), w)
      | (Ok (Return last), w) => worker_finish i name last p w
      | (Ok (Continue backoff last), w) =>
          (set_worker i (WLoop name rest backoff last) p, w)
      end
  | Some WDelay => (set_worker i WGet (task_done p), w)
  | Some WReturned => (p, w)
  | Some (WFailed _) => (p, w)
  end.

(** The event loop resuming the workers in the order [schedule]. *)
Fixpoint run_pool (schedule : list nat) (p : pool) (w : world) : pool * world :=
  match schedule with
  | [] => (p, w)
  | i :: rest => let '(p, w) := worker_step i p w in run_pool rest p w
  end.

(** *** [SteamChecker.run_check_list] *)

(** The order in which the event loop resumes the workers of a pooled
    run, as far as it is followed. *)
Variable schedule : list nat.

(** How far a run got: it returned, or it still waits in
    [await q.join()] when the schedule ends. *)
Inductive run_end :=
  | Returned (self : SteamChecker)
  | Joining (p : pool).

(** "sanitize and filter" *)
Definition sanitize (names : list pyobj) : list str :=
  let names := (λ n, Str.strip (lower n)) <$> omap is_truthy_str names in
  let names := sub_non_alnum <$> names in
  filter (λ n, n ≠ [] ∧ ALLOWED_RE_match n = true ∧ (2 < length n)%nat) names.

(** The statements of [run_check_list] that compute the final
    [names].  The store is only ever written through [csv.writer], so
    the reader delivers its rows without an exception. *)
Definition select_names (names : list pyobj) (max_checks : Z) (resume : bool)
    : M (list str) :=
  let names := sanitize names in
  names ← (if resume
           then (λ w, let seen := load_seen_from_csv (CsvRows <$> results_csv w) in
                      (Ok (filter (λ n, n ∉ seen) names), w)) : M (list str)
           else mret names);
  mret (if 0 <? max_checks then take (Z.to_nat max_checks) names else names).

Definition initial_pool (self : SteamChecker) (names : list str) : pool :=
  let n := Z.to_nat (concurrency self) in
  {| p_self := self;
     queue := (Some <$> names) ++ replicate n None;
     unfinished := (length names + n)%nat;
     sem := n;
     workers := replicate n WGet |}.

Definition run_check_list (self : SteamChecker) (names : list pyobj)
    (max_checks : Z) (resume : bool) : M run_end :=
  names ← select_names names max_checks resume;
  let self := set_total_to_check self (Z.of_nat (length names)) in
  if total_to_check self =? 0 then
    print NoNamesToCheck;;
    mret (Returned self)
  else
    print (NamesQueued (total_to_check self) (concurrency self) (delay self));;
    t ← read_clock;
    let self := set_start_time self t in
    if concurrency self =? 1 then
      open_session;;
      self ← check_all self names;
      mret (Returned self)
    else if concurrency self <? 0 then
      raise (Exc (lit "ValueError"))       (* asyncio.Semaphore(negative) *)
    else
      open_session;;
      ((λ w, let '(p, w) := run_pool schedule (initial_pool self names) w in
             if bool_decide (unfinished p = 0%nat)
             then (Ok (Returned (p_self p)), w)
             else (Ok (Joining p), w)) : M run_end).

(** *** [run_from_custom_file]

    The result is [None] when the function returns before it creates
    a checker. *)
Definition run_from_custom_file (max_checks concurrency : Z) (delay : Q)
    (resume : bool) : M (option run_end) := λ w,
  match custom_txt w with
  | None =>
      (print CreatedCustom;; mret None) (set_custom (Some []) w)
  | Some lines =>
      let raw := filter (λ ln, ln ≠ []) (Str.strip <$> lines) in
      match raw with
      | [] => (print NoNamesInCustom;; mret None) w
      | _ =>
          let checker := SteamChecker_init 12 2 delay concurrency in
          (e ← run_check_list checker (PyStr <$> raw) max_checks resume;
           mret (Some e)) w
      end
  end.


(** *** Vocabulary of the statements *)

(** The sleeps of a retry loop that starts with backoff [b] and
    sleeps [m] times. *)
Fixpoint backoffs (b : Q) (m : nat) : list Q :=
  match m with
  | O => []
  | S m' => b :: backoffs (b * 2)%Q m'
  end.

(** What the network traffic of a check leaves alone: the files, the
    terminal, the sessions and the clock. *)
Definition same_store (w w' : world) : Prop :=
  results_csv w' = results_csv w ∧ available_txt w' = available_txt w ∧
  custom_txt w' = custom_txt w ∧ stdout w' = stdout w ∧
  sessions w' = sessions w ∧ clock_reads w' = clock_reads w.

(** The Result Store as the spec reads it: the records are the rows
    after the header row, and the username of a record is its first
    field. *)
Definition store_records (f : option (list row)) : list row :=
  match f with
  | Some (_ :: recs) => recs
  | _ => []
  end.

Definition record_username (r : row) : str := default [] (head r).

Definition recorded_usernames (f : option (list row)) : list str :=
  record_username <$> store_records f.

(** A record as [write_result] appends it for a candidate. *)
Definition is_record (r : row) : Prop :=
  ∃ u status http ts note, r = [u; status; http; ts; note] ∧ is_candidate u.

(** A store as the program leaves it: the header row of
    [ensure_files], then records. *)
Definition store_ok (f : option (list row)) : Prop :=
  ∃ recs, f = Some (HEADER :: recs) ∧ Forall is_record recs.

(** The content of the two output files, a missing file being empty. *)
Definition csv_rows (w : world) : list row := default [] (results_csv w).
Definition available_text (w : world) : str := default [] (available_txt w).

(** The ResultRecord of a resolved check. *)
Definition row_of (name : str) (o : outcome) (ts : str) : row :=
  result_row name (o_status o) (o_http_status o) ts (o_note o).

(** The line of [Available.txt] that goes with a record: the username
    and a newline when the status field is ["available"], nothing
    otherwise. *)
Definition available_line (r : row) : str :=
  match r with
  | u :: st :: _ => if bool_decide (st = lit "available") then u ++ [10%N] else []
  | _ => []
  end.

(** The record of one name. *)
Definition record_of (name : str) (r : row) : Prop :=
  ∃ o ts, r = row_of name o ts.

(** Between [w] and [w'] exactly the records [recs] were appended to
    the Result Store, and their lines to the AvailableList. *)
Definition appended (w w' : world) (recs : list row) : Prop :=
  csv_rows w' = csv_rows w ++ recs ∧
  available_text w' = available_text w ++ concat (available_line <$> recs).

Definition is_row (r : row) : Prop := ∃ name, record_of name r.

(** The name a worker holds between taking it from the queue and
    finishing its check. *)
Definition held (ws : wstate) : list str :=
  match ws with
  | WSem name | WLoop name _ _ _ => [name]
  | _ => []
  end.

(** Whether a worker has taken an item it has not yet marked done. *)
Definition owes (ws : wstate) : nat :=
  match ws with
  | WSem _ | WLoop _ _ _ _ | WDelay | WFailed _ => 1
  | WGet | WReturned => 0
  end.

Definition failed (ws : wstate) : nat :=
  match ws with
  | WFailed _ => 1
  | _ => 0
  end.

(** The names still to be checked: queued, or held by a worker. *)
Definition pending (p : pool) : list str :=
  omap id (queue p) ++ (workers p ≫= held).

(** The invariant of a pooled run that started in the world [w0] with
    the checker [self0] and the names [names]: the records appended
    so far are one per resolved check, and every name is recorded,
    pending, or was lost by a worker that an exception ended. *)
Definition pool_inv (w0 : world) (self0 : SteamChecker) (names : list str)
    (p : pool) (w : world) : Prop :=
  ∃ (recs : list row) (lost : list str),
    appended w0 w recs
    ∧ Forall is_row recs
    ∧ (record_username <$> recs) ++ pending p ++ lost ≡ₚ names
    ∧ (length lost ≤ sum_list_with failed (workers p))%nat
    ∧ unfinished p = (length (queue p) + sum_list_with owes (workers p))%nat
    ∧ checked (p_self p) = checked self0 + Z.of_nat (length recs).

(** The first three comprehensions of [run_check_list] on one string
    of the input. *)
Definition clean (n : str) : str := sub_non_alnum (Str.strip (lower n)).

(** The names a run goes on to check: the value [select_names]
    computes in the world [w]. *)
Definition selected (names : list pyobj) (max_checks : Z) (resume : bool)
    (w : world) : list str :=
  let seen := load_seen_from_csv (CsvRows <$> results_csv w) in
  let kept := if resume then filter (λ n, n ∉ seen) (sanitize names)
              else sanitize names in
  if 0 <? max_checks then take (Z.to_nat max_checks) kept else kept.

(** The outcome of the attempt made as the [k]-th request of the run. *)
Definition attempt_at (name : str) (k : nat) : res outcome :=
  check_response name (http_get k (CHECK_URL_format name)).

(** The checks the sequential loop resolves when it starts in [w], in
    order, each with the outcome [_check_with_retries] returned for it.
    The loop ends at the first exception: one raised by a check leaves
    that check unresolved, one raised by the statements after a check
    leaves the later names unchecked. *)
Fixpoint resolved (self : SteamChecker) (names : list str) (w : world)
    : list (str * outcome) :=
  match names with
  | [] => []
  | name :: rest =>
      match _check_with_retries self name w with
      | (Raise _, _) => []
      | (Ok o, w) =>
          let self := count_check self o in
          (name, o) ::
          match after_check self name o w with
          | (Raise _, _) => []
          | (Ok _, w) =>
              match delay_sleep self w with
              | (Raise _, _) => []
              | (Ok _, w) => resolved self rest w
              end
          end
      end
  end.

(** The check, if any, that resolves in the turn of worker [i]: the
    worker leaves the retry loop with the outcome the loop returns,
    the last one when the attempts are used up, the one of this
    attempt when it is not unknown. *)
Definition resolves (i : nat) (p : pool) (w : world) : option (str * outcome) :=
  match workers p !! i with
  | Some (WLoop name [] _ last) => Some (name, last)
  | Some (WLoop name (attempt :: _) backoff _) =>
      match retry_body (p_self p) name attempt backoff w with
      | (Ok (Return last), _) => Some (name, last)
      | _ => None
      end
  | _ => None
  end.

(** The checks that resolve while the event loop follows a schedule,
    in the order in which they resolve. *)
Fixpoint pool_resolved (schedule : list nat) (p : pool) (w : world)
    : list (str * outcome) :=
  match schedule with
  | [] => []
  | i :: rest =>
      option_list (resolves i p w)
      ++ pool_resolved rest (worker_step i p w).1 (worker_step i p w).2
  end.

(** The ResultRecord of a resolved check, with some timestamp. *)
Definition record_for (c : str * outcome) (r : row) : Prop :=
  ∃ ts, r = row_of c.1 c.2 ts.

(** ** The entry points

    [fetch_full_wordlist], [run_from_api] and [main_menu], with the
    string functions they use. *)

(** [s.split(sep)] for a one-character separator. *)
Fixpoint split_go (sep : N) (cur s : str) : list str :=
  match s with
  | [] => [reverse cur]
  | c :: s' =>
      if (c =? sep)%N then reverse cur :: split_go sep [] s'
      else split_go sep (c :: cur) s'
  end.

Definition str_split (sep : N) (s : str) : list str := split_go sep [] s.

(** The line boundaries of [str.splitlines]. *)
Definition is_linebreak (c : N) : bool :=
  ((10 <=? c) && (c <=? 13) || (28 <=? c) && (c <=? 30)
   || (c =? 133) || (c =? 8232) || (c =? 8233))%N.

(** [s.splitlines()]: the boundaries are dropped, [\r\n] counts as one,
    and a final boundary opens no further line. *)
Fixpoint splitlines_go (cur s : str) : list str :=
  match s with
  | [] => match cur with [] => [] | _ => [reverse cur] end
  | c :: s' =>
      if (c =? 13)%N then
        match s' with
        | 10%N :: s'' => reverse cur :: splitlines_go [] s''
        | _ => reverse cur :: splitlines_go [] s'
        end
      else if is_linebreak c then reverse cur :: splitlines_go [] s'
      else splitlines_go (c :: cur) s'
  end.

Definition str_splitlines (s : str) : list str := splitlines_go [] s.

Variable json_loads : str → json_result.    (* json.loads, as far as it is looked at *)

(** The lines the entry points print themselves.  They all come before
    anything the run prints, so the terminal shows them first, then
    what the run adds to [stdout]. *)
Inductive front_line :=
  | FetchingWordlist
  | FetchedWords (n : nat)
  | FetchFailed (e : pyexc)
  | MenuBlank
  | MenuCustom
  | MenuApi
  | MenuPrompt
  | MenuInterrupted
  | MenuInvalid.

(** [[s.strip() for s in l if s.strip()]] *)
Definition stripped_nonblank (l : list str) : list str :=
  filter (λ s, s ≠ []) (Str.strip <$> l).

(** The [try] statement of [fetch_full_wordlist], on the text of the
    response. *)
Definition words_of_text (text : str) : list str :=
  match json_loads text with
  | JsonList items => stripped_nonblank items
  | JsonOther => []
  | JsonRaises =>
      if Str.contains [10%N] text then stripped_nonblank (str_splitlines text)
      else if Str.contains [44%N] text then stripped_nonblank (str_split 44 text)
      else if bool_decide (Str.strip text ≠ []) then [Str.strip text] else []
  end.

(** [SteamChecker.fetch_full_wordlist]: no exception is caught here. *)
Definition fetch_full_wordlist (w : world)
    : list front_line * (res (list str) * world) :=
  match session_get API_URL w with
  | (Ok (GetResponse resp), w) =>
      match resp_text resp with
      | Text text =>
          let words := words_of_text text in
          ([FetchingWordlist; FetchedWords (length words)], (Ok words, w))
      | TextRaises e => ([FetchingWordlist], (Raise e, w))
      end
  | (Ok (GetRaises e), w) => ([FetchingWordlist], (Raise e, w))
  | (Raise e, w) => ([FetchingWordlist], (Raise e, w))
  end.

(** [run_from_api]: the [except Exception] around the fetch prints the
    failure and returns. *)
Definition run_from_api (max_checks concurrency : Z) (delay : Q)
    (resume : bool) (w : world) : list front_line * (res (option run_end) * world) :=
  let checker := SteamChecker_init 12 2 delay concurrency in
  let w := (open_session w).2 in
  match fetch_full_wordlist w with
  | (front, (Ok words, w)) =>
      (front, (e ← run_check_list checker (PyStr <$> words) max_checks resume;
               mret (Some e)) w)
  | (front, (Raise (Exc kind), w)) =>
      (front ++ [FetchFailed (Exc kind)], (Ok None, w))
  | (front, (Raise e, w)) => (front, (Raise e, w))
  end.

(** What [input()] delivers. *)
Inductive typed :=
  | Line (s : str)
  | KeyboardInterrupt
  | EOFError.

(** [main_menu()], with the fixed defaults it passes on: no limit,
    [concurrency = 1], no delay, resume. *)
Definition main_menu (answer : typed) (w : world)
    : list front_line * (res (option run_end) * world) :=
  let w := ensure_files w in
  let menu := [MenuBlank; MenuCustom; MenuApi; MenuBlank; MenuPrompt] in
  match answer with
  | KeyboardInterrupt => (menu ++ [MenuInterrupted], (Ok None, w))
  | EOFError => (menu, (Raise (Exc (lit "EOFError")), w))
  | Line s =>
      let opt := Str.strip s in
      if bool_decide (opt = lit "1") then
        (menu, run_from_custom_file 0 1 0 true w)
      else if bool_decide (opt = lit "2") then
        let '(front, r) := run_from_api 0 1 0 true w in (menu ++ front, r)
      else (menu ++ [MenuInvalid], (Ok None, w))
  end.


(** *** Vocabulary of the further properties *)

(** A string [strip] leaves as it is. *)
Definition is_stripped (s : str) : Prop := Str.strip s = s.

(** The sum of a list of delays. *)
Definition Qsum (l : list Q) : Q := foldr Qplus 0%Q l.

(** The same response with another HTTP status code. *)
Definition with_status (resp : response) (code : Z) : response :=
  {| resp_url := resp_url resp; resp_status := code; resp_text := resp_text resp |}.

(** The classification of an outcome: its status and note, without the
    HTTP status code. *)
Definition verdict (r : res outcome) : res (status * str) :=
  match r with
  | Ok o => Ok (o_status o, o_note o)
  | Raise e => Raise e
  end.


(** A worker that is inside [async with sem]. *)
Definition inflight (ws : wstate) : nat :=
  match ws with
  | WLoop _ _ _ _ => 1
  | _ => 0
  end.

(** The records of the store whose status field is ["available"]. *)
Definition available_rows (w : world) : nat :=
  length (filter (λ r : row, r !! 1%nat = Some (lit "available")) (csv_rows w)).

(** The attributes of a checker that a run only reads. *)
Definition same_config (self self' : SteamChecker) : Prop :=
  timeout self' = timeout self ∧ retries self' = retries self
  ∧ delay self' = delay self ∧ concurrency self' = concurrency self
  ∧ start_time self' = start_time self
  ∧ total_to_check self' = total_to_check self.

(** What checking some of [names] does between the checker [self0] in
    the world [w0] and [self] in [w], apart from the records: it leaves
    [Custom.txt] and the sessions alone, requests nothing but the check
    URLs of the names, and counts one checked name per record and one
    available name per available record. *)
Definition run_frame (names : list str) (self0 self : SteamChecker)
    (w0 w : world) : Prop :=
  custom_txt w = custom_txt w0
  ∧ sessions w = sessions w0
  ∧ (∃ urls, requests w = requests w0 ++ urls
             ∧ Forall (λ u, u ∈ CHECK_URL_format <$> names) urls)
  ∧ checked self - checked self0
    = Z.of_nat (length (csv_rows w)) - Z.of_nat (length (csv_rows w0))
  ∧ available self - available self0
    = Z.of_nat (available_rows w) - Z.of_nat (available_rows w0)
  ∧ same_config self0 self.


(** The frame of a pooled run of [n] workers: the semaphore counts the
    workers that are not inside [async with sem]. *)
Definition pool_frame (n : nat) (names : list str) (self0 : SteamChecker)
    (w0 : world) (p : pool) (w : world) : Prop :=
  (sem p + sum_list_with inflight (workers p) = n)%nat
  ∧ length (workers p) = n
  ∧ run_frame names self0 (p_self p) w0 w.


(** The checker object at the end of a run. *)
Definition checker_of (e : run_end) : SteamChecker :=
  match e with
  | Returned self => self
  | Joining p => p_self p
  end.


(** The exception, if any, that the request of [fetch_full_wordlist]
    raises: in [session.get], or while the body is read. *)
Definition raised_in_fetch (got : get_result) : option pyexc :=
  match got with
  | GetRaises e => Some e
  | GetResponse resp =>
      match resp_text resp with
      | TextRaises e => Some e
      | Text _ => None
      end
  end.

(** The lines [main_menu] prints before it reads the answer. *)
Definition menu_lines : list front_line :=
  [MenuBlank; MenuCustom; MenuApi; MenuBlank; MenuPrompt].


(** *** Vocabulary of the progress of a pooled run *)

(** A worker that has ended: after its stop sentinel, or by an
    exception. *)
Definition settled (ws : wstate) : bool :=
  match ws with
  | WReturned | WFailed _ => true
  | _ => false
  end.

Definition returned (ws : wstate) : nat :=
  match ws with
  | WReturned => 1
  | _ => 0
  end.

(** What one turn of a worker in the state [x] does in the pool [p]:
    its next state [y] and the queue [q'] it leaves. *)
Definition turn (p : pool) (x y : wstate) (q' : list (option str)) : Prop :=
  match x with
  | WGet =>
      (queue p = [] ∧ y = WGet ∧ q' = [])
      ∨ (∃ name, queue p = Some name :: q' ∧ y = WSem name)
      ∨ (queue p = None :: q' ∧ y = WReturned)
  | WSem name =>
      q' = queue p
      ∧ ((sem p = 0%nat ∧ y = WSem name)
         ∨ ((0 < sem p)%nat
            ∧ y = WLoop name (range 1 (retries (p_self p) + 2)) backoff0 no_attempt))
  | WLoop name attempts b last =>
      q' = queue p
      ∧ (y = WGet ∨ y = WDelay ∨ (∃ e, y = WFailed e)
         ∨ ∃ a rest b' last', attempts = a :: rest ∧ y = WLoop name rest b' last')
  | WDelay => q' = queue p ∧ y = WGet
  | WReturned | WFailed _ => q' = queue p ∧ y = x
  end.

(** The queue of a pooled run of [n] workers: names not yet taken, then
    one stop sentinel for every worker that has not returned; no worker
    returns while a name is queued. *)
Definition queue_inv (n : nat) (p : pool) : Prop :=
  ∃ (rest : list str) (k : nat),
    queue p = (Some <$> rest) ++ replicate k None
    ∧ (k + sum_list_with returned (workers p) = n)%nat
    ∧ (rest = [] ∨ sum_list_with returned (workers p) = 0%nat).

(** An upper bound on the turns a pool still needs, for checks of at
    most [r] attempts: a queued name costs its [get], the semaphore,
    the attempts, the statements after the check and the delay. *)
Definition item_cost (r : nat) (x : option str) : nat :=
  match x with
  | Some _ => r + 4
  | None => 1
  end.

Definition work (r : nat) (ws : wstate) : nat :=
  match ws with
  | WGet => 0
  | WSem _ => r + 3
  | WLoop _ attempts _ _ => length attempts + 2
  | WDelay => 1
  | WReturned | WFailed _ => 0
  end.

Definition todo (r : nat) (p : pool) : nat :=
  sum_list_with (item_cost r) (queue p) + sum_list_with (work r) (workers p).

(** A stretch of the schedule in which each of the [n] workers gets a
    turn. *)
Definition fair (n : nat) (stretch : list nat) : Prop :=
  ∀ i, (i < n)%nat → i ∈ stretch.


(** The invariants of a pooled run of [n] workers taken together. *)
Definition pool_live (n : nat) (names : list str) (self0 : SteamChecker)
    (w0 : world) (p : pool) (w : world) : Prop :=
  pool_inv w0 self0 names p w ∧ pool_frame n names self0 w0 p w ∧ queue_inv n p.


(** ** Properties *)

(** *** Strings and the constructor *)

Example strip_example : Str.strip (lit "  ab c
") = lit "ab c".
Proof. reflexivity. Qed.

Example contains_example :
  Str.contains (lit "/profiles/")
    (lit "https://steamcommunity.com/profiles/7656") = true.
Proof. reflexivity. Qed.

Example allowed_newline : ALLOWED_RE_match (lit "abc
") = true.
Proof. reflexivity. Qed.

Lemma range_length lo hi : length (range lo hi) = Z.to_nat (hi - lo).
Proof. unfold range. by rewrite length_fmap, length_seq. Qed.

Lemma range_cons lo hi : lo < hi → range lo hi = lo :: range (lo + 1) hi.
Proof.
  intros Hlt. unfold range.
  replace (Z.to_nat (hi - lo)) with (S (Z.to_nat (hi - (lo + 1)))) by lia.
  cbn [seq fmap list_fmap]. f_equal; [lia|].
  rewrite <- seq_shift, <- list_fmap_compose.
  apply list_fmap_ext. intros _ i _. simpl. lia.
Qed.

Lemma range_nil lo hi : hi ≤ lo → range lo hi = [].
Proof. intros Hle. unfold range. by replace (Z.to_nat (hi - lo)) with O by lia. Qed.

(** *** One attempt *)

Lemma bind_run {A B} (m : M A) (f : A → M B) (w : world) :
  (m ≫= f) w = match m w with
               | (Ok a, w') => f a w'
               | (Raise e, w') => (Raise e, w')
               end.
Proof. reflexivity. Qed.

Lemma _check_once_run (name : str) (w : world) :
  _check_once name w =
    (check_response name (http_get (length (requests w)) (CHECK_URL_format name)),
     log_request (CHECK_URL_format name) w).
Proof. reflexivity. Qed.


(** *** The retry loop *)

Lemma same_store_refl w : same_store w w.
Proof. by repeat split. Qed.

Lemma same_store_trans w1 w2 w3 :
  same_store w1 w2 → same_store w2 w3 → same_store w1 w3.
Proof. unfold same_store. intros; destruct_and!; repeat split; congruence. Qed.

Lemma retry_body_run self name attempt b w :
  let url := CHECK_URL_format name in
  let w1 := log_request url w in
  retry_body self name attempt b w =
    match attempt_at name (length (requests w)) with
    | Raise e => (Raise e, w1)
    | Ok last =>
        if bool_decide (o_status last ≠ Unknown) then (Ok (Return last), w1)
        else if attempt <=? retries self then
          if sleep_cancelled (length (sleeps w))
          then (Raise CancelledError, log_sleep b w1)
          else (Ok (Continue (b * 2)%Q last), log_sleep b w1)
        else (Ok (Continue b last), w1)
    end.
Proof.
  unfold retry_body, attempt_at, mbind, M_bind. rewrite _check_once_run.
  destruct (check_response _ _) as [last|e]; [|done].
  case_bool_decide; [done|].
  destruct (attempt <=? retries self); [|done].
  unfold asyncio_sleep. simpl.
  by destruct (sleep_cancelled _).
Qed.

Lemma retry_loop_cons self name attempt rest b last w :
  retry_loop self name (attempt :: rest) b last w =
    match retry_body self name attempt b w with
    | (Ok (Return l), w') => (Ok l, w')
    | (Ok (Continue b' l), w') => retry_loop self name rest b' l w'
    | (Raise e, w') => (Raise e, w')
    end.
Proof.
  cbn [retry_loop]. unfold mbind, M_bind.
  by destruct (retry_body _ _ _ _ _) as [[[|]|] ?].
Qed.

(** Whatever the network does, the loop makes at most one request per
    element of [attempts], all for the same URL, and touches nothing
    but the request and sleep logs. *)
Lemma retry_loop_traffic self name attempts b last w :
  let w' := (retry_loop self name attempts b last w).2 in
  same_store w w' ∧
  ∃ k, (k ≤ length attempts)%nat ∧
       requests w' = requests w ++ replicate k (CHECK_URL_format name).
Proof.
  revert b last w. induction attempts as [|a rest IH]; intros b last w; cbv zeta.
  - simpl. split; [apply same_store_refl|]. exists 0%nat. by rewrite app_nil_r.
  - rewrite retry_loop_cons, retry_body_run. cbv zeta. cbn [length].
    assert (Hone : ∀ r : res outcome * world, r.2 = log_request (CHECK_URL_format name) w ∨
                     (∃ d, r.2 = log_sleep d (log_request (CHECK_URL_format name) w)) →
              same_store w r.2 ∧ ∃ k, (k ≤ S (length rest))%nat ∧
                requests r.2 = requests w ++ replicate k (CHECK_URL_format name)).
    { intros r [->|[d ->]]; (split; [by repeat split|]); exists 1%nat; (split; [lia|done]). }
    assert (Hrec : ∀ w1 b' l, same_store w w1 →
              requests w1 = requests w ++ [CHECK_URL_format name] →
              same_store w (retry_loop self name rest b' l w1).2 ∧
              ∃ k, (k ≤ S (length rest))%nat ∧
                requests (retry_loop self name rest b' l w1).2
                = requests w ++ replicate k (CHECK_URL_format name)).
    { intros w1 b' l Hs Hr. destruct (IH b' l w1) as [Hs' (k & Hk & Hreq)].
      split; [by eapply same_store_trans|].
      exists (S k). split; [lia|]. rewrite Hreq, Hr, <- app_assoc. done. }
    destruct (attempt_at _ _) as [o|e]; [|apply (Hone (_, _)); by left].
    case_bool_decide; [apply (Hone (_, _)); by left|].
    destruct (a <=? retries self).
    + destruct (sleep_cancelled _); [apply (Hone (_, _)); right; by eexists|].
      apply Hrec; [by repeat split|done].
    + apply Hrec; [by repeat split|done].
Qed.



Lemma backoffs_length b m : length (backoffs b m) = m.
Proof. revert b. induction m; intros; simpl; [done|]. by rewrite IHm. Qed.



Lemma retry_loop_first_request self name attempts b last w :
  attempts ≠ [] →
  ∃ k, requests (retry_loop self name attempts b last w).2
       = requests w ++ replicate (S k) (CHECK_URL_format name).
Proof.
  destruct attempts as [|a rest]; [done|]. intros _.
  rewrite retry_loop_cons, retry_body_run. cbv zeta.
  assert (Hrec : ∀ w1 b' l,
            requests w1 = requests w ++ [CHECK_URL_format name] →
            ∃ k, requests (retry_loop self name rest b' l w1).2
                 = requests w ++ replicate (S k) (CHECK_URL_format name)).
  { intros w1 b' l Hr.
    destruct (retry_loop_traffic self name rest b' l w1) as [_ (k & _ & Hreq)].
    exists k. rewrite Hreq, Hr, <- app_assoc. done. }
  destruct (attempt_at _ _) as [o|e]; [|by exists 0%nat].
  case_bool_decide; [by exists 0%nat|].
  destruct (a <=? retries self); [|by apply Hrec].
  destruct (sleep_cancelled _); [by exists 0%nat|by apply Hrec].
Qed.

(** C10: for all constructor arguments the checker has [retries >= 0],
    [delay >= 0.0] and [concurrency >= 1], out-of-range values being
    clamped to the bound and others kept; so the dispatch mode is
    either sequential ([concurrency = 1]) or pooled ([concurrency > 1]),
    and the retry loop always makes at least one attempt. *)
Theorem init_clamps_configuration (timeout_seconds r : Z) (d : Q) (c : Z) :
  let self := SteamChecker_init timeout_seconds r d c in
  (0 ≤ retries self ∧ (0 <= delay self)%Q ∧ 1 ≤ concurrency self)
  ∧ retries self = (if r <? 0 then 0 else r)
  ∧ delay self = (if Qlt_le_dec 0 d then d else 0%Q)
  ∧ concurrency self = (if c <? 1 then 1 else c)
  ∧ (concurrency self = 1 ∨ 1 < concurrency self)
  ∧ (∀ name w, ∃ k, requests (_check_with_retries self name w).2
                    = requests w ++ replicate (S k) (CHECK_URL_format name)).
Proof.
  cbv zeta. unfold SteamChecker_init, max_float. cbn [retries delay concurrency].
  repeat split.
  - lia.
  - destruct (Qlt_le_dec 0 d); [by apply Qlt_le_weak|by apply Qle_refl].
  - lia.
  - destruct (Z.ltb_spec r 0); lia.
  - destruct (Z.ltb_spec c 1); lia.
  - lia.
  - intros name w. unfold _check_with_retries. cbn [retries].
    apply retry_loop_first_request.
    rewrite range_cons by lia. done.
Qed.

(** C1: when the response to the existence check has a final URL that
    contains ["/profiles/"], the attempt returns
    [("taken", status, "redirect_to_profiles")] whatever reading the
    body would give, and the retry wrapper of a checker with
    [retries >= 0] returns that outcome from its first attempt. *)
Theorem redirect_to_profiles_first (self : SteamChecker) (name : str)
    (resp : response) (w : world) :
  http_get (length (requests w)) (CHECK_URL_format name) = GetResponse resp →
  Str.contains (lit "/profiles/") (resp_url resp) = true →
  let taken := Outcome Taken (Some (resp_status resp)) (lit "redirect_to_profiles") in
  (_check_once name w).1 = Ok taken
  ∧ (0 ≤ retries self → (_check_with_retries self name w).1 = Ok taken).
Proof.
  intros Hget Hurl taken.
  assert (Hat : attempt_at name (length (requests w)) = Ok taken).
  { unfold attempt_at, check_response. by rewrite Hget, Hurl. }
  split.
  - by rewrite _check_once_run.
  - intros Hr. unfold _check_with_retries.
    rewrite range_cons by lia.
    rewrite retry_loop_cons, retry_body_run. cbv zeta. rewrite Hat.
    by rewrite bool_decide_eq_true_2.
Qed.



Lemma range_app lo mid hi :
  lo ≤ mid → mid ≤ hi → range lo hi = range lo mid ++ range mid hi.
Proof.
  intros H1 H2. unfold range.
  replace (Z.to_nat (hi - lo)) with (Z.to_nat (mid - lo) + Z.to_nat (hi - mid))%nat by lia.
  rewrite seq_app, fmap_app. f_equal.
  assert (Hshift : ∀ a n, seq (0 + a) n = Nat.add a <$> seq 0 n).
  { intros a n. by rewrite fmap_add_seq, Nat.add_0_r. }
  rewrite Hshift, <- list_fmap_compose.
  apply list_fmap_ext. intros _ i _. simpl. lia.
Qed.



(** *** Sanitizing and resume *)

Lemma az09_not_space c : az09 c = true → Str.isspace c = false.
Proof.
  unfold az09. intros H.
  destruct (Str.isspace c) eqn:E; [exfalso|done].
  unfold Str.isspace in E.
  repeat match goal with
         | H : _ || _ = true |- _ => apply orb_true_iff in H as [H|H]
         | H : _ && _ = true |- _ => apply andb_true_iff in H as [? H]
         | H : (_ <=? _)%N = true |- _ => apply N.leb_le in H
         | H : (_ =? _)%N = true |- _ => apply N.eqb_eq in H
         end; lia.
Qed.

Lemma lstrip_alnum s : Forall (λ c, az09 c = true) s → Str.lstrip s = s.
Proof. destruct 1 as [|c s Hc _]; [done|]. simpl. by rewrite az09_not_space. Qed.

Lemma strip_alnum s : Forall (λ c, az09 c = true) s → Str.strip s = s.
Proof.
  intros Hs. unfold Str.strip, Str.rstrip.
  rewrite (lstrip_alnum s) by done.
  rewrite lstrip_alnum by (by apply Forall_reverse).
  apply reverse_involutive.
Qed.

Lemma sub_non_alnum_alnum n : Forall (λ c, az09 c = true) (sub_non_alnum n).
Proof.
  apply Forall_forall. intros c Hc.
  by apply list_elem_of_filter in Hc as [? _].
Qed.

Lemma ALLOWED_RE_match_alnum n :
  Forall (λ c, az09 c = true) n → n ≠ [] → ALLOWED_RE_match n = true.
Proof.
  intros Hall Hne. unfold ALLOWED_RE_match.
  assert (Hbody : match n with [] => false | _ => forallb az09 n end = true).
  { destruct n; [done|]. apply Is_true_true, forallb_True.
    eapply Forall_impl; [exact Hall|]. intros c Hc. by apply Is_true_true. }
  destruct (reverse n) as [|c r] eqn:Hrev; [done|].
  assert (Hc : az09 c = true).
  { apply Forall_reverse in Hall. rewrite Hrev in Hall. by inversion Hall. }
  destruct c as [|p]; [done|].
  do 4 (destruct p as [p|p|]; try done).
Qed.

(** The filter of [sanitize] only looks at the length: what
    [re.sub] leaves always matches [ALLOWED_RE] unless it is empty. *)
Lemma sanitize_eq names :
  sanitize names = filter (λ n, (2 < length n)%nat) (clean <$> omap is_truthy_str names).
Proof.
  unfold sanitize. rewrite <- list_fmap_compose.
  change (sub_non_alnum ∘ (λ n, Str.strip (lower n))) with clean.
  induction (omap is_truthy_str names) as [|s l IH]; [done|].
  rewrite fmap_cons, !filter_cons.
  pose proof (sub_non_alnum_alnum (Str.strip (lower s))) as Hal.
  fold (clean s) in Hal.
  destruct (decide (2 < length (clean s))%nat) as [Hlen|Hlen].
  - rewrite decide_True; [f_equal; exact IH|].
    assert (clean s ≠ []) by (intros Hnil; rewrite Hnil in Hlen; simpl in Hlen; lia).
    repeat split; [done| |done]. by apply ALLOWED_RE_match_alnum.
  - rewrite decide_False; [exact IH|]. by intros (_ & _ & ?).
Qed.

Lemma sanitize_candidates names :
  Forall (λ n, is_candidate n ∧ ALLOWED_RE_match n = true) (sanitize names).
Proof.
  rewrite sanitize_eq. apply Forall_forall. intros n Hn.
  apply list_elem_of_filter in Hn as [Hlen Hn].
  apply list_elem_of_fmap in Hn as (s & -> & _).
  pose proof (sub_non_alnum_alnum (Str.strip (lower s))) as Hal. fold (clean s) in Hal.
  repeat split; [done|done|].
  apply ALLOWED_RE_match_alnum; [done|].
  intros Hnil. rewrite Hnil in Hlen. simpl in Hlen. lia.
Qed.


Lemma seen_rows_elem ds : ∀ (seen : gset str) (n : str),
  n ∈ foldl seen_add_row seen ds ↔
  n ∈ seen ∨ ∃ d, d ∈ ds ∧ n ≠ []
                  ∧ Str.strip (default [] (dict_get (lit "username") d)) = n.
Proof.
  induction ds as [|d ds IH]; intros seen n; simpl.
  - split; [by left|]. intros [?|(d & Hd & _)]; [done|]. by apply elem_of_nil in Hd.
  - rewrite IH. unfold seen_add_row at 1. split.
    + intros [Hn|(d' & Hd' & Hne & Heq)].
      * case_bool_decide as Hu; [|by left].
        apply elem_of_union in Hn as [Hn|Hn]; [|by left].
        apply elem_of_singleton in Hn. right. exists d.
        split; [by left|]. split; [by rewrite Hn|done].
      * right. exists d'. split; [by right|done].
    + intros [Hn|(d' & Hd' & Hne & Heq)].
      * left. case_bool_decide; [|done]. apply elem_of_union. by right.
      * apply elem_of_cons in Hd' as [->|Hd'].
        -- left. rewrite Heq. rewrite bool_decide_eq_true_2 by done.
           apply elem_of_union. left. by apply elem_of_singleton.
        -- right. by exists d'.
Qed.

Lemma dict_get_record r :
  is_record r →
  dict_get (lit "username") (DictReader_row HEADER r) = Some (record_username r).
Proof. intros (u & st & h & ts & nt & -> & _). reflexivity. Qed.

Lemma is_record_username r :
  is_record r → is_candidate (record_username r) ∧ r ≠ [].
Proof. intros (u & st & h & ts & nt & -> & Hu). by split. Qed.

(** On a store the program left, the set built by
    [load_seen_from_csv] holds exactly the usernames of the records. *)
Lemma load_seen_store_ok f :
  store_ok f →
  ∀ n, n ∈ load_seen_from_csv (CsvRows <$> f) ↔ n ∈ recorded_usernames f.
Proof.
  intros (recs & -> & Hrecs) n.
  unfold recorded_usernames. cbn [fmap option_fmap option_map load_seen_from_csv
    DictReader store_records].
  rewrite seen_rows_elem. split.
  - intros [Hn|(d & Hd & Hne & Heq)]; [by apply not_elem_of_empty in Hn|].
    apply list_elem_of_fmap in Hd as (r & -> & Hr).
    apply list_elem_of_filter in Hr as [_ Hr].
    rewrite Forall_forall in Hrecs. specialize (Hrecs r Hr).
    rewrite dict_get_record in Heq by done. cbn [default] in Heq.
    destruct (is_record_username r Hrecs) as [[Hal _] _].
    rewrite strip_alnum in Heq by done. subst n.
    apply list_elem_of_fmap. by exists r.
  - intros Hn. apply list_elem_of_fmap in Hn as (r & -> & Hr). right.
    rewrite Forall_forall in Hrecs. specialize (Hrecs r Hr).
    destruct (is_record_username r Hrecs) as [[Hal Hlen] Hne].
    exists (DictReader_row HEADER r). split; [|split].
    + apply list_elem_of_fmap. exists r. split; [done|].
      apply list_elem_of_filter. by split.
    + intros Hnil. rewrite Hnil in Hlen. simpl in Hlen. lia.
    + rewrite dict_get_record by done. cbn [default]. by apply strip_alnum.
Qed.

Lemma filter_none {A} (P : A → Prop) `{!∀ x, Decision (P x)} (l : list A) :
  Forall (λ x, ¬ P x) l → filter P l = [].
Proof.
  induction 1 as [|x l Hx _ IH]; [done|]. by rewrite filter_cons_False.
Qed.

Lemma DictReader_row_keys fieldnames r kv :
  kv ∈ DictReader_row fieldnames r → kv.1 ∈ fieldnames.
Proof.
  unfold DictReader_row. intros [Hz|Hp]%elem_of_app.
  - destruct kv as [k v]. by apply elem_of_zip_l in Hz.
  - apply list_elem_of_fmap in Hp as (k & -> & Hk). simpl.
    by apply (subseteq_drop (length r)).
Qed.

Lemma dict_get_absent key fieldnames r :
  key ∉ fieldnames → dict_get key (DictReader_row fieldnames r) = None.
Proof.
  intros Hkey. unfold dict_get. rewrite filter_none; [done|].
  apply Forall_forall. intros kv Hkv%elem_of_reverse%DictReader_row_keys Heq.
  apply Hkey. by rewrite <- Heq.
Qed.





(** *** Recording a resolved check *)

Lemma available_line_row_of name o ts :
  available_line (row_of name o ts)
  = if bool_decide (o_status o = Available) then name ++ [10%N] else [].
Proof. by destruct o as [[] ? ?]. Qed.

Lemma record_username_row_of name o ts : record_username (row_of name o ts) = name.
Proof. done. Qed.

Lemma appended_refl w : appended w w [].
Proof. unfold appended. simpl. by rewrite !app_nil_r. Qed.

Lemma appended_trans w1 w2 w3 recs1 recs2 :
  appended w1 w2 recs1 → appended w2 w3 recs2 → appended w1 w3 (recs1 ++ recs2).
Proof.
  intros [H1 H1'] [H2 H2']. split.
  - by rewrite H2, H1, app_assoc.
  - by rewrite H2', H1', fmap_app, concat_app, app_assoc.
Qed.

Lemma same_store_appended w w' : same_store w w' → appended w w' [].
Proof.
  intros (Hr & Ha & _). unfold appended, csv_rows, available_text.
  rewrite Hr, Ha. simpl. by rewrite !app_nil_r.
Qed.

(** [write_result] always returns, having appended its row, and the
    username line when the status is available. *)
Lemma write_result_run username st http note w :
  let ts := local_stamp (time_time (clock_reads w)) in
  let w' := (write_result username st http note w).2 in
  (write_result username st http note w).1 = Ok ()
  ∧ results_csv w' = Some (csv_rows w ++ [result_row username st http ts note])
  ∧ available_text w'
    = available_text w ++ (if bool_decide (st = Available) then username ++ [10%N] else [])
  ∧ custom_txt w' = custom_txt w ∧ stdout w' = stdout w
  ∧ requests w' = requests w ∧ sessions w' = sessions w ∧ sleeps w' = sleeps w.
Proof.
  cbv zeta. unfold write_result, now_ts, read_clock, append_results,
    append_available, mbind, M_bind, mret, M_ret, csv_rows, available_text.
  cbn -[result_row]. case_bool_decide; cbn -[result_row].
  - by repeat split.
  - rewrite app_nil_r. by repeat split.
Qed.

(** [_update_title] leaves the files and the logs of requests and
    sleeps alone. *)
Lemma _update_title_files self w :
  let w' := (_update_title self w).2 in
  results_csv w' = results_csv w ∧ available_txt w' = available_txt w
  ∧ custom_txt w' = custom_txt w
  ∧ requests w' = requests w ∧ sessions w' = sessions w ∧ sleeps w' = sleeps w.
Proof.
  cbv zeta. unfold _update_title, read_clock, mbind, M_bind, raise, lift. simpl.
  destruct (start_time self); [|done].
  destruct (hms _); [|done].
  destruct (hms _) as [?|[]]; done.
Qed.

Lemma after_check_run self name o w :
  ∃ l, after_check self name o w
       = _update_title self
           (write_result name (o_status o) (o_http_status o) (o_note o)
              (log_line l w)).2.
Proof.
  unfold after_check.
  set (line := match o_status o with
               | Available => _ | Taken => _ | Unknown => _ end).
  assert (Hline : ∃ l, line = print l) by (subst line; destruct (o_status o); eauto).
  destruct Hline as [l ->]. exists l.
  rewrite bind_run. unfold print. cbv beta iota. rewrite bind_run.
  pose proof (write_result_run name (o_status o) (o_http_status o) (o_note o)
                (log_line l w)) as [Hw _].
  destruct (write_result _ _ _ _ _) as [r w1]. cbn [fst snd] in *. by subst r.
Qed.

(** The statements after a check append exactly the record of the
    check, whether or not the title update raises. *)
Lemma after_check_appends self name o w :
  let w' := (after_check self name o w).2 in
  ∃ ts, appended w w' [row_of name o ts]
        ∧ is_Some (results_csv w')
        ∧ custom_txt w' = custom_txt w
        ∧ requests w' = requests w ∧ sessions w' = sessions w
        ∧ sleeps w' = sleeps w.
Proof.
  cbv zeta. destruct (after_check_run self name o w) as [l ->].
  pose proof (write_result_run name (o_status o) (o_http_status o) (o_note o)
                (log_line l w)) as Hw. cbv zeta in Hw.
  destruct (write_result _ _ _ _ _) as [r w1]. cbn [fst snd] in *.
  destruct Hw as (_ & Hcsv & Hav & Hcu & _ & Hrq & Hse & Hsl).
  pose proof (_update_title_files self w1) as (Hcsv' & Hav' & Hcu' & Hrq' & Hse' & Hsl').
  exists (local_stamp (time_time (clock_reads (log_line l w)))).
  unfold appended, csv_rows, available_text in *.
  rewrite Hcsv', Hav', Hcu', Hrq', Hse', Hsl', Hcsv, Hcu, Hrq, Hse, Hsl.
  repeat split; try done.
  cbn [fmap list_fmap concat]. rewrite available_line_row_of, app_nil_r.
  exact Hav.
Qed.

Lemma delay_sleep_same_store self w : same_store w (delay_sleep self w).2.
Proof.
  unfold delay_sleep, asyncio_sleep.
  destruct (Qeq_bool _ _); [apply same_store_refl|].
  destruct (sleep_cancelled _); by repeat split.
Qed.

Lemma _check_with_retries_same_store self name w :
  same_store w (_check_with_retries self name w).2.
Proof. apply retry_loop_traffic. Qed.

Lemma checked_count_check self o :
  checked (count_check self o) = checked self + 1
  ∧ retries (count_check self o) = retries self
  ∧ delay (count_check self o) = delay self
  ∧ concurrency (count_check self o) = concurrency self
  ∧ total_to_check (count_check self o) = total_to_check self.
Proof. unfold count_check. by destruct (o_status o). Qed.

(** *** The sequential loop *)

(** The loop appends one record per name it gets through, in order;
    when it returns it got through all of them. *)
Lemma check_all_records names : ∀ self w,
  let run := check_all self names w in
  ∃ (k : nat) (recs : list row),
    (k ≤ length names)%nat
    ∧ Forall2 record_of (take k names) recs
    ∧ appended w run.2 recs
    ∧ ∀ self', run.1 = Ok self' →
               k = length names
               ∧ checked self' = checked self + Z.of_nat (length names).
Proof.
  induction names as [|name rest IH]; intros self w; cbv zeta.
  - exists 0%nat, []. simpl. split_and!; [done|constructor|apply appended_refl|].
    intros self' [= <-]. lia.
  - cbn [check_all]. rewrite bind_run.
    pose proof (_check_with_retries_same_store self name w) as Hnet.
    destruct (_check_with_retries self name w) as [[o|e] w1]; cbn [snd] in Hnet.
    2:{ exists 0%nat, []. cbn [take]. split_and!; [simpl; lia|constructor| |done].
        cbn [snd]. by apply same_store_appended. }
    rewrite bind_run.
    pose proof (after_check_appends (count_check self o) name o w1) as Hrec.
    cbv zeta in Hrec.
    destruct (after_check (count_check self o) name o w1) as [[[]|e] w2];
      cbn [snd] in Hrec; destruct Hrec as (ts & Happ & _).
    2:{ exists 1%nat, [row_of name o ts]. cbn [take]. split_and!.
        - simpl; lia.
        - constructor; [by exists o, ts|constructor].
        - cbn [snd]. apply (appended_trans w w1 w2 [] _); [|done].
          by apply same_store_appended.
        - done. }
    rewrite bind_run.
    pose proof (delay_sleep_same_store (count_check self o) w2) as Hsl.
    destruct (delay_sleep (count_check self o) w2) as [[[]|e] w3]; cbn [snd] in Hsl.
    2:{ exists 1%nat, [row_of name o ts]. cbn [take]. split_and!.
        - simpl; lia.
        - constructor; [by exists o, ts|constructor].
        - cbn [snd]. apply (appended_trans w w1 w3 [] _); [by apply same_store_appended|].
          rewrite <- (app_nil_r [_]).
          apply (appended_trans w1 w2 w3); [done|by apply same_store_appended].
        - done. }
    destruct (IH (count_check self o) w3) as (k & recs & Hk & Hrecs & Happ' & Hret).
    exists (S k), (row_of name o ts :: recs). split_and!.
    + simpl; lia.
    + cbn [take]. constructor; [by exists o, ts|done].
    + apply (appended_trans w w1 _ [] _); [by apply same_store_appended|].
      change (row_of name o ts :: recs) with ([row_of name o ts] ++ recs).
      apply (appended_trans w1 w3); [|done].
      rewrite <- (app_nil_r [_]).
      apply (appended_trans w1 w2 w3); [done|by apply same_store_appended].
    + intros self' Hself'. destruct (Hret self' Hself') as [-> ->].
      destruct (checked_count_check self o) as [-> _]. simpl length. lia.
Qed.

(** *** The pool *)

Lemma insert_sum (f : wstate → nat) (ws : list wstate) i x y :
  ws !! i = Some x →
  (sum_list_with f (<[i:=y]> ws) + f x = sum_list_with f ws + f y)%nat.
Proof.
  intros Hi. rewrite insert_take_drop by (by eapply lookup_lt_Some).
  rewrite <- (take_drop_middle ws i x Hi) at 3.
  rewrite !sum_list_with_app. simpl. lia.
Qed.

Lemma insert_held (ws : list wstate) i x y :
  ws !! i = Some x →
  (<[i:=y]> ws ≫= held) ++ held x ≡ₚ (ws ≫= held) ++ held y.
Proof.
  intros Hi. rewrite insert_take_drop by (by eapply lookup_lt_Some).
  rewrite <- (take_drop_middle ws i x Hi) at 3.
  rewrite !bind_app, !bind_cons. solve_Permutation.
Qed.

Lemma appended_same_store w0 w w' recs :
  appended w0 w recs → same_store w w' → appended w0 w' recs.
Proof.
  intros H1 H2. rewrite <- (app_nil_r recs).
  eapply appended_trans; [exact H1|by apply same_store_appended].
Qed.

Lemma retry_body_same_store self name a b w :
  same_store w (retry_body self name a b w).2.
Proof.
  rewrite retry_body_run. cbv zeta.
  destruct (attempt_at _ _); [|by repeat split].
  case_bool_decide; [by repeat split|].
  destruct (a <=? retries self); [|by repeat split].
  destruct (sleep_cancelled _); by repeat split.
Qed.

Lemma asyncio_sleep_same_store d w : same_store w (asyncio_sleep d w).2.
Proof. unfold asyncio_sleep. destruct (sleep_cancelled _); by repeat split. Qed.


Local Ltac pool_fields :=
  cbn [fst snd workers queue unfinished sem p_self set_worker set_queue
       set_sem set_self task_done held owes failed pending] in *.

(** A worker that holds [name] and finishes its check with [o]
    records it: the name moves from pending to recorded. *)
Lemma worker_finish_inv w0 self0 names i name o p w x :
  workers p !! i = Some x → held x = [name] → owes x = 1%nat → failed x = 0%nat →
  pool_inv w0 self0 names p w →
  pool_inv w0 self0 names (worker_finish i name o p w).1 (worker_finish i name o p w).2.
Proof.
  intros Hi Hheld Howes Hfail (recs & lost & Happ & Hrows & Hperm & Hlost & Hunf & Hchk).
  unfold worker_finish. pool_fields.
  pose proof (after_check_appends (count_check (p_self p) o) name o w) as Hrec.
  cbv zeta in Hrec. destruct Hrec as (ts & Happ1 & _).
  pose proof (appended_trans _ _ _ _ _ Happ Happ1) as Happ2.
  assert (Hrows2 : Forall is_row (recs ++ [row_of name o ts])).
  { apply Forall_app. split; [done|]. constructor; [|done]. by exists name, o, ts. }
  assert (Hchk2 : checked (count_check (p_self p) o)
                  = checked self0 + Z.of_nat (length (recs ++ [row_of name o ts]))).
  { destruct (checked_count_check (p_self p) o) as [-> _].
    rewrite length_app. simpl. lia. }
  assert (Hperm2 : ∀ y, held y = [] →
            (record_username <$> recs ++ [row_of name o ts])
            ++ (omap id (queue p) ++ (<[i:=y]> (workers p) ≫= held)) ++ lost ≡ₚ names).
  { intros y Hy. pose proof (insert_held (workers p) i x y Hi) as Hh.
    rewrite Hheld, Hy, app_nil_r in Hh.
    rewrite <- Hperm. unfold pending. rewrite <- Hh, fmap_app. simpl.
    solve_Permutation. }
  pose proof (λ y, insert_sum owes (workers p) i x y Hi) as Ho.
  pose proof (λ y, insert_sum failed (workers p) i x y Hi) as Hf.
  rewrite Howes in Ho. rewrite Hfail in Hf.
  destruct (after_check _ _ _ _) as [[[]|e] w1]; cbn [snd] in *.
  - destruct (Qeq_bool _ _).
    + exists (recs ++ [row_of name o ts]), lost. pool_fields.
      specialize (Ho WGet). specialize (Hf WGet). cbn [owes failed] in Ho, Hf.
      split_and!; [done|done|by apply Hperm2|lia|lia|done].
    + pose proof (asyncio_sleep_same_store (delay (count_check (p_self p) o)) w1) as Hs.
      destruct (asyncio_sleep _ _) as [[[]|e] w2]; cbn [snd fst] in *.
      * exists (recs ++ [row_of name o ts]), lost. pool_fields.
        specialize (Ho WDelay). specialize (Hf WDelay). cbn [owes failed] in Ho, Hf.
        split_and!; [by eapply appended_same_store|done|by apply Hperm2|lia|lia|done].
      * exists (recs ++ [row_of name o ts]), lost. pool_fields.
        specialize (Ho (WFailed e)). specialize (Hf (WFailed e)). cbn [owes failed] in Ho, Hf.
        split_and!; [by eapply appended_same_store|done|by apply Hperm2|lia|lia|done].
  - exists (recs ++ [row_of name o ts]), lost. pool_fields.
    specialize (Ho (WFailed e)). specialize (Hf (WFailed e)). cbn [owes failed] in Ho, Hf.
    split_and!; [done|done|by apply Hperm2|lia|lia|done].
Qed.


(** Every turn of a worker preserves the invariant. *)
Lemma worker_step_inv w0 self0 names i p w :
  pool_inv w0 self0 names p w →
  pool_inv w0 self0 names (worker_step i p w).1 (worker_step i p w).2.
Proof.
  intros Hinv. unfold worker_step.
  destruct (workers p !! i) as [x|] eqn:Hi; [|done].
  pose proof (λ y, insert_sum owes (workers p) i x y Hi) as Ho.
  pose proof (λ y, insert_sum failed (workers p) i x y Hi) as Hf.
  pose proof (λ y, insert_held (workers p) i x y Hi) as Hh.
  destruct x as [|name|name attempts b last| | |e]; cbn [owes failed held] in Ho, Hf, Hh.
  - (* queue.get() *)
    destruct (queue p) as [|[name|] q] eqn:Hq; [done| |];
      destruct Hinv as (recs & lost & Happ & Hrows & Hperm & Hlost & Hunf & Hchk);
      exists recs, lost; unfold pending in *; rewrite Hq in *; pool_fields.
    + specialize (Ho (WSem name)). specialize (Hf (WSem name)).
      specialize (Hh (WSem name)). cbn [owes failed held] in Ho, Hf, Hh.
      rewrite app_nil_r in Hh.
      split_and!; [done|done| |lia|simpl in *; lia|done].
      rewrite <- Hperm, Hh. simpl. solve_Permutation.
    + specialize (Ho WReturned). specialize (Hf WReturned).
      specialize (Hh WReturned). cbn [owes failed held] in Ho, Hf, Hh.
      rewrite !app_nil_r in Hh.
      split_and!; [done|done| |lia|simpl in *; lia|done].
      rewrite <- Hperm, Hh. done.
  - (* async with sem *)
    destruct (sem p) as [|n]; [done|].
    destruct Hinv as (recs & lost & Happ & Hrows & Hperm & Hlost & Hunf & Hchk).
    exists recs, lost. unfold pending in *. pool_fields.
    set (y := WLoop name _ _ _).
    specialize (Ho y). specialize (Hf y). specialize (Hh y).
    subst y. cbn [owes failed held] in Ho, Hf, Hh.
    apply Permutation_app_inv_r in Hh.
    split_and!; [done|done| |lia|lia|done].
    by rewrite Hh.
  - (* the retry loop *)
    destruct attempts as [|attempt rest].
    { by apply (worker_finish_inv _ _ _ _ _ _ _ _ _ Hi). }
    pose proof (retry_body_same_store (p_self p) name attempt b w) as Hs.
    destruct (retry_body _ _ _ _ _) as [[[last'|b' last']|e] w1]; cbn [snd] in Hs.
    + apply (worker_finish_inv _ _ _ _ _ _ _ _ _ Hi); try done.
      destruct Hinv as (recs & lost & Happ & Hinv). exists recs, lost.
      split; [by eapply appended_same_store|done].
    + destruct Hinv as (recs & lost & Happ & Hrows & Hperm & Hlost & Hunf & Hchk).
      exists recs, lost. unfold pending in *. pool_fields.
      set (y := WLoop name _ _ _).
      specialize (Ho y). specialize (Hf y). specialize (Hh y).
      subst y. cbn [owes failed held] in Ho, Hf, Hh.
      apply Permutation_app_inv_r in Hh.
      split_and!; [by eapply appended_same_store|done| |lia|lia|done].
      by rewrite Hh.
    + destruct Hinv as (recs & lost & Happ & Hrows & Hperm & Hlost & Hunf & Hchk).
      exists recs, (name :: lost). unfold pending in *. pool_fields.
      specialize (Ho (WFailed e)). specialize (Hf (WFailed e)).
      specialize (Hh (WFailed e)). cbn [owes failed held] in Ho, Hf, Hh.
      rewrite app_nil_r in Hh.
      split_and!; [by eapply appended_same_store|done| |simpl; lia|lia|done].
      rewrite <- Hperm, <- Hh. solve_Permutation.
  - (* after the delay *)
    destruct Hinv as (recs & lost & Happ & Hrows & Hperm & Hlost & Hunf & Hchk).
    exists recs, lost. unfold pending in *. pool_fields.
    specialize (Ho WGet). specialize (Hf WGet). specialize (Hh WGet).
    cbn [owes failed held] in Ho, Hf, Hh. rewrite !app_nil_r in Hh.
    split_and!; [done|done| |lia|lia|done].
    by rewrite Hh.
  - done.
  - done.
Qed.

Lemma run_pool_inv w0 self0 names sched : ∀ p w,
  pool_inv w0 self0 names p w →
  pool_inv w0 self0 names (run_pool sched p w).1 (run_pool sched p w).2.
Proof.
  induction sched as [|i sched IH]; intros p w Hinv; [done|].
  cbn [run_pool]. pose proof (worker_step_inv _ _ _ i _ _ Hinv) as Hstep.
  destruct (worker_step i p w) as [p1 w1]. by apply IH.
Qed.


Lemma initial_pool_inv self names w :
  pool_inv w self names (initial_pool self names) w.
Proof.
  exists [], []. unfold initial_pool, pending. pool_fields.
  assert (Hnone : ∀ n, omap id (replicate n (@None str)) = []).
  { intros n. induction n as [|m IH]; [done|]. simpl. exact IH. }
  assert (Hsome : omap id (Some <$> names) = names).
  { induction names as [|x l IH]; [done|]. simpl. by f_equal. }
  assert (Hw : ∀ n, replicate n WGet ≫= held = []).
  { intros n. induction n as [|m IH]; [done|]. simpl. exact IH. }
  assert (Hs : ∀ f n, f WGet = 0%nat → sum_list_with f (replicate n WGet) = 0%nat).
  { intros f n Hf. induction n as [|m IH]; [done|]. simpl. by rewrite Hf. }
  split_and!.
  - apply appended_refl.
  - done.
  - by rewrite omap_app, Hsome, Hnone, Hw, !app_nil_r.
  - simpl. lia.
  - rewrite Hs by done. rewrite length_app, length_fmap, length_replicate. lia.
  - simpl. lia.
Qed.

Lemma owes_nothing (ws : list wstate) :
  sum_list_with owes ws = 0%nat →
  ws ≫= held = [] ∧ sum_list_with failed ws = 0%nat.
Proof.
  induction ws as [|x ws IH]; [done|]. simpl. intros Hsum.
  destruct x; simpl in *; try lia; by apply IH.
Qed.

(** The records of a pooled run, after any schedule: one per resolved
    check, each for one of the names; once every queue item is marked
    done, one for each name. *)
Lemma run_pool_records self names sched w :
  let run := run_pool sched (initial_pool self names) w in
  ∃ recs, appended w run.2 recs
          ∧ Forall is_row recs
          ∧ record_username <$> recs ⊆+ names
          ∧ checked (p_self run.1) = checked self + Z.of_nat (length recs)
          ∧ (unfinished run.1 = 0%nat → record_username <$> recs ≡ₚ names).
Proof.
  cbv zeta.
  destruct (run_pool_inv w self names sched _ _ (initial_pool_inv self names w))
    as (recs & lost & Happ & Hrows & Hperm & Hlost & Hunf & Hchk).
  exists recs. split_and!; [done|done| |done|].
  - rewrite <- Hperm. apply submseteq_inserts_r. done.
  - intros Hz. rewrite Hz in Hunf.
    assert (Hq : queue (run_pool sched (initial_pool self names) w).1 = [])
      by (apply length_zero_iff_nil; lia).
    destruct (owes_nothing (workers (run_pool sched (initial_pool self names) w).1))
      as [Hheld Hfailed]; [lia|].
    rewrite Hfailed in Hlost.
    assert (lost = []) as -> by (apply length_zero_iff_nil; lia).
    unfold pending in Hperm. rewrite Hq, Hheld in Hperm. simpl in Hperm.
    by rewrite app_nil_r in Hperm.
Qed.

(** The statements after a check append the record of the check,
    stamped with the time at which they run, whether or not the title
    update raises. *)
Lemma after_check_stamp self name o w :
  appended w (after_check self name o w).2
    [row_of name o (local_stamp (time_time (clock_reads w)))].
Proof.
  destruct (after_check_run self name o w) as [l ->].
  pose proof (write_result_run name (o_status o) (o_http_status o) (o_note o)
                (log_line l w)) as Hw. cbv zeta in Hw.
  destruct (write_result _ _ _ _ _) as [r w1]. cbn [fst snd] in *.
  destruct Hw as (_ & Hcsv & Hav & _).
  pose proof (_update_title_files self w1) as (Hcsv' & Hav' & _).
  unfold appended, csv_rows, available_text in *.
  rewrite Hcsv', Hav', Hcsv. split; [done|].
  cbn [fmap list_fmap concat]. rewrite available_line_row_of, app_nil_r.
  exact Hav.
Qed.

(** The records of the sequential loop are those of the checks it
    resolved, one each and in order. *)
Lemma check_all_resolved names : ∀ self w,
  ∃ recs, Forall2 record_for (resolved self names w) recs
          ∧ appended w (check_all self names w).2 recs
          ∧ (resolved self names w).*1 `prefix_of` names
          ∧ ∀ self', (check_all self names w).1 = Ok self' →
                     (resolved self names w).*1 = names
                     ∧ checked self' = checked self + Z.of_nat (length names).
Proof.
  induction names as [|name rest IH]; intros self w.
  - exists []. cbn [resolved check_all fmap list_fmap].
    split; [constructor|]. split; [apply appended_refl|]. split; [done|].
    intros self' [= <-]. split; [done|simpl; lia].
  - cbn [check_all resolved]. rewrite bind_run.
    pose proof (_check_with_retries_same_store self name w) as Hnet.
    destruct (_check_with_retries self name w) as [[o|e] w1]; cbn [snd] in Hnet.
    2:{ exists []. cbn [fst snd fmap list_fmap].
        split; [constructor|]. split; [by apply same_store_appended|].
        split; [apply prefix_nil|done]. }
    rewrite bind_run. cbv zeta.
    pose proof (after_check_stamp (count_check self o) name o w1) as Hrec.
    set (r := row_of name o _) in Hrec.
    assert (Hr : record_for (name, o) r) by (by eexists).
    assert (Hw1 : appended w w1 []) by (by apply same_store_appended).
    destruct (after_check (count_check self o) name o w1) as [[[]|e] w2];
      cbn [snd] in Hrec.
    2:{ exists [r]. cbn [fst snd fmap list_fmap].
        split; [by repeat constructor|].
        split; [exact (appended_trans w w1 w2 [] [r] Hw1 Hrec)|].
        split; [apply prefix_cons, prefix_nil|done]. }
    rewrite bind_run.
    pose proof (delay_sleep_same_store (count_check self o) w2) as Hsl.
    assert (Hw3 : appended w (delay_sleep (count_check self o) w2).2 [r]).
    { apply (appended_trans w w1 _ [] [r] Hw1).
      eapply appended_same_store; [exact Hrec|exact Hsl]. }
    destruct (delay_sleep (count_check self o) w2) as [[[]|e] w3]; cbn [snd] in Hsl, Hw3.
    2:{ exists [r]. cbn [fst snd fmap list_fmap].
        split; [by repeat constructor|]. split; [exact Hw3|].
        split; [apply prefix_cons, prefix_nil|done]. }
    destruct (IH (count_check self o) w3) as (recs & Hrecs & Happ & Hpre & Hret).
    exists (r :: recs). rewrite fmap_cons. cbn [fst].
    split; [by constructor|].
    split; [exact (appended_trans w w3 _ [r] recs Hw3 Happ)|].
    split; [by apply prefix_cons|].
    intros self' Hself'. destruct (Hret self' Hself') as [-> ->].
    split; [done|]. destruct (checked_count_check self o) as [-> _]. simpl length. lia.
Qed.

Lemma worker_finish_appends i name o p w :
  ∃ ts, appended w (worker_finish i name o p w).2 [row_of name o ts].
Proof.
  unfold worker_finish. cbv zeta.
  cbn [p_self set_self set_sem].
  pose proof (after_check_stamp (count_check (p_self p) o) name o w) as Hrec.
  eexists.
  destruct (after_check _ _ _ _) as [[[]|e] w1]; cbn [snd] in Hrec; [|exact Hrec].
  destruct (Qeq_bool _ _); [exact Hrec|].
  pose proof (asyncio_sleep_same_store (delay (count_check (p_self p) o)) w1) as Hs.
  destruct (asyncio_sleep _ _) as [[[]|e] w2]; cbn [snd] in *;
    by eapply appended_same_store.
Qed.

(** A turn of a worker appends the record of the check that resolves
    in it, and nothing when none does. *)
Lemma worker_step_resolved i p w :
  ∃ recs, Forall2 record_for (option_list (resolves i p w)) recs
          ∧ appended w (worker_step i p w).2 recs.
Proof.
  assert (Hnone : ∀ w', appended w w' [] →
            ∃ recs, Forall2 record_for (option_list None) recs ∧ appended w w' recs).
  { intros w' Hw'. exists []. split; [constructor|done]. }
  assert (Hsome : ∀ name o w', (∃ ts, appended w w' [row_of name o ts]) →
            ∃ recs, Forall2 record_for (option_list (Some (name, o))) recs
                    ∧ appended w w' recs).
  { intros name o w' [ts Hw']. exists [row_of name o ts].
    split; [|done]. constructor; [by exists ts|constructor]. }
  unfold worker_step, resolves.
  destruct (workers p !! i) as [[|name|name [|attempt rest] b last| | |e]|].
  - apply Hnone. destruct (queue p) as [|[name|] q]; apply appended_refl.
  - apply Hnone. destruct (sem p); apply appended_refl.
  - apply Hsome, worker_finish_appends.
  - pose proof (retry_body_same_store (p_self p) name attempt b w) as Hnet.
    destruct (retry_body _ _ _ _ _) as [[[last'|b' last']|e] w1]; cbn [snd] in Hnet.
    + apply Hsome. destruct (worker_finish_appends i name last' p w1) as [ts Hts].
      exists ts. apply (appended_trans w w1 _ [] _); [by apply same_store_appended|done].
    + apply Hnone. by apply same_store_appended.
    + apply Hnone. by apply same_store_appended.
  - apply Hnone, appended_refl.
  - apply Hnone, appended_refl.
  - apply Hnone, appended_refl.
  - apply Hnone, appended_refl.
Qed.

(** Under any schedule, from any state of the pool, the records
    appended are those of the checks that resolved, in the order in
    which they resolved. *)
Lemma run_pool_resolved sched : ∀ p w,
  ∃ recs, Forall2 record_for (pool_resolved sched p w) recs
          ∧ appended w (run_pool sched p w).2 recs.
Proof.
  induction sched as [|i sched IH]; intros p w.
  - exists []. split; [constructor|apply appended_refl].
  - cbn [run_pool pool_resolved].
    destruct (worker_step_resolved i p w) as (r1 & H1 & A1).
    destruct (worker_step i p w) as [p1 w1]. cbn [fst snd] in *.
    destruct (IH p1 w1) as (r2 & H2 & A2).
    exists (r1 ++ r2). split; [by apply Forall2_app|by eapply appended_trans].
Qed.

Lemma record_for_usernames done recs :
  Forall2 record_for done recs → record_username <$> recs = done.*1.
Proof.
  induction 1 as [|[name o] r done recs [ts ->] _ IH]; [done|].
  by rewrite !fmap_cons, IH.
Qed.

(** The names of the checks a pooled run resolved. *)
Lemma pool_resolved_names self names sched w :
  let run := run_pool sched (initial_pool self names) w in
  let done := pool_resolved sched (initial_pool self names) w in
  done.*1 ⊆+ names
  ∧ checked (p_self run.1) = checked self + Z.of_nat (length done)
  ∧ (unfinished run.1 = 0%nat → done.*1 ≡ₚ names).
Proof.
  intros run done.
  destruct (run_pool_resolved sched (initial_pool self names) w) as (recs & Hrecs & [Hcsv _]).
  destruct (run_pool_records self names sched w)
    as (recs' & [Hcsv' _] & _ & Hsub & Hchecked & Hdone).
  fold run done in Hrecs, Hcsv, Hcsv', Hchecked, Hdone.
  assert (recs' = recs) as -> by (rewrite Hcsv in Hcsv'; by apply app_inv_head in Hcsv').
  rewrite (record_for_usernames _ _ Hrecs) in Hsub, Hdone.
  split; [exact Hsub|]. split; [|exact Hdone].
  rewrite Hchecked. by rewrite (Forall2_length _ _ _ Hrecs).
Qed.

(** C6: the statements the dispatcher runs once a check has resolved
    append exactly one record [username, status, http_status,
    timestamp, note] of that check, stamped with the time at which
    they run, to the Result Store and, exactly when the status is
    available, the username and a newline to the AvailableList; the
    check itself appends nothing.  The sequential loop runs them for
    every check that resolves: what it appends is exactly one record
    per resolved check, in order, with the outcome the check returned,
    also when an exception ends the loop; and it returns only after it
    has resolved every name.  A pooled run, from any state and under
    any schedule, appends exactly one record per check that resolves in
    a turn of a worker, with the outcome the worker left the retry
    loop with; the checks it resolves are among the names, and are all
    of them once every queue item is marked done. *)
Theorem dispatcher_appends_one_record :
  (∀ self name o w,
     appended w (after_check self name o w).2
       [row_of name o (local_stamp (time_time (clock_reads w)))])
  ∧ (∀ name o ts,
       row_of name o ts
       = [name; status_str (o_status o);
          match o_http_status o with Some h => str_of_Z h | None => [] end;
          ts; o_note o]
       ∧ available_line (row_of name o ts)
         = if bool_decide (o_status o = Available) then name ++ [10%N] else [])
  ∧ (∀ self name w, appended w (_check_with_retries self name w).2 [])
  ∧ (∀ self names w,
       ∃ recs, Forall2 record_for (resolved self names w) recs
               ∧ appended w (check_all self names w).2 recs
               ∧ (resolved self names w).*1 `prefix_of` names
               ∧ ∀ self', (check_all self names w).1 = Ok self' →
                          (resolved self names w).*1 = names
                          ∧ checked self' = checked self + Z.of_nat (length names))
  ∧ (∀ sched p w,
       ∃ recs, Forall2 record_for (pool_resolved sched p w) recs
               ∧ appended w (run_pool sched p w).2 recs)
  ∧ (∀ self names sched w,
       let run := run_pool sched (initial_pool self names) w in
       let done := pool_resolved sched (initial_pool self names) w in
       done.*1 ⊆+ names
       ∧ checked (p_self run.1) = checked self + Z.of_nat (length done)
       ∧ (unfinished run.1 = 0%nat → done.*1 ≡ₚ names)).
Proof.
  split; [|split; [|split; [|split; [|split]]]].
  - intros self name o w. apply after_check_stamp.
  - intros name o ts. split; [done|apply available_line_row_of].
  - intros self name w. apply same_store_appended, _check_with_retries_same_store.
  - intros self names w. apply check_all_resolved.
  - intros sched p w. apply run_pool_resolved.
  - intros self names sched w. apply pool_resolved_names.
Qed.


(** *** A whole run *)

Lemma select_names_run names max_checks resume w :
  select_names names max_checks resume w
  = (Ok (selected names max_checks resume w), w).
Proof. unfold select_names, selected. by destruct resume. Qed.

Lemma selected_sublist names max_checks resume w :
  selected names max_checks resume w `sublist_of` sanitize names.
Proof.
  unfold selected.
  assert (Hkept : (if resume
                   then filter (λ n, n ∉ load_seen_from_csv (CsvRows <$> results_csv w))
                          (sanitize names)
                   else sanitize names) `sublist_of` sanitize names)
    by (destruct resume; [apply sublist_filter|done]).
  destruct (0 <? max_checks); [|done].
  etrans; [apply sublist_take|done].
Qed.

Lemma selected_candidates names max_checks resume w :
  Forall is_candidate (selected names max_checks resume w).
Proof.
  apply Forall_forall. intros n Hn.
  pose proof (sanitize_candidates names) as Hall. rewrite Forall_forall in Hall.
  apply Hall. eapply elem_of_sublist; [exact Hn|apply selected_sublist].
Qed.

(** Under resume, on a store the program left, no selected name is a
    recorded username. *)
Lemma selected_not_recorded names max_checks w :
  store_ok (results_csv w) →
  ∀ u, u ∈ selected names max_checks true w → u ∉ recorded_usernames (results_csv w).
Proof.
  intros Hok u Hu. unfold selected in Hu.
  assert (Hin : u ∈ filter (λ n, n ∉ load_seen_from_csv (CsvRows <$> results_csv w))
                  (sanitize names)).
  { destruct (0 <? max_checks); [|done].
    eapply elem_of_sublist; [exact Hu|apply sublist_take]. }
  apply list_elem_of_filter in Hin as [Hseen _].
  by rewrite <- (load_seen_store_ok _ Hok).
Qed.

Lemma files_appended w w' :
  results_csv w' = results_csv w → available_txt w' = available_txt w →
  appended w w' [].
Proof.
  intros Hr Ha. unfold appended, csv_rows, available_text.
  rewrite Hr, Ha. simpl. by rewrite !app_nil_r.
Qed.

Lemma Forall2_record_of names recs :
  Forall2 record_of names recs →
  Forall is_row recs ∧ record_username <$> recs = names.
Proof.
  induction 1 as [|name r names recs (o & ts & ->) _ [IH1 IH2]]; [done|].
  split; [constructor; [by exists name, o, ts|done]|].
  by rewrite fmap_cons, IH2.
Qed.

(** The records of a run of [run_check_list]: one for some of the
    selected names, and, when the run returns, one for each of them,
    in order if the run is sequential. *)
Lemma run_check_list_records self names max_checks resume w :
  let run := run_check_list self names max_checks resume w in
  let sel := selected names max_checks resume w in
  ∃ recs, appended w run.2 recs
          ∧ Forall is_row recs
          ∧ record_username <$> recs ⊆+ sel
          ∧ ∀ self', run.1 = Ok (Returned self') →
                     record_username <$> recs ≡ₚ sel
                     ∧ (concurrency self = 1 → record_username <$> recs = sel).
Proof.
  cbv zeta.
  remember (run_check_list self names max_checks resume w) as run eqn:Hrun.
  unfold run_check_list in Hrun.
  rewrite bind_run, select_names_run in Hrun. cbv beta iota in Hrun.
  set (sel := selected names max_checks resume w) in *.
  cbn [total_to_check set_total_to_check] in Hrun.
  destruct (Z.eqb_spec (Z.of_nat (length sel)) 0) as [Hz|Hnz].
  - assert (sel = []) as -> by (apply length_zero_iff_nil; lia).
    subst run. exists []. split_and!; [by apply files_appended|done|done|done].
  - rewrite bind_run in Hrun. unfold print at 1 in Hrun. cbv beta iota in Hrun.
    rewrite bind_run in Hrun. unfold read_clock at 1 in Hrun. cbv beta iota in Hrun.
    cbn [concurrency set_start_time set_total_to_check] in Hrun.
    set (w1 := tick (log_line _ w)) in Hrun.
    assert (Hw1 : appended w w1 []) by (by apply files_appended).
    set (self2 := set_start_time _ _) in Hrun.
    destruct (Z.eqb_spec (concurrency self) 1) as [Hseq|Hpool].
    + rewrite bind_run in Hrun. unfold open_session at 1 in Hrun.
      cbv beta iota in Hrun.
      set (w2 := World _ _ _ _ _ _ _ _) in Hrun.
      assert (Hw2 : appended w w2 []) by (by apply files_appended).
      destruct (check_all_records sel self2 w2) as (k & recs & Hk & Hrecs & Happ & Hret).
      apply Forall2_record_of in Hrecs as [Hrows Hnames].
      exists recs. rewrite bind_run in Hrun.
      destruct (check_all self2 sel w2) as [[self3|e] w3]; subst run;
        cbn [fst snd mret M_ret] in *.
      * destruct (Hret self3 eq_refl) as [-> _]. rewrite firstn_all in Hnames.
        split_and!; [by apply (appended_trans w w2 w3 [] recs)|done|by rewrite Hnames|].
        intros self' _. by rewrite Hnames.
      * split_and!; [by apply (appended_trans w w2 w3 [] recs)|done| |done].
        rewrite Hnames. apply sublist_submseteq, sublist_take.
    + destruct (concurrency self <? 0).
      { subst run. exists []. split_and!; [done|done|apply submseteq_nil_l|done]. }
      rewrite bind_run in Hrun. unfold open_session at 1 in Hrun.
      cbv beta iota in Hrun.
      set (w2 := World _ _ _ _ _ _ _ _) in Hrun.
      assert (Hw2 : appended w w2 []) by (by apply files_appended).
      destruct (run_pool_records self2 sel schedule w2)
        as (recs & Happ & Hrows & Hsub & _ & Hdone).
      exists recs.
      destruct (run_pool schedule (initial_pool self2 sel) w2) as [p w3];
        cbn [fst snd] in *.
      case_bool_decide as Hunf; subst run; cbn [fst snd].
      * split_and!; [by apply (appended_trans w w2 w3 [] recs)|done|done|].
        intros self' _. split; [by apply Hdone|done].
      * split_and!; [by apply (appended_trans w w2 w3 [] recs)|done|done|done].
Qed.


Lemma is_row_is_record r :
  is_row r → is_candidate (record_username r) → is_record r.
Proof.
  intros (name & o & ts & ->) Hc. unfold row_of, result_row.
  by eexists _, _, _, _, _.
Qed.

(** What a run does to a store the program left: it appends records
    of selected names, one for each of them when it returns. *)
Lemma run_check_list_store self names max_checks resume w :
  store_ok (results_csv w) →
  let run := run_check_list self names max_checks resume w in
  let sel := selected names max_checks resume w in
  ∃ old recs,
    results_csv w = Some (HEADER :: old)
    ∧ results_csv run.2 = Some (HEADER :: old ++ recs)
    ∧ Forall is_record (old ++ recs)
    ∧ record_username <$> recs ⊆+ sel
    ∧ ∀ self', run.1 = Ok (Returned self') →
               record_username <$> recs ≡ₚ sel
               ∧ (concurrency self = 1 → record_username <$> recs = sel).
Proof.
  intros (old & Hw & Hold) run sel.
  destruct (run_check_list_records self names max_checks resume w)
    as (recs & [Hcsv _] & Hrows & Hsub & Hret).
  fold run sel in Hcsv, Hsub, Hret.
  exists old, recs. split_and!; [done| | |done|done].
  - unfold csv_rows in Hcsv. rewrite Hw in Hcsv. simpl in Hcsv.
    by destruct (results_csv run.2); simplify_eq/=.
  - apply Forall_app. split; [done|].
    apply Forall_forall. intros r Hr. apply is_row_is_record.
    + rewrite Forall_forall in Hrows. by apply Hrows.
    + pose proof (selected_candidates names max_checks resume w) as Hc.
      rewrite Forall_forall in Hc. apply Hc.
      eapply elem_of_submseteq; [|exact Hsub].
      apply list_elem_of_fmap. by exists r.
Qed.

(** C5, as amended: under resume, on a store the program left, a run
    checks no username that the store already records; the store only
    grows, by records of selected names; and a run that returns has
    added exactly one record per selected name, so that starting from
    an empty store there are exactly N records after N candidates.
    The run does not remove duplicates within its own input: the
    usernames of the store are free of duplicates afterwards when they
    were before and the selected names are. *)
Theorem resume_never_rechecks (self : SteamChecker) (names : list pyobj)
    (max_checks : Z) (w : world) :
  store_ok (results_csv w) →
  let run := run_check_list self names max_checks true w in
  let sel := selected names max_checks true w in
  let before := recorded_usernames (results_csv w) in
  let after := recorded_usernames (results_csv run.2) in
  (∀ u, u ∈ sel → u ∉ before)
  ∧ store_ok (results_csv run.2)
  ∧ ∃ new, after = before ++ new
           ∧ new ⊆+ sel
           ∧ ∀ self', run.1 = Ok (Returned self') →
                      new ≡ₚ sel
                      ∧ length new = length sel
                      ∧ (concurrency self = 1 → new = sel)
                      ∧ (NoDup before → NoDup sel → NoDup after).
Proof.
  intros Hok run sel before after.
  pose proof (selected_not_recorded names max_checks w Hok) as Hfresh.
  fold sel before in Hfresh.
  destruct (run_check_list_store self names max_checks true w Hok)
    as (old & recs & Hw & Hafter & Hrecs & Hsub & Hret).
  fold run sel in Hafter, Hsub, Hret.
  assert (Hnew : after = before ++ (record_username <$> recs)).
  { subst after before. unfold recorded_usernames. rewrite Hafter, Hw. simpl.
    by rewrite fmap_app. }
  split_and!; [done|by exists (old ++ recs)|].
  exists (record_username <$> recs). split_and!; [done|done|].
  intros self' Hself'. destruct (Hret self' Hself') as [Hperm Hseq].
  split_and!; [done|by rewrite Hperm|done|].
  intros Hnd Hsel. rewrite Hnew. apply NoDup_app. split_and!; [done| |by rewrite Hperm].
  intros u Hu Hu'. rewrite Hperm in Hu'. by apply (Hfresh u).
Qed.



(** C8: when no name is left after sanitizing, resume and the limit,
    [run_check_list] prints that there is nothing to check and
    returns: no session is opened, no request is made, no file is
    written. *)
Theorem nothing_to_check_returns (self : SteamChecker) (names : list pyobj)
    (max_checks : Z) (resume : bool) (w : world) :
  selected names max_checks resume w = [] →
  let run := run_check_list self names max_checks resume w in
  run.1 = Ok (Returned (set_total_to_check self 0))
  ∧ stdout run.2 = stdout w ++ [NoNamesToCheck]
  ∧ sessions run.2 = sessions w
  ∧ requests run.2 = requests w
  ∧ sleeps run.2 = sleeps w
  ∧ results_csv run.2 = results_csv w
  ∧ available_txt run.2 = available_txt w.
Proof.
  intros Hsel run. subst run. unfold run_check_list.
  rewrite bind_run, select_names_run, Hsel. by cbv beta iota.
Qed.

(** C9: in local-file mode, when [Custom.txt] does not exist the run
    creates it empty, tells the user to fill it, and returns; when it
    exists but every line is blank the run says so and returns.  In
    both cases nothing is raised, no checker is created, no session is
    opened and no request is made. *)
Theorem custom_file_missing_or_empty (max_checks concurrency : Z) (delay : Q)
    (resume : bool) (w : world) :
  let run := run_from_custom_file max_checks concurrency delay resume w in
  (custom_txt w = None →
   run = (Ok None, log_line CreatedCustom (set_custom (Some []) w))
   ∧ custom_txt run.2 = Some [])
  ∧ (∀ lines, custom_txt w = Some lines →
              Forall (λ ln, Str.strip ln = []) lines →
              run = (Ok None, log_line NoNamesInCustom w))
  ∧ (custom_txt w = None
     ∨ (∃ lines, custom_txt w = Some lines ∧ Forall (λ ln, Str.strip ln = []) lines) →
     run.1 = Ok None
     ∧ requests run.2 = requests w ∧ sessions run.2 = sessions w
     ∧ results_csv run.2 = results_csv w ∧ available_txt run.2 = available_txt w).
Proof.
  cbv zeta.
  assert (Hmissing : custom_txt w = None →
            run_from_custom_file max_checks concurrency delay resume w
            = (Ok None, log_line CreatedCustom (set_custom (Some []) w))).
  { intros Hnone. unfold run_from_custom_file. by rewrite Hnone. }
  assert (Hblank : ∀ lines, custom_txt w = Some lines →
            Forall (λ ln, Str.strip ln = []) lines →
            run_from_custom_file max_checks concurrency delay resume w
            = (Ok None, log_line NoNamesInCustom w)).
  { intros lines Hsome Hall. unfold run_from_custom_file. rewrite Hsome.
    cbv zeta. set (raw := filter _ (Str.strip <$> lines)).
    assert (raw = []) as ->; [subst raw; clear Hsome|done].
    induction Hall as [|ln lines Hln _ IH]; [done|].
    rewrite fmap_cons, filter_cons_False; [exact IH|]. by rewrite Hln; intros []. }
  split_and!.
  - intros Hnone. by rewrite (Hmissing Hnone).
  - exact Hblank.
  - intros [Hnone|(lines & Hsome & Hall)].
    + by rewrite (Hmissing Hnone).
    + by rewrite (Hblank lines Hsome Hall).
Qed.

(** *** The status line *)

(** When both times can be formatted, [_update_title] computes the
    ETA and prints nothing: its [print] is in the [except] branch. *)
Lemma _update_title_silent self w st elapsed_s remaining_s :
  start_time self = Some st →
  hms (time_time (clock_reads w) - st)%Q = Ok elapsed_s →
  hms (eta self (time_time (clock_reads w) - st)%Q) = Ok remaining_s →
  _update_title self w = (Ok (), tick w).
Proof.
  intros Hst He Hr. unfold _update_title. rewrite bind_run. unfold read_clock.
  cbv beta iota. by rewrite Hst, He, Hr.
Qed.

(** The only status line it ever prints has ["..."] for the ETA. *)
Lemma _update_title_line self w l :
  l ∈ stdout (_update_title self w).2 → l ∉ stdout w →
  ∃ elapsed_s, l = StatusLine (checked self) (total_to_check self) (available self)
                     elapsed_s (lit "...").
Proof.
  unfold _update_title. rewrite bind_run. unfold read_clock. cbv beta iota.
  destruct (start_time self) as [st|]; [|done].
  destruct (hms _) as [elapsed_s|e]; [|done].
  destruct (hms _) as [remaining_s|[|kind|kind]]; try done.
  unfold print. cbn [snd stdout log_line tick].
  intros [Hl|Hl]%elem_of_app Hnot; [done|].
  apply list_elem_of_singleton in Hl. by exists elapsed_s.
Qed.


(** *** The store across runs *)

(** [ensure_files] leaves a store with its header, and keeps one. *)
Lemma ensure_files_store w :
  (results_csv w = None → results_csv (ensure_files w) = Some [HEADER])
  ∧ (store_ok (results_csv w) → results_csv (ensure_files w) = results_csv w)
  ∧ (results_csv w = None ∨ store_ok (results_csv w) →
     store_ok (results_csv (ensure_files w))).
Proof.
  unfold ensure_files. split_and!.
  - intros Hw. by rewrite Hw.
  - intros (recs & Hw & _). rewrite Hw. simpl. by rewrite Hw.
  - intros [Hw|(recs & Hw & Hrecs)]; rewrite Hw; simpl.
    + exists []. split; [done|constructor].
    + exists recs. by split.
Qed.

(** ** Further properties of the code *)

(** *** [strip] *)

Lemma lstrip_idem s : Str.lstrip (Str.lstrip s) = Str.lstrip s.
Proof.
  induction s as [|c s IH]; [done|]. simpl.
  destruct (Str.isspace c) eqn:Hc; [done|]. simpl. by rewrite Hc.
Qed.

Lemma lstrip_app_nonspace l c :
  Str.isspace c = false → Str.lstrip (l ++ [c]) = Str.lstrip l ++ [c].
Proof.
  intros Hc. induction l as [|a l IH]; simpl; [by rewrite Hc|].
  by destruct (Str.isspace a).
Qed.

Lemma rstrip_idem s : Str.rstrip (Str.rstrip s) = Str.rstrip s.
Proof. unfold Str.rstrip. by rewrite reverse_involutive, lstrip_idem. Qed.

Lemma rstrip_cons_nonspace c s :
  Str.isspace c = false → Str.rstrip (c :: s) = c :: reverse (Str.lstrip (reverse s)).
Proof.
  intros Hc. unfold Str.rstrip.
  by rewrite reverse_cons, lstrip_app_nonspace, reverse_app.
Qed.

Lemma lstrip_rstrip_lstrip s :
  Str.lstrip (Str.rstrip (Str.lstrip s)) = Str.rstrip (Str.lstrip s).
Proof.
  induction s as [|c s IH]; [done|]. simpl.
  destruct (Str.isspace c) eqn:Hc; [done|].
  rewrite rstrip_cons_nonspace by done. simpl. by rewrite Hc.
Qed.

Lemma strip_idem s : Str.strip (Str.strip s) = Str.strip s.
Proof. unfold Str.strip. by rewrite lstrip_rstrip_lstrip, rstrip_idem. Qed.

(** *** [load_seen_from_csv] *)

(** Under the standard header the username of a row is its first
    field, however many fields the row has. *)
Lemma dict_get_header r :
  r ≠ [] → dict_get (lit "username") (DictReader_row HEADER r) = head r.
Proof.
  destruct r as [|u [|a [|b [|c [|d rest]]]]]; try done.
  intros _. unfold DictReader_row, HEADER.
  cbn [length drop zip zip_with fmap list_fmap]. rewrite drop_nil. done.
Qed.

Lemma seen_lines_elem lines : ∀ (seen : gset str) (n : str),
  n ∈ foldl seen_add_line seen lines ↔
  n ∈ seen ∨ ∃ ln, ln ∈ lines ∧ Str.strip ln ≠ []
                   ∧ n = Str.strip (Str.before 44 ln)
                   ∧ n ≠ [] ∧ n ≠ lit "username".
Proof.
  induction lines as [|ln lines IH]; intros seen n; simpl.
  - split; [by left|]. intros [?|(ln & Hln & _)]; [done|]. by apply elem_of_nil in Hln.
  - rewrite IH. unfold seen_add_line at 1. split.
    + intros [Hn|(ln' & Hln' & Hrest)].
      * case_bool_decide as Hblank; [|by left].
        case_bool_decide as Hfirst; [|by left].
        apply elem_of_union in Hn as [Hn|Hn]; [|by left].
        apply elem_of_singleton in Hn. right. exists ln.
        split; [by left|]. destruct Hfirst. by subst n.
      * right. exists ln'. split; [by right|done].
    + intros [Hn|(ln' & Hln' & Hblank & Heq & Hne & Hnh)].
      * left. repeat case_bool_decide; try done. apply elem_of_union. by right.
      * apply elem_of_cons in Hln' as [->|Hln'].
        -- left. rewrite bool_decide_eq_true_2 by done.
           rewrite bool_decide_eq_true_2 by (by rewrite <- Heq).
           apply elem_of_union. left. by apply elem_of_singleton.
        -- right. by exists ln'.
Qed.

(** X1: on a file that starts with the standard header, the set of
    seen usernames holds exactly the first fields of the later
    non-empty rows, stripped of surrounding white space, except those
    that strip to nothing: the other fields, and the status in
    particular, play no part. *)
Theorem load_seen_header (rest : list row) (n : str) :
  n ∈ load_seen_from_csv (Some (CsvRows (HEADER :: rest))) ↔
  n ≠ [] ∧ ∃ r, r ∈ rest ∧ r ≠ [] ∧ Str.strip (record_username r) = n.
Proof.
  cbn [load_seen_from_csv DictReader]. rewrite seen_rows_elem. split.
  - intros [Hn|(d & Hd & Hne & Heq)]; [by apply not_elem_of_empty in Hn|].
    apply list_elem_of_fmap in Hd as (r & -> & Hr).
    apply list_elem_of_filter in Hr as [Hr0 Hr].
    rewrite dict_get_header in Heq by done.
    split; [done|]. by exists r.
  - intros (Hne & r & Hr & Hr0 & Heq). right.
    exists (DictReader_row HEADER r). split_and!; [|done|].
    + apply list_elem_of_fmap. exists r. split; [done|].
      by apply list_elem_of_filter.
    + by rewrite dict_get_header.
Qed.

(** X2: a missing or empty file gives the empty set, and so does a
    file whose first row has no field ["username"]: the csv reader
    takes that row for the header, and no later row has a username. *)
Theorem load_seen_without_header (first : row) (rest : list row) :
  lit "username" ∉ first →
  load_seen_from_csv None = ∅
  ∧ load_seen_from_csv (Some (CsvRows [])) = ∅
  ∧ load_seen_from_csv (Some (CsvRows (first :: rest))) = ∅.
Proof.
  intros Hfirst. split_and!; [done|done|].
  apply set_eq. intros n. cbn [load_seen_from_csv DictReader].
  rewrite seen_rows_elem. split; [|by intros ?%not_elem_of_empty].
  intros [Hn|(d & Hd & Hne & Heq)]; [done|].
  apply list_elem_of_fmap in Hd as (r & -> & _).
  rewrite dict_get_absent in Heq by done. by subst n.
Qed.

(** X3: when the csv reader raises, the fallback keeps what the reader
    had found and adds, for every line that is not blank, the text
    before the first comma, stripped, unless it is empty or the word
    ["username"]. *)
Theorem load_seen_fallback (rows : list row) (lines : list str) (n : str) :
  n ∈ load_seen_from_csv (Some (CsvRaises rows lines)) ↔
  n ∈ load_seen_from_csv (Some (CsvRows rows))
  ∨ ∃ ln, ln ∈ lines ∧ Str.strip ln ≠ []
          ∧ n = Str.strip (Str.before 44 ln)
          ∧ n ≠ [] ∧ n ≠ lit "username".
Proof. cbn [load_seen_from_csv]. apply seen_lines_elem. Qed.

(** X4: whatever the file holds, no seen username is empty and none
    has white space around it. *)
Theorem load_seen_stripped (f : option csv_read) (n : str) :
  n ∈ load_seen_from_csv f → n ≠ [] ∧ is_stripped n.
Proof.
  assert (Hrows : ∀ rows, n ∈ foldl seen_add_row ∅ (DictReader rows) →
                          n ≠ [] ∧ is_stripped n).
  { intros rows [Hn|(d & _ & Hne & Heq)]%seen_rows_elem; [done|].
    split; [done|]. unfold is_stripped. rewrite <- Heq. apply strip_idem. }
  destruct f as [[rows|rows lines]|]; cbn [load_seen_from_csv].
  - apply Hrows.
  - intros [Hn|(ln & _ & _ & Heq & Hne & _)]%seen_lines_elem; [by apply (Hrows rows)|].
    split; [done|]. unfold is_stripped. rewrite Heq. apply strip_idem.
  - by intros ?%not_elem_of_empty.
Qed.

(** *** Writing a record and reading it back *)

(** X5: on a store the program left, [write_result] for a candidate
    keeps the store well formed, and the set [load_seen_from_csv] reads
    back afterwards is the set before with that username added. *)
Theorem write_then_seen (username : str) (st : status) (http : option Z)
    (note : str) (w : world) :
  store_ok (results_csv w) → is_candidate username →
  let w' := (write_result username st http note w).2 in
  store_ok (results_csv w')
  ∧ load_seen_from_csv (CsvRows <$> results_csv w')
    = {[username]} ∪ load_seen_from_csv (CsvRows <$> results_csv w).
Proof.
  intros Hok Hcand w'.
  destruct (write_result_run username st http note w) as (_ & Hcsv & _).
  fold w' in Hcsv. destruct Hok as (recs & Hw & Hrecs).
  unfold csv_rows in Hcsv. rewrite Hw in Hcsv. simpl in Hcsv.
  assert (Hok' : store_ok (results_csv w')).
  { eexists. split; [exact Hcsv|]. apply Forall_app. split; [done|].
    constructor; [|done]. by eexists _, _, _, _, _. }
  assert (Hok : store_ok (results_csv w)) by (by exists recs).
  split; [done|]. apply set_eq. intros n.
  rewrite (load_seen_store_ok _ Hok'), elem_of_union, elem_of_singleton,
    (load_seen_store_ok _ Hok).
  unfold recorded_usernames. rewrite Hcsv, Hw. cbn [store_records].
  rewrite fmap_app, elem_of_app.
  change (record_username <$> [result_row username st http
            (local_stamp (time_time (clock_reads w))) note]) with [username].
  rewrite list_elem_of_singleton.
  split; (intros [H|H]; [by right|by left]).
Qed.

(** *** The classification of a response *)

(** X6: an attempt reports a name as available in one case only: the
    final URL is not a profile redirect, the body could be read and
    contains "could not be found" in some letter case, and the name is
    longer than 2. *)
Theorem available_only_when_not_found (name : str) (got : get_result) :
  (∃ o, check_response name got = Ok o ∧ o_status o = Available) ↔
  ∃ resp body,
    got = GetResponse resp
    ∧ Str.contains (lit "/profiles/") (resp_url resp) = false
    ∧ resp_text resp = Text body
    ∧ Str.contains (lit "could not be found") (lower body) = true
    ∧ (2 < length name)%nat.
Proof.
  unfold check_response, check_once_except. split.
  - intros (o & Hres & Hst). destruct got as [resp|e].
    + destruct (Str.contains (lit "/profiles/") (resp_url resp)) eqn:Hurl;
        [by simplify_eq/=|].
      destruct (resp_text resp) as [body|[|kind|kind]] eqn:Htext;
        try by simplify_eq/=.
      injection Hres as <-. unfold classify_body in Hst.
      destruct (Str.contains (lit "could not be found") (lower body)) eqn:Hnf;
        [|by destruct (existsb _ _)].
      case_bool_decide as Hlen; [|by destruct (existsb _ _)].
      by exists resp, body.
    + by destruct e; simplify_eq/=.
  - intros (resp & body & -> & Hurl & Htext & Hnf & Hlen).
    eexists. rewrite Hurl, Htext. split; [done|].
    unfold classify_body. by rewrite Hnf, bool_decide_eq_true_2.
Qed.

Lemma classify_body_known name code body :
  o_status (classify_body name code body) ≠ Unknown
  ∧ ∀ code', o_status (classify_body name code' body) = o_status (classify_body name code body)
             ∧ o_note (classify_body name code' body) = o_note (classify_body name code body).
Proof.
  unfold classify_body.
  destruct (_ && _); [done|]. by destruct (existsb _ _).
Qed.

(** X7: an attempt comes back unknown exactly when an [Exception] was
    raised in it, and the HTTP status code never changes the
    classification: a page with another status code but the same final
    URL and body gets the same status and note. *)
Theorem unknown_only_on_exception (name : str) (got : get_result) :
  ((∃ o, check_response name got = Ok o ∧ o_status o = Unknown) ↔
   ∃ kind, raised_in_attempt got = Some (Exc kind))
  ∧ ∀ resp code,
      verdict (check_response name (GetResponse (with_status resp code)))
      = verdict (check_response name (GetResponse resp)).
Proof.
  unfold check_response, check_once_except, raised_in_attempt.
  split; [split|].
  - intros (o & Hres & Hst). destruct got as [resp|e].
    + destruct (Str.contains (lit "/profiles/") (resp_url resp)); [by simplify_eq/=|].
      destruct (resp_text resp) as [body|[|kind|kind]]; try by simplify_eq/=.
      * injection Hres as <-. by apply classify_body_known in Hst.
      * by exists kind.
    + destruct e as [|kind|kind]; try by simplify_eq/=. by exists kind.
  - intros (kind & Hraise). destruct got as [resp|e].
    + destruct (Str.contains (lit "/profiles/") (resp_url resp)); [done|].
      destruct (resp_text resp) as [body|e]; [done|]. injection Hraise as ->.
      by eexists.
    + injection Hraise as ->. by eexists.
  - intros resp code. cbn [with_status resp_url resp_text resp_status].
    destruct (Str.contains (lit "/profiles/") (resp_url resp)); [done|].
    destruct (resp_text resp) as [body|[|kind|kind]]; try done.
    cbn [verdict].
    destruct (classify_body_known name (resp_status resp) body) as [_ Hsame].
    destruct (Hsame code) as [-> ->]. done.
Qed.

(** *** The time spent backing off *)

Lemma Qsum_backoffs (m : nat) : ∀ b,
  (Qsum (backoffs b m) == b * (2 ^ Z.of_nat m - 1))%Q.
Proof.
  induction m as [|m IH]; intros b.
  - change (Qsum (backoffs b 0)) with 0%Q. change (2 ^ Z.of_nat 0)%Q with 1%Q. ring.
  - change (Qsum (backoffs b (S m))) with (b + Qsum (backoffs (b * 2) m))%Q.
    rewrite IH. replace (Z.of_nat (S m)) with (1 + Z.of_nat m)%Z by lia.
    rewrite Qpower_plus by done. change (2 ^ 1)%Q with 2%Q. ring.
Qed.

Lemma Qsum_backoffs_nonneg (m : nat) : ∀ b, (0 <= b → 0 <= Qsum (backoffs b m))%Q.
Proof.
  induction m as [|m IH]; intros b Hb; [apply Qle_refl|].
  change (Qsum (backoffs b (S m))) with (b + Qsum (backoffs (b * 2) m))%Q.
  rewrite <- (Qplus_0_l 0). apply Qplus_le_compat; [done|].
  apply IH. by apply Qmult_le_0_compat.
Qed.

Lemma Qsum_backoffs_mono (k : nat) : ∀ m b,
  (k ≤ m)%nat → (0 <= b → Qsum (backoffs b k) <= Qsum (backoffs b m))%Q.
Proof.
  induction k as [|k IH]; intros m b Hkm Hb.
  - by apply Qsum_backoffs_nonneg.
  - destruct m as [|m]; [lia|].
    change (b + Qsum (backoffs (b * 2) k) <= b + Qsum (backoffs (b * 2) m))%Q.
    apply Qplus_le_compat; [apply Qle_refl|].
    apply IH; [lia|]. by apply Qmult_le_0_compat.
Qed.

(** The sleeps of the loop are the first backoffs, at most one per
    attempt that is not the last. *)
Lemma retry_loop_sleeps self name attempts : ∀ b last w,
  ∃ k, (k ≤ length (filter (λ a : Z, (a ≤ retries self)%Z) attempts))%nat
       ∧ sleeps (retry_loop self name attempts b last w).2 = sleeps w ++ backoffs b k.
Proof.
  induction attempts as [|a rest IH]; intros b last w.
  - exists 0%nat. simpl. by rewrite app_nil_r.
  - rewrite retry_loop_cons, retry_body_run. cbv zeta. rewrite filter_cons.
    assert (Hstop : ∀ r : res outcome,
              ∃ k, (k ≤ length (if decide (a ≤ retries self)%Z
                                then a :: filter (λ a : Z, (a ≤ retries self)%Z) rest
                                else filter (λ a : Z, (a ≤ retries self)%Z) rest))%nat
                   ∧ sleeps (r, log_request (CHECK_URL_format name) w).2
                     = sleeps w ++ backoffs b k).
    { intros r. exists 0%nat. split; [lia|]. simpl. by rewrite app_nil_r. }
    destruct (attempt_at _ _) as [o|e]; [|apply Hstop].
    case_bool_decide; [apply Hstop|].
    destruct (Z.leb_spec a (retries self)) as [Hle|Hgt].
    + rewrite decide_True by done.
      destruct (sleep_cancelled _).
      * exists 1%nat. split; [simpl; lia|done].
      * destruct (IH (b * 2)%Q o (log_sleep b (log_request (CHECK_URL_format name) w)))
          as (k & Hk & ->).
        exists (S k). split; [simpl; lia|]. simpl. by rewrite <- app_assoc.
    + rewrite decide_False by lia.
      destruct (IH b o (log_request (CHECK_URL_format name) w)) as (k & Hk & ->).
      by exists k.
Qed.

(** X8: whatever the network does, the retry wrapper of a checker
    with [retries = r >= 0] sleeps at most [r] times, for 0.6, 1.2, ...
    seconds, so for [0.6 * (2^k - 1)] seconds after [k] sleeps and
    never more than [0.6 * (2^r - 1)] in all. *)
Theorem backoff_total_bounded (self : SteamChecker) (name : str) (w : world)
    (r : nat) :
  retries self = Z.of_nat r →
  let run := _check_with_retries self name w in
  ∃ k, (k ≤ r)%nat
       ∧ sleeps run.2 = sleeps w ++ backoffs backoff0 k
       ∧ (Qsum (backoffs backoff0 k) == (6 # 10) * (2 ^ Z.of_nat k - 1))%Q
       ∧ (Qsum (backoffs backoff0 k) <= (6 # 10) * (2 ^ Z.of_nat r - 1))%Q.
Proof.
  intros Hr run. subst run. unfold _check_with_retries.
  destruct (retry_loop_sleeps self name (range 1 (retries self + 2))
              backoff0 no_attempt w) as (k & Hk & Hsl).
  assert (Hcount : length (filter (λ a : Z, (a ≤ retries self)%Z) (range 1 (retries self + 2))) = r).
  { rewrite (range_app 1 (retries self + 1)) by lia.
    rewrite filter_app, length_app.
    rewrite (range_cons (retries self + 1)), (range_nil (retries self + 1 + 1)) by lia.
    rewrite filter_cons_False by lia. simpl. rewrite Nat.add_0_r.
    assert (Hall : ∀ m a, a + Z.of_nat m - 1 ≤ retries self →
              filter (λ a : Z, (a ≤ retries self)%Z) (range a (a + Z.of_nat m))
              = range a (a + Z.of_nat m)).
    { induction m as [|m IH]; intros a Ha; [by rewrite range_nil by lia|].
      rewrite range_cons by lia. rewrite filter_cons_True by lia. f_equal.
      replace (a + Z.of_nat (S m)) with (a + 1 + Z.of_nat m) by lia.
      apply IH. lia. }
    replace (retries self + 1) with (1 + Z.of_nat r) by lia.
    rewrite Hall by lia. rewrite range_length. lia. }
  exists k. rewrite Hcount in Hk. split_and!; [done|done|apply Qsum_backoffs|].
  rewrite <- Qsum_backoffs. by apply Qsum_backoffs_mono.
Qed.

(** *** The ETA *)

(** X9: the ETA of [_update_title] is never negative once time has
    not run backwards, is zero when every name has been checked, and
    between the first check and the last is the elapsed time per
    checked name times the names left. *)
Theorem eta_linear (self : SteamChecker) (elapsed : Q) :
  ((0 <= elapsed)%Q → (0 <= eta self elapsed)%Q)
  ∧ (total_to_check self ≤ checked self → (eta self elapsed == 0)%Q)
  ∧ (1 ≤ checked self → checked self ≤ total_to_check self →
     (eta self elapsed
      == elapsed / inject_Z (checked self)
         * inject_Z (total_to_check self - checked self))%Q).
Proof.
  unfold eta. split_and!.
  - intros He. apply Qmult_le_0_compat.
    + apply Qmult_le_0_compat; [done|]. apply Qinv_le_0_compat.
      change 0%Q with (inject_Z 0). rewrite <- Zle_Qle. lia.
    + change 0%Q with (inject_Z 0). rewrite <- Zle_Qle. lia.
  - intros Hdone. replace (Z.max 0 (total_to_check self - checked self)) with 0 by lia.
    apply Qmult_0_r.
  - intros H1 Hle. replace (Z.max 1 (checked self)) with (checked self) by lia.
    by replace (Z.max 0 (total_to_check self - checked self))
      with (total_to_check self - checked self) by lia.
Qed.

(** *** What a run touches *)

Lemma run_frame_refl names self w : run_frame names self self w w.
Proof.
  split_and!; try done; [|lia|lia].
  exists []. by rewrite app_nil_r.
Qed.

Lemma retry_body_requests self name a b w :
  requests (retry_body self name a b w).2 = requests w ++ [CHECK_URL_format name].
Proof.
  rewrite retry_body_run. cbv zeta.
  destruct (attempt_at _ _); [|done].
  case_bool_decide; [done|].
  destruct (a <=? retries self); [|done].
  by destruct (sleep_cancelled _).
Qed.

Lemma available_rows_same w w' :
  results_csv w' = results_csv w → available_rows w' = available_rows w.
Proof. unfold available_rows, csv_rows. by intros ->. Qed.

Lemma csv_rows_same w w' : results_csv w' = results_csv w → csv_rows w' = csv_rows w.
Proof. unfold csv_rows. by intros ->. Qed.

Lemma available_rows_appended w w' name o ts :
  appended w w' [row_of name o ts] →
  Z.of_nat (available_rows w')
  = Z.of_nat (available_rows w) + (if bool_decide (o_status o = Available) then 1 else 0).
Proof.
  intros [Hcsv _]. unfold available_rows. rewrite Hcsv, filter_app, length_app.
  destruct o as [[] ? ?]; simpl; lia.
Qed.

(** One attempt of the retry loop for one of the names. *)
Lemma run_frame_retry_body names self0 self w0 w name a b :
  name ∈ names → run_frame names self0 self w0 w →
  run_frame names self0 self w0 (retry_body self name a b w).2.
Proof.
  intros Hname (Hcu & Hse & (urls & Hrq & Hurls) & Hch & Hav & Hcfg).
  pose proof (retry_body_same_store self name a b w) as (Hcsv' & _ & Hcu' & _ & Hse' & _).
  split_and!; [congruence|congruence| | | |done].
  - exists (urls ++ [CHECK_URL_format name]).
    rewrite retry_body_requests, Hrq, <- app_assoc. split; [done|].
    apply Forall_app. split; [done|]. constructor; [|done].
    apply list_elem_of_fmap. by exists name.
  - by rewrite (csv_rows_same _ _ Hcsv').
  - by rewrite (available_rows_same _ _ Hcsv').
Qed.

Lemma count_check_available self o :
  checked (count_check self o) = checked self + 1
  ∧ available (count_check self o)
    = available self + (if bool_decide (o_status o = Available) then 1 else 0)
  ∧ same_config self (count_check self o).
Proof.
  unfold count_check. destruct (o_status o); simpl; split; [done| |done| |done|];
    split; (lia || done).
Qed.

(** Counting and recording one resolved check. *)
Lemma run_frame_after_check names self0 self w0 w name o :
  run_frame names self0 self w0 w →
  run_frame names self0 (count_check self o) w0
    (after_check (count_check self o) name o w).2.
Proof.
  intros (Hcu & Hse & (urls & Hrq & Hurls) & Hch & Hav & Hcfg).
  destruct (after_check_appends (count_check self o) name o w)
    as (ts & Happ & _ & Hcu' & Hrq' & Hse' & _).
  destruct (count_check_available self o) as (Hcount' & Hcount & Hcfg').
  split_and!; [congruence|congruence| | | |].
  - exists urls. by rewrite Hrq'.
  - destruct Happ as [-> _]. rewrite length_app, Hcount'. simpl. lia.
  - rewrite (available_rows_appended _ _ _ _ _ Happ), Hcount. lia.
  - unfold same_config in *. destruct_and!. split_and!; congruence.
Qed.

Lemma run_frame_same_store names self0 self w0 w w' :
  same_store w w' → requests w' = requests w →
  run_frame names self0 self w0 w → run_frame names self0 self w0 w'.
Proof.
  intros (Hcsv & _ & Hcu & _ & Hse & _) Hrq (Hcu0 & Hse0 & (urls & Hrq0 & Hurls) & Hch & Hav & Hcfg).
  split_and!; [congruence|congruence| | | |done].
  - exists urls. by rewrite Hrq.
  - by rewrite (csv_rows_same _ _ Hcsv).
  - by rewrite (available_rows_same _ _ Hcsv).
Qed.

Lemma asyncio_sleep_requests d w : requests (asyncio_sleep d w).2 = requests w.
Proof. unfold asyncio_sleep. by destruct (sleep_cancelled _). Qed.

Lemma delay_sleep_requests self w : requests (delay_sleep self w).2 = requests w.
Proof.
  unfold delay_sleep. destruct (Qeq_bool _ _); [done|apply asyncio_sleep_requests].
Qed.

Lemma run_frame_retries names self0 self w0 w name :
  name ∈ names → run_frame names self0 self w0 w →
  run_frame names self0 self w0 (_check_with_retries self name w).2.
Proof.
  intros Hname (Hcu & Hse & (urls & Hrq & Hurls) & Hch & Hav & Hcfg).
  destruct (retry_loop_traffic self name (range 1 (retries self + 2)) backoff0
              no_attempt w) as [(Hcsv' & _ & Hcu' & _ & Hse' & _) (k & _ & Hrq')].
  fold (_check_with_retries self name w) in *.
  split_and!; [congruence|congruence| | | |done].
  - exists (urls ++ replicate k (CHECK_URL_format name)).
    rewrite Hrq', Hrq, <- app_assoc. split; [done|].
    apply Forall_app. split; [done|]. apply Forall_replicate.
    apply list_elem_of_fmap. by exists name.
  - by rewrite (csv_rows_same _ _ Hcsv').
  - by rewrite (available_rows_same _ _ Hcsv').
Qed.

(** The sequential loop keeps the frame, whether it returns or raises. *)
Lemma run_frame_check_all names self0 w0 rest : ∀ self w,
  (∀ name, name ∈ rest → name ∈ names) →
  run_frame names self0 self w0 w →
  ∃ self', run_frame names self0 self' w0 (check_all self rest w).2
           ∧ ∀ s, (check_all self rest w).1 = Ok s → s = self'.
Proof.
  induction rest as [|name rest IH]; intros self w Hin Hframe.
  - exists self. split; [done|]. by intros s [= <-].
  - cbn [check_all]. rewrite bind_run.
    pose proof (run_frame_retries names self0 self w0 w name
                  (Hin name ltac:(by left)) Hframe) as H1.
    destruct (_check_with_retries self name w) as [[o|e] w1]; cbn [snd] in H1;
      [|by exists self].
    rewrite bind_run.
    pose proof (run_frame_after_check names self0 self w0 w1 name o H1) as H2.
    destruct (after_check (count_check self o) name o w1) as [[[]|e] w2];
      cbn [snd] in H2; [|by exists (count_check self o)].
    rewrite bind_run.
    pose proof (run_frame_same_store names self0 (count_check self o) w0 w2 _
                  (delay_sleep_same_store (count_check self o) w2)
                  (delay_sleep_requests (count_check self o) w2) H2) as H3.
    destruct (delay_sleep (count_check self o) w2) as [[[]|e] w3];
      cbn [snd] in H3; [|by exists (count_check self o)].
    apply IH; [|done]. intros n Hn. apply Hin. by right.
Qed.

(** A worker that leaves [async with sem] keeps the frame of the pool. *)
Lemma worker_finish_frame n names self0 w0 i name o p w x :
  workers p !! i = Some x → inflight x = 1%nat →
  pool_frame n names self0 w0 p w →
  pool_frame n names self0 w0 (worker_finish i name o p w).1
    (worker_finish i name o p w).2.
Proof.
  intros Hi Hx (Hsem & Hlen & Hframe).
  pose proof (λ y, insert_sum inflight (workers p) i x y Hi) as Hin.
  rewrite Hx in Hin.
  pose proof (run_frame_after_check names self0 (p_self p) w0 w name o Hframe) as H2.
  unfold worker_finish. pool_fields.
  destruct (after_check _ _ _ _) as [[[]|e] w1]; cbn [snd] in H2.
  - destruct (Qeq_bool _ _).
    + pool_fields. specialize (Hin WGet). cbn [inflight] in Hin.
      unfold pool_frame; pool_fields; split; [lia|split; [by rewrite length_insert|done]].
    + pose proof (run_frame_same_store names self0 _ w0 w1 _
                    (asyncio_sleep_same_store (delay (count_check (p_self p) o)) w1)
                    (asyncio_sleep_requests _ w1) H2) as H3.
      destruct (asyncio_sleep _ _) as [[[]|e] w2]; pool_fields.
      * specialize (Hin WDelay). cbn [inflight] in Hin.
        unfold pool_frame; pool_fields; split; [lia|split; [by rewrite length_insert|done]].
      * specialize (Hin (WFailed e)). cbn [inflight] in Hin.
        unfold pool_frame; pool_fields; split; [lia|split; [by rewrite length_insert|done]].
  - pool_fields. specialize (Hin (WFailed e)). cbn [inflight] in Hin.
    unfold pool_frame; pool_fields; split; [lia|split; [by rewrite length_insert|done]].
Qed.

(** Every turn of a worker keeps the frame of the pool. *)
Lemma worker_step_frame n names self0 w0 i p w :
  pool_inv w0 self0 names p w →
  pool_frame n names self0 w0 p w →
  pool_frame n names self0 w0 (worker_step i p w).1 (worker_step i p w).2.
Proof.
  intros Hinv Hframe. unfold worker_step.
  destruct (workers p !! i) as [x|] eqn:Hi; [|done].
  pose proof (λ y, insert_sum inflight (workers p) i x y Hi) as Hin.
  assert (Hheld : ∀ name, held x = [name] → name ∈ names).
  { intros name Hx. destruct Hinv as (recs & lost & _ & _ & Hperm & _).
    rewrite <- Hperm. apply elem_of_app. right. apply elem_of_app. left.
    unfold pending. apply elem_of_app. right.
    apply list_elem_of_bind. exists x. split; [rewrite Hx; by left|].
    by eapply list_elem_of_lookup_2. }
  destruct x as [|name|name attempts b last| | |e]; cbn [inflight held] in Hin, Hheld.
  - destruct Hframe as (Hsem & Hlen & Hrun).
    destruct (queue p) as [|[name|] q]; [done| |]; pool_fields.
    + specialize (Hin (WSem name)). cbn [inflight] in Hin.
      unfold pool_frame; pool_fields; split; [lia|split; [by rewrite length_insert|done]].
    + specialize (Hin WReturned). cbn [inflight] in Hin.
      unfold pool_frame; pool_fields; split; [lia|split; [by rewrite length_insert|done]].
  - destruct (sem p) as [|m] eqn:Hs; [exact Hframe|].
    destruct Hframe as (Hsem & Hlen & Hrun). rewrite Hs in Hsem. pool_fields.
    set (y := WLoop name _ _ _). specialize (Hin y). subst y. cbn [inflight] in Hin.
    unfold pool_frame; pool_fields; split; [lia|split; [by rewrite length_insert|done]].
  - destruct attempts as [|attempt rest].
    { by apply (worker_finish_frame _ _ _ _ _ _ _ _ _ _ Hi). }
    assert (Hstep : pool_frame n names self0 w0 p
                      (retry_body (p_self p) name attempt b w).2).
    { destruct Hframe as (Hsem & Hlen & Hrun). split; [done|split; [done|]].
      apply run_frame_retry_body; [by apply Hheld|done]. }
    destruct (retry_body _ _ _ _ _) as [[[last'|b' last']|e] w1]; cbn [snd] in Hstep.
    + by apply (worker_finish_frame _ _ _ _ _ _ _ _ _ _ Hi).
    + destruct Hstep as (Hsem & Hlen & Hrun). pool_fields.
      set (y := WLoop name _ _ _). specialize (Hin y). subst y. cbn [inflight] in Hin.
      unfold pool_frame; pool_fields; split; [lia|split; [by rewrite length_insert|done]].
    + destruct Hstep as (Hsem & Hlen & Hrun). pool_fields.
      specialize (Hin (WFailed e)). cbn [inflight] in Hin.
      unfold pool_frame; pool_fields; split; [lia|split; [by rewrite length_insert|done]].
  - destruct Hframe as (Hsem & Hlen & Hrun). pool_fields.
    specialize (Hin WGet). cbn [inflight] in Hin.
    unfold pool_frame; pool_fields; split; [lia|split; [by rewrite length_insert|done]].
  - done.
  - done.
Qed.

Lemma run_pool_frame n names self0 w0 sched : ∀ p w,
  pool_inv w0 self0 names p w →
  pool_frame n names self0 w0 p w →
  pool_frame n names self0 w0 (run_pool sched p w).1 (run_pool sched p w).2.
Proof.
  induction sched as [|i sched IH]; intros p w Hinv Hframe; [done|].
  cbn [run_pool].
  pose proof (worker_step_inv _ _ _ i _ _ Hinv) as Hinv'.
  pose proof (worker_step_frame _ _ _ _ i _ _ Hinv Hframe) as Hframe'.
  destruct (worker_step i p w) as [p1 w1]. by apply IH.
Qed.

Lemma initial_pool_frame self names w :
  pool_frame (Z.to_nat (concurrency self)) names self w (initial_pool self names) w.
Proof.
  unfold initial_pool. split; [|split]; pool_fields.
  - generalize (Z.to_nat (concurrency self)). intros n.
    assert (sum_list_with inflight (replicate n WGet) = 0%nat) as ->; [|lia].
    induction n as [|m IH]; [done|]. simpl. exact IH.
  - apply length_replicate.
  - apply run_frame_refl.
Qed.


(** What a whole run of [run_check_list] touches, however it ends. *)
Lemma run_check_list_frame self names max_checks resume w :
  let run := run_check_list self names max_checks resume w in
  let sel := selected names max_checks resume w in
  custom_txt run.2 = custom_txt w
  ∧ (sessions run.2 ≤ S (sessions w))%nat
  ∧ (∃ urls, requests run.2 = requests w ++ urls
             ∧ Forall (λ u, u ∈ CHECK_URL_format <$> sel) urls)
  ∧ ∀ e, run.1 = Ok e →
         checked (checker_of e) - checked self
         = Z.of_nat (length (csv_rows run.2)) - Z.of_nat (length (csv_rows w))
         ∧ available (checker_of e) - available self
           = Z.of_nat (available_rows run.2) - Z.of_nat (available_rows w)
         ∧ retries (checker_of e) = retries self
         ∧ delay (checker_of e) = delay self
         ∧ concurrency (checker_of e) = concurrency self.
Proof.
  cbv zeta.
  remember (run_check_list self names max_checks resume w) as run eqn:Hrun.
  unfold run_check_list in Hrun.
  rewrite bind_run, select_names_run in Hrun. cbv beta iota in Hrun.
  set (sel := selected names max_checks resume w) in *.
  cbn [total_to_check set_total_to_check] in Hrun.
  destruct (Z.eqb_spec (Z.of_nat (length sel)) 0) as [Hz|Hnz].
  - subst run. rewrite bind_run. unfold print. cbv beta iota.
    cbn [fst snd mret M_ret].
    split; [done|]. split; [simpl; lia|].
    split; [exists []; by rewrite app_nil_r|].
    intros e [= <-].
    cbn [checker_of set_total_to_check checked available retries delay concurrency].
    unfold available_rows, csv_rows. cbn [log_line results_csv].
    split; [lia|]. split; [lia|done].
  - rewrite bind_run in Hrun. unfold print at 1 in Hrun. cbv beta iota in Hrun.
    rewrite bind_run in Hrun. unfold read_clock at 1 in Hrun. cbv beta iota in Hrun.
    cbn [concurrency set_start_time set_total_to_check] in Hrun.
    set (w1 := tick (log_line _ w)) in Hrun.
    set (self2 := set_start_time _ _) in Hrun.
    assert (Hend : ∀ w2 self' w',
              custom_txt w2 = custom_txt w → sessions w2 = S (sessions w) →
              requests w2 = requests w → results_csv w2 = results_csv w →
              run_frame sel self2 self' w2 w' →
              custom_txt w' = custom_txt w
              ∧ (sessions w' ≤ S (sessions w))%nat
              ∧ (∃ urls, requests w' = requests w ++ urls
                         ∧ Forall (λ u, u ∈ CHECK_URL_format <$> sel) urls)
              ∧ checked self' - checked self
                = Z.of_nat (length (csv_rows w')) - Z.of_nat (length (csv_rows w))
              ∧ available self' - available self
                = Z.of_nat (available_rows w') - Z.of_nat (available_rows w)
              ∧ retries self' = retries self
              ∧ delay self' = delay self
              ∧ concurrency self' = concurrency self).
    { intros w2 self' w' Hcu2 Hse2 Hrq2 Hcsv2 (Hcu & Hse & Hrq & Hch & Hav & Hcfg).
      unfold same_config in Hcfg. destruct Hcfg as (_ & Hre & Hde & Hco & _).
      rewrite (csv_rows_same _ _ Hcsv2) in Hch.
      rewrite (available_rows_same _ _ Hcsv2) in Hav. rewrite Hrq2 in Hrq.
      split; [by rewrite Hcu|]. split; [rewrite Hse, Hse2; lia|].
      split; [exact Hrq|]. split; [exact Hch|]. split; [exact Hav|].
      split; [exact Hre|]. split; [exact Hde|exact Hco]. }
    destruct (Z.eqb_spec (concurrency self) 1) as [Hseq|Hpool].
    + rewrite bind_run in Hrun. unfold open_session at 1 in Hrun.
      cbv beta iota in Hrun.
      set (w2 := World _ _ _ _ _ _ _ _) in Hrun.
      destruct (run_frame_check_all sel self2 w2 sel self2 w2 (λ _ H, H)
                  (run_frame_refl sel self2 w2)) as (self' & Hf & Hret).
      apply Hend in Hf; [|done..]. rewrite bind_run in Hrun.
      destruct (check_all self2 sel w2) as [[self3|e] w3]; subst run;
        cbn [fst snd mret M_ret] in *.
      * destruct Hf as (H1 & H2 & H3 & Hcount).
        split; [done|]. split; [done|]. split; [done|].
        intros e [= <-]. cbn [checker_of]. by rewrite (Hret self3 eq_refl).
      * destruct Hf as (H1 & H2 & H3 & _).
        split; [done|]. split; [done|]. split; [done|]. by intros e'.
    + destruct (concurrency self <? 0).
      { subst run. cbn [fst snd raise lift]. split; [done|]. split; [simpl; lia|].
        split; [exists []; by rewrite app_nil_r|]. by intros e. }
      rewrite bind_run in Hrun. unfold open_session at 1 in Hrun.
      cbv beta iota in Hrun.
      set (w2 := World _ _ _ _ _ _ _ _) in Hrun.
      pose proof (run_pool_frame (Z.to_nat (concurrency self2)) sel self2 w2
                    schedule _ _ (initial_pool_inv self2 sel w2)
                    (initial_pool_frame self2 sel w2)) as (_ & _ & Hf).
      apply Hend in Hf; [|done..].
      destruct (run_pool schedule (initial_pool self2 sel) w2) as [p w3];
        cbn [fst snd] in *.
      destruct Hf as (H1 & H2 & H3 & Hcount).
      case_bool_decide as Hunf; subst run; cbn [fst snd];
        (split; [done|]; split; [done|]; split; [done|]);
        by intros e [= <-].
Qed.



(** X11: when a run ends without an exception, the counters of the
    checker agree with the store: [checked] grew by the number of
    records the run appended, [available] by the number of those whose
    status is ["available"], and [retries], [delay] and [concurrency]
    are as they were. *)
Theorem counters_agree_with_store (self : SteamChecker) (names : list pyobj)
    (max_checks : Z) (resume : bool) (w : world) (e : run_end) :
  let run := run_check_list self names max_checks resume w in
  run.1 = Ok e →
  checked (checker_of e) - checked self
  = Z.of_nat (length (csv_rows run.2)) - Z.of_nat (length (csv_rows w))
  ∧ available (checker_of e) - available self
    = Z.of_nat (available_rows run.2) - Z.of_nat (available_rows w)
  ∧ retries (checker_of e) = retries self
  ∧ delay (checker_of e) = delay self
  ∧ concurrency (checker_of e) = concurrency self.
Proof.
  intros run Hrun.
  destruct (run_check_list_frame self names max_checks resume w) as (_ & _ & _ & Hend).
  by apply Hend.
Qed.

(** *** The semaphore and the queue of a pooled run *)

Lemma inflight_le (ws : list wstate) : (sum_list_with inflight ws ≤ length ws)%nat.
Proof. induction ws as [|x ws IH]; [done|]. destruct x; simpl; lia. Qed.

Lemma inflight_lt (ws : list wstate) i name :
  ws !! i = Some (WSem name) → (sum_list_with inflight ws < length ws)%nat.
Proof.
  intros Hi. rewrite <- (take_drop_middle ws i _ Hi).
  rewrite sum_list_with_app, length_app. simpl.
  pose proof (inflight_le (take i ws)). pose proof (inflight_le (drop (S i) ws)).
  lia.
Qed.

(** X12: in a pooled run, after any schedule, the value of the
    semaphore plus the number of workers inside [async with sem] is the
    concurrency, and there are as many workers; so a worker that
    reaches [async with sem] finds the semaphore free, and its next
    turn takes it into the retry loop: the semaphore never makes a
    worker wait. *)
Theorem semaphore_never_blocks (self : SteamChecker) (names : list str)
    (sched : list nat) (w : world) :
  let run := run_pool sched (initial_pool self names) w in
  (sem run.1 + sum_list_with inflight (workers run.1))%nat = Z.to_nat (concurrency self)
  ∧ length (workers run.1) = Z.to_nat (concurrency self)
  ∧ ∀ i name, workers run.1 !! i = Some (WSem name) →
      (0 < sem run.1)%nat
      ∧ workers (worker_step i run.1 run.2).1 !! i
        = Some (WLoop name (range 1 (retries (p_self run.1) + 2)) backoff0 no_attempt).
Proof.
  intros run.
  pose proof (run_pool_frame (Z.to_nat (concurrency self)) names self w sched _ _
                (initial_pool_inv self names w) (initial_pool_frame self names w))
    as (Hsem & Hlen & _).
  fold run in Hsem, Hlen. split; [exact Hsem|]. split; [exact Hlen|].
  intros i name Hi. pose proof (inflight_lt _ _ _ Hi) as Hlt.
  split; [lia|]. unfold worker_step. rewrite Hi.
  destruct (sem run.1) as [|m]; [lia|]. cbn [fst workers set_worker set_sem].
  apply list_lookup_insert_eq. by eapply lookup_lt_Some.
Qed.

Lemma worker_finish_failed i j name o p w e :
  i ≠ j → workers p !! j = Some (WFailed e) →
  workers (worker_finish i name o p w).1 !! j = Some (WFailed e).
Proof.
  intros Hij Hj. unfold worker_finish. cbv zeta.
  destruct (after_check _ _ _ _) as [[[]|e1] w1].
  - destruct (Qeq_bool _ _).
    + cbn [fst workers set_worker set_sem set_self task_done].
      by rewrite list_lookup_insert_ne.
    + destruct (asyncio_sleep _ _) as [[[]|e2] w2];
        cbn [fst workers set_worker set_sem set_self task_done];
        by rewrite list_lookup_insert_ne.
  - cbn [fst workers set_worker set_sem set_self task_done].
    by rewrite list_lookup_insert_ne.
Qed.

(** A worker that an exception ended stays as it is. *)
Lemma worker_step_failed i j p w e :
  workers p !! j = Some (WFailed e) →
  workers (worker_step i p w).1 !! j = Some (WFailed e).
Proof.
  intros Hj. unfold worker_step.
  destruct (decide (i = j)) as [->|Hij]; [by rewrite Hj|].
  destruct (workers p !! i) as [[|name|name [|attempt rest] b last| | |e1]|]; try done.
  - destruct (queue p) as [|[name|] q]; [done| |];
      cbn [fst workers set_worker set_queue task_done];
      by rewrite list_lookup_insert_ne.
  - destruct (sem p); [done|]. cbn [fst workers set_worker set_sem].
    by rewrite list_lookup_insert_ne.
  - by apply worker_finish_failed.
  - destruct (retry_body _ _ _ _ _) as [[[last'|b' last']|e1] w1].
    + by apply worker_finish_failed.
    + cbn [fst workers set_worker]. by rewrite list_lookup_insert_ne.
    + cbn [fst workers set_worker set_sem]. by rewrite list_lookup_insert_ne.
  - cbn [fst workers set_worker task_done]. by rewrite list_lookup_insert_ne.
Qed.

Lemma run_pool_failed sched j e : ∀ p w,
  workers p !! j = Some (WFailed e) →
  workers (run_pool sched p w).1 !! j = Some (WFailed e).
Proof.
  induction sched as [|i sched IH]; intros p w Hj; [done|].
  cbn [run_pool]. pose proof (worker_step_failed i j p w e Hj) as Hstep.
  destruct (worker_step i p w) as [p1 w1]. by apply IH.
Qed.

(** X13: a worker that an exception ended never marks its item done.
    Once a worker of a pooled run has failed, it stays failed whatever
    the event loop resumes afterwards, and the count of unfinished
    queue items never reaches zero: [await q.join()] does not return. *)
Theorem failed_worker_blocks_join (self : SteamChecker) (names : list str)
    (sched later : list nat) (w : world) (j : nat) (e : pyexc) :
  let run := run_pool sched (initial_pool self names) w in
  workers run.1 !! j = Some (WFailed e) →
  let run' := run_pool later run.1 run.2 in
  workers run'.1 !! j = Some (WFailed e) ∧ unfinished run'.1 ≠ 0%nat.
Proof.
  intros run Hj run'.
  pose proof (run_pool_failed later j e run.1 run.2 Hj) as Hj'. fold run' in Hj'.
  split; [exact Hj'|].
  pose proof (run_pool_inv w self names later _ _
                (run_pool_inv w self names sched _ _ (initial_pool_inv self names w)))
    as (recs & lost & _ & _ & _ & _ & Hunf & _).
  fold run run' in Hunf. rewrite Hunf.
  pose proof (sum_list_with_in _ owes _ (list_elem_of_lookup_2 _ _ _ Hj')) as Howes.
  simpl in Howes. lia.
Qed.


(** *** The entry points *)

Lemma stripped_nonblank_clean l :
  Forall (λ s, s ≠ [] ∧ is_stripped s) (stripped_nonblank l).
Proof.
  apply Forall_forall. intros s [Hne Hs]%list_elem_of_filter.
  apply list_elem_of_fmap in Hs as (x & -> & _). split; [done|apply strip_idem].
Qed.

Lemma words_of_text_clean text :
  Forall (λ s, s ≠ [] ∧ is_stripped s) (words_of_text text).
Proof.
  unfold words_of_text. destruct (json_loads text); [apply stripped_nonblank_clean|done|].
  destruct (Str.contains [10%N] text); [apply stripped_nonblank_clean|].
  destruct (Str.contains [44%N] text); [apply stripped_nonblank_clean|].
  case_bool_decide; [|done]. constructor; [|done]. split; [done|apply strip_idem].
Qed.

(** X14: [fetch_full_wordlist] sends one request, to the word API, and
    touches no file; whichever way the text of the response is parsed
    (a JSON list, lines, comma-separated fields or a single word), no
    word it returns is empty and none has white space around it, and
    the count it prints is the number of words it returns. *)
Theorem fetched_words_clean (w : world) :
  let run := fetch_full_wordlist w in
  requests run.2.2 = requests w ++ [API_URL]
  ∧ results_csv run.2.2 = results_csv w
  ∧ available_txt run.2.2 = available_txt w
  ∧ custom_txt run.2.2 = custom_txt w
  ∧ ∀ words, run.2.1 = Ok words →
             Forall (λ s, s ≠ [] ∧ is_stripped s) words
             ∧ run.1 = [FetchingWordlist; FetchedWords (length words)].
Proof.
  cbv zeta. unfold fetch_full_wordlist, session_get.
  destruct (http_get _ _) as [resp|e]; [|by split_and!].
  destruct (resp_text resp) as [text|e]; [|by split_and!].
  cbn [fst snd]. split_and!; try done.
  intros words [= <-]. split; [apply words_of_text_clean|done].
Qed.

Lemma selected_nil max_checks resume w : selected [] max_checks resume w = [].
Proof.
  unfold selected, sanitize. cbn [omap list_omap fmap list_fmap].
  rewrite !filter_nil. destruct resume, (0 <? max_checks); by rewrite ?take_nil.
Qed.

Lemma run_from_api_run max_checks concurrency delay resume w :
  run_from_api max_checks concurrency delay resume w
  = let w1 := log_request API_URL (open_session w).2 in
    match http_get (length (requests w)) API_URL with
    | GetResponse resp =>
        match resp_text resp with
        | Text text =>
            ([FetchingWordlist; FetchedWords (length (words_of_text text))],
             (e ← run_check_list (SteamChecker_init 12 2 delay concurrency)
                    (PyStr <$> words_of_text text) max_checks resume;
              mret (Some e)) w1)
        | TextRaises (Exc kind) =>
            ([FetchingWordlist; FetchFailed (Exc kind)], (Ok None, w1))
        | TextRaises e => ([FetchingWordlist], (Raise e, w1))
        end
    | GetRaises (Exc kind) =>
        ([FetchingWordlist; FetchFailed (Exc kind)], (Ok None, w1))
    | GetRaises e => ([FetchingWordlist], (Raise e, w1))
    end.
Proof.
  unfold run_from_api, fetch_full_wordlist, session_get, open_session.
  cbn [snd requests]. cbv zeta.
  destruct (http_get _ _) as [resp|[|kind|kind]]; try done.
  by destruct (resp_text resp) as [text|[|kind|kind]].
Qed.

(** X15: when fetching the word list raises an [Exception], in the
    request or while the body is read, [run_from_api] prints the
    failure and returns: nothing is checked and nothing is recorded.
    A cancellation, or another exception that is not an [Exception],
    leaves [run_from_api] instead. *)
Theorem api_fetch_failure_contained (max_checks concurrency : Z) (delay : Q)
    (resume : bool) (w : world) (e : pyexc) :
  raised_in_fetch (http_get (length (requests w)) API_URL) = Some e →
  let run := run_from_api max_checks concurrency delay resume w in
  requests run.2.2 = requests w ++ [API_URL]
  ∧ sessions run.2.2 = S (sessions w)
  ∧ stdout run.2.2 = stdout w
  ∧ results_csv run.2.2 = results_csv w
  ∧ available_txt run.2.2 = available_txt w
  ∧ match e with
    | Exc kind => run.1 = [FetchingWordlist; FetchFailed e] ∧ run.2.1 = Ok None
    | _ => run.1 = [FetchingWordlist] ∧ run.2.1 = Raise e
    end.
Proof.
  intros Hraise run. subst run. rewrite run_from_api_run. cbv zeta.
  unfold raised_in_fetch in Hraise.
  destruct (http_get _ _) as [resp|e1].
  - destruct (resp_text resp) as [text|e1]; [done|]. injection Hraise as ->.
    by destruct e.
  - injection Hraise as ->. by destruct e.
Qed.

(** X16: when the API answers with JSON that is not a list, the word
    list is empty: [run_from_api] reports 0 words fetched, and the run
    prints that there is nothing to check and returns, without a
    session for the checks, a check request or a record. *)
Theorem api_json_not_a_list (max_checks concurrency : Z) (delay : Q)
    (resume : bool) (w : world) (resp : response) (text : str) :
  http_get (length (requests w)) API_URL = GetResponse resp →
  resp_text resp = Text text →
  json_loads text = JsonOther →
  let run := run_from_api max_checks concurrency delay resume w in
  run.1 = [FetchingWordlist; FetchedWords 0]
  ∧ run.2.1 = Ok (Some (Returned
                 (set_total_to_check (SteamChecker_init 12 2 delay concurrency) 0)))
  ∧ stdout run.2.2 = stdout w ++ [NoNamesToCheck]
  ∧ requests run.2.2 = requests w ++ [API_URL]
  ∧ sessions run.2.2 = S (sessions w)
  ∧ results_csv run.2.2 = results_csv w
  ∧ available_txt run.2.2 = available_txt w.
Proof.
  intros Hget Htext Hjson run. subst run. rewrite run_from_api_run. cbv zeta.
  rewrite Hget, Htext. unfold words_of_text. rewrite Hjson.
  rewrite bind_run. unfold run_check_list.
  rewrite bind_run, select_names_run. change (PyStr <$> []) with (@nil pyobj).
  rewrite selected_nil. by cbv beta iota.
Qed.

(** *** [ensure_files] and [main_menu] *)

(** X17: [ensure_files] never truncates: a file that exists keeps its
    content, also a [results.csv] without the header row; a missing
    [results.csv] gets the header row, the other two files are created
    empty; nothing else changes, and calling it again changes
    nothing. *)
Theorem ensure_files_keeps_files (w : world) :
  ensure_files (ensure_files w) = ensure_files w
  ∧ results_csv (ensure_files w) = Some (default [HEADER] (results_csv w))
  ∧ available_txt (ensure_files w) = Some (default [] (available_txt w))
  ∧ custom_txt (ensure_files w) = Some (default [] (custom_txt w))
  ∧ stdout (ensure_files w) = stdout w
  ∧ requests (ensure_files w) = requests w
  ∧ sessions (ensure_files w) = sessions w.
Proof. destruct w as [[rows|] ? ? ? ? ? ? ?]; by split_and!. Qed.

Lemma blank_lines_filter (lines : list str) :
  Forall (λ ln, Str.strip ln = []) lines →
  filter (λ ln : str, ln ≠ []) (Str.strip <$> lines) = [].
Proof.
  induction 1 as [|ln lines Hln _ IH]; [done|].
  rewrite fmap_cons, filter_cons_False; [exact IH|]. by rewrite Hln; intros [].
Qed.

Lemma custom_txt_ensure_files w :
  custom_txt (ensure_files w) = Some (default [] (custom_txt w)).
Proof. by destruct w as [[rows|] ? ? ? ? ? ? ?]. Qed.

(** X18: through the menu, option 1 never reaches the "Created
    Custom.txt" branch of [run_from_custom_file]: [ensure_files] has
    created the file by then.  In a directory without [Custom.txt], or
    with one of blank lines only, the menu prints that there are no
    names in [Custom.txt] and returns, and the file exists
    afterwards. *)
Theorem menu_never_creates_custom (s : str) (w : world) :
  Str.strip s = lit "1" →
  custom_txt w = None
  ∨ (∃ lines, custom_txt w = Some lines ∧ Forall (λ ln, Str.strip ln = []) lines) →
  main_menu (Line s) w
  = (menu_lines, (Ok None, log_line NoNamesInCustom (ensure_files w)))
  ∧ custom_txt (log_line NoNamesInCustom (ensure_files w))
    = Some (default [] (custom_txt w)).
Proof.
  intros Hs Hcustom. split; [|apply custom_txt_ensure_files].
  unfold main_menu. cbv zeta. rewrite Hs, bool_decide_eq_true_2 by done.
  fold menu_lines. f_equal. unfold run_from_custom_file.
  rewrite custom_txt_ensure_files. cbv zeta.
  set (raw := filter _ (Str.strip <$> default [] (custom_txt w))).
  assert (raw = []) as ->; [|done]. subst raw.
  destruct Hcustom as [->|(lines & -> & Hall)]; [done|].
  by apply blank_lines_filter.
Qed.

Lemma sequential_run_returns self names max_checks resume w e :
  concurrency self = 1 →
  (run_check_list self names max_checks resume w).1 = Ok e →
  ∃ self', e = Returned self'.
Proof.
  intros Hseq. unfold run_check_list.
  rewrite bind_run, select_names_run. cbv beta iota.
  cbn [total_to_check set_total_to_check].
  destruct (_ =? 0).
  - rewrite bind_run. unfold print. cbv beta iota. intros [= <-]. by eexists.
  - rewrite bind_run. unfold print at 1. cbv beta iota.
    rewrite bind_run. unfold read_clock at 1. cbv beta iota.
    cbn [concurrency set_start_time set_total_to_check]. rewrite Hseq.
    change (1 =? 1) with true. cbv iota.
    rewrite bind_run. unfold open_session at 1. cbv beta iota.
    rewrite bind_run. destruct (check_all _ _ _) as [[self'|e'] w'].
    + intros [= <-]. by eexists.
    + done.
Qed.

Lemma menu_checker_run names w e :
  ((e ← run_check_list (SteamChecker_init 12 2 0 1) names 0 true;
    mret (Some e)) w).1 = Ok (Some e) →
  ∃ self', e = Returned self' ∧ concurrency self' = 1 ∧ retries self' = 2
           ∧ delay self' = 0%Q.
Proof.
  rewrite bind_run.
  destruct (run_check_list (SteamChecker_init 12 2 0 1) names 0 true w)
    as [[e0|e0] w'] eqn:Hrun; [|done].
  intros [= ->].
  assert (Hok : (run_check_list (SteamChecker_init 12 2 0 1) names 0 true w).1 = Ok e)
    by (by rewrite Hrun).
  destruct (sequential_run_returns (SteamChecker_init 12 2 0 1) names 0 true w e
              eq_refl Hok) as [self' ->].
  destruct (run_check_list_frame (SteamChecker_init 12 2 0 1) names 0 true w)
    as (_ & _ & _ & Hend).
  destruct (Hend _ Hok) as (_ & _ & Hre & Hde & Hco).
  exists self'. by split_and!.
Qed.

(** X19: the menu always runs sequentially.  Whatever is typed and
    whatever the network does, a run started from [main_menu] that ends
    without an exception has returned from the sequential loop, with
    the fixed defaults [concurrency = 1], [retries = 2] and no delay:
    the worker pool is never used from the menu. *)
Theorem menu_runs_sequentially (answer : typed) (w : world) (e : run_end) :
  (main_menu answer w).2.1 = Ok (Some e) →
  ∃ self', e = Returned self' ∧ concurrency self' = 1 ∧ retries self' = 2
           ∧ delay self' = 0%Q.
Proof.
  unfold main_menu. cbv zeta. destruct answer as [s| |]; [|done|done].
  case_bool_decide as H1.
  - cbn [snd]. unfold run_from_custom_file. rewrite custom_txt_ensure_files.
    cbv zeta. destruct (filter _ _) as [|n raw]; [done|].
    apply menu_checker_run.
  - case_bool_decide as H2; [|done].
    rewrite run_from_api_run. cbv zeta.
    destruct (http_get _ _) as [resp|[|kind|kind]]; try done.
    destruct (resp_text resp) as [text|[|kind|kind]]; try done.
    cbn [snd]. apply menu_checker_run.
Qed.


(** *** Progress of a pooled run *)

Lemma worker_finish_turn i name o p w :
  ∃ y, workers (worker_finish i name o p w).1 = <[i:=y]> (workers p)
       ∧ queue (worker_finish i name o p w).1 = queue p
       ∧ (y = WGet ∨ y = WDelay ∨ ∃ e, y = WFailed e).
Proof.
  unfold worker_finish. cbv zeta.
  destruct (after_check _ _ _ _) as [[[]|e1] w1].
  - destruct (Qeq_bool _ _).
    + exists WGet. split; [done|]. split; [done|]. by left.
    + destruct (asyncio_sleep _ _) as [[[]|e2] w2].
      * exists WDelay. split; [done|]. split; [done|]. right. by left.
      * exists (WFailed e2). split; [done|]. split; [done|]. right. right. by exists e2.
  - exists (WFailed e1). split; [done|]. split; [done|]. right. right. by exists e1.
Qed.

(** One turn of a worker changes its own state only. *)
Lemma worker_step_turn i p w x :
  workers p !! i = Some x →
  ∃ y, workers (worker_step i p w).1 = <[i:=y]> (workers p)
       ∧ turn p x y (queue (worker_step i p w).1).
Proof.
  intros Hi. unfold worker_step. rewrite Hi.
  assert (Hid : workers p = <[i:=x]> (workers p)) by (by rewrite list_insert_id).
  destruct x as [|name|name [|attempt rest] b last| | |e]; cbn [turn].
  - destruct (queue p) as [|[name|] q] eqn:Hq; cbn [fst queue workers set_worker
      set_queue task_done].
    + exists WGet. split; [done|]. by left.
    + exists (WSem name). split; [done|]. right. left. by exists name.
    + exists WReturned. split; [done|]. right. by right.
  - destruct (sem p) as [|m] eqn:Hs; cbn [fst queue workers set_worker set_sem].
    + exists (WSem name). split; [done|]. split; [done|]. by left.
    + eexists. split; [done|]. split; [done|]. right. split; [lia|done].
  - destruct (worker_finish_turn i name last p w) as (y & Hw & Hq & Hy).
    exists y. split; [done|]. split; [done|].
    destruct Hy as [->|[->|[e ->]]]; [by left|right; by left|right; right; left; by exists e].
  - destruct (retry_body _ _ _ _ _) as [[[last'|b' last']|e] w1].
    + destruct (worker_finish_turn i name last' p w1) as (y & Hw & Hq & Hy).
      exists y. split; [done|]. split; [done|].
      destruct Hy as [->|[->|[e ->]]]; [by left|right; by left|right; right; left; by exists e].
    + eexists. split; [done|]. split; [done|]. right. right. right.
      by exists attempt, rest, b', last'.
    + exists (WFailed e). split; [done|]. split; [done|]. right. right. left. by exists e.
  - exists WGet. split; [done|]. by split.
  - exists WReturned. split; [done|]. by split.
  - exists (WFailed e). split; [done|]. by split.
Qed.

Lemma indicator_le (f : wstate → nat) (ws : list wstate) :
  (∀ x, f x ≤ 1)%nat → (sum_list_with f ws ≤ length ws)%nat.
Proof.
  intros Hf. induction ws as [|x ws IH]; [done|].
  simpl. specialize (Hf x). lia.
Qed.

Lemma indicator_lt (f : wstate → nat) (ws : list wstate) i x :
  (∀ x, f x ≤ 1)%nat → ws !! i = Some x → f x = 0%nat →
  (sum_list_with f ws < length ws)%nat.
Proof.
  intros Hf Hi Hx. rewrite <- (take_drop_middle ws i _ Hi).
  rewrite sum_list_with_app, length_app. simpl. rewrite Hx.
  pose proof (indicator_le f (take i ws) Hf).
  pose proof (indicator_le f (drop (S i) ws) Hf). lia.
Qed.

Lemma returned_le x : (returned x ≤ 1)%nat.
Proof. destruct x; simpl; lia. Qed.

Lemma queue_inv_step n i p w :
  queue_inv n p → queue_inv n (worker_step i p w).1.
Proof.
  intros (rest & k & Hq & Hk & Hrest).
  destruct (workers p !! i) as [x|] eqn:Hi;
    [|unfold worker_step; rewrite Hi; by exists rest, k].
  destruct (worker_step_turn i p w x Hi) as (y & Hw & Hturn).
  pose proof (insert_sum returned (workers p) i x y Hi) as Hsum.
  unfold queue_inv. rewrite Hw.
  destruct x as [|name|name attempts b last| | |e]; cbn [turn returned] in Hturn, Hsum.
  - destruct Hturn as [(Hq0 & -> & Hq')|[(name & Hq0 & ->)|(Hq0 & ->)]];
      cbn [returned] in Hsum.
    + exists rest, k. rewrite Hq', <- Hq0. split; [done|]. split; [lia|].
      destruct Hrest; [by left|right; lia].
    + rewrite Hq in Hq0. destruct rest as [|name' rest']; simpl in Hq0.
      { destruct k; simplify_eq/=. }
      injection Hq0 as -> Hq'. exists rest', k. split; [done|]. split; [lia|].
      destruct Hrest as [?|Hz]; [done|right; lia].
    + rewrite Hq in Hq0. destruct rest as [|name' rest']; [|done]. simpl in Hq0.
      destruct k as [|k']; [done|]. injection Hq0 as Hq'.
      exists [], k'. split; [done|]. split; [lia|by left].
  - destruct Hturn as [-> [[_ ->]|[_ ->]]]; cbn [returned] in Hsum;
      exists rest, k; (split; [done|]); (split; [lia|]);
      (destruct Hrest; [by left|right; lia]).
  - destruct Hturn as [-> [->|[->|[[e ->]|(a & rest' & b' & last' & _ & ->)]]]];
      cbn [returned] in Hsum;
      exists rest, k; (split; [done|]); (split; [lia|]);
      (destruct Hrest; [by left|right; lia]).
  - destruct Hturn as [-> ->]. cbn [returned] in Hsum.
    exists rest, k. split; [done|]. split; [lia|].
    destruct Hrest; [by left|right; lia].
  - destruct Hturn as [-> ->]. cbn [returned] in Hsum.
    exists rest, k. split; [done|]. split; [lia|].
    destruct Hrest; [by left|right; lia].
  - destruct Hturn as [-> ->]. cbn [returned] in Hsum.
    exists rest, k. split; [done|]. split; [lia|].
    destruct Hrest; [by left|right; lia].
Qed.


Lemma inflight_le1 x : (inflight x ≤ 1)%nat.
Proof. destruct x; simpl; lia. Qed.

(** A turn never adds work, and the turn of a worker that has not
    ended removes some. *)
Lemma todo_step n r names self0 w0 i p w :
  r = length (range 1 (retries self0 + 2)) →
  pool_frame n names self0 w0 p w → queue_inv n p →
  (todo r (worker_step i p w).1 ≤ todo r p)%nat
  ∧ ∀ x, workers p !! i = Some x → settled x = false →
         (todo r (worker_step i p w).1 < todo r p)%nat.
Proof.
  intros Hr (Hsem & Hlen & Hrun) (rest & k & Hq & Hk & Hrest).
  destruct (workers p !! i) as [x|] eqn:Hi;
    [|unfold worker_step; rewrite Hi; split; [done|by intros x [=]]].
  destruct (worker_step_turn i p w x Hi) as (y & Hw & Hturn).
  pose proof (insert_sum (work r) (workers p) i x y Hi) as Hsum.
  assert (Hretries : retries (p_self p) = retries self0).
  { destruct Hrun as (_ & _ & _ & _ & _ & Hcfg). unfold same_config in Hcfg.
    by destruct Hcfg as (_ & Hre & _). }
  assert (Hgoal : (todo r (worker_step i p w).1 < todo r p)%nat
                  ∨ (settled x = true ∧ todo r (worker_step i p w).1 = todo r p)).
  { unfold todo. rewrite Hw.
    destruct x as [|name|name attempts b last| | |e]; cbn [turn work settled] in *.
    - left. destruct Hturn as [(Hq0 & -> & Hq')|[(name & Hq0 & ->)|(Hq0 & ->)]];
        cbn [work] in Hsum.
      + exfalso. rewrite Hq0 in Hq. symmetry in Hq.
        apply app_eq_nil in Hq as [_ Hk0].
        destruct k as [|k']; [|done].
        pose proof (indicator_lt returned (workers p) i WGet returned_le Hi eq_refl).
        lia.
      + rewrite Hq0. cbn [sum_list_with item_cost]. lia.
      + rewrite Hq0. cbn [sum_list_with item_cost]. lia.
    - left. destruct Hturn as [-> [[Hs _]|[_ ->]]].
      + exfalso.
        pose proof (indicator_lt inflight (workers p) i (WSem name) inflight_le1 Hi eq_refl).
        lia.
      + cbn [work] in Hsum. rewrite Hretries in Hsum |- *.
        rewrite <- Hr in Hsum. lia.
    - left.
      destruct Hturn as [-> [->|[->|[[e ->]|(a & rest' & b' & last' & -> & ->)]]]];
        cbn [work length] in Hsum; lia.
    - left. destruct Hturn as [-> ->]. cbn [work] in Hsum. lia.
    - right. destruct Hturn as [-> ->]. split; [done|]. cbn [work] in Hsum. lia.
    - right. destruct Hturn as [-> ->]. split; [done|]. cbn [work] in Hsum. lia. }
  split.
  - destruct Hgoal as [?|[_ ?]]; lia.
  - intros x' [= <-] Hx. destruct Hgoal as [?|[? _]]; [done|congruence].
Qed.

Lemma pool_live_step n names self0 w0 i p w :
  pool_live n names self0 w0 p w →
  pool_live n names self0 w0 (worker_step i p w).1 (worker_step i p w).2.
Proof.
  intros (Hinv & Hframe & Hqueue). split; [by apply worker_step_inv|].
  split; [by apply worker_step_frame|by apply queue_inv_step].
Qed.

Lemma initial_pool_live self names w :
  pool_live (Z.to_nat (concurrency self)) names self w (initial_pool self names) w.
Proof.
  split; [apply initial_pool_inv|]. split; [apply initial_pool_frame|].
  exists names, (Z.to_nat (concurrency self)). unfold initial_pool.
  cbn [queue workers]. split; [done|].
  assert (Hz : ∀ m, sum_list_with returned (replicate m WGet) = 0%nat).
  { intros m. induction m as [|m IH]; [done|]. simpl. exact IH. }
  rewrite Hz. split; [lia|by right].
Qed.

Lemma worker_step_other i j p w :
  i ≠ j → workers (worker_step i p w).1 !! j = workers p !! j.
Proof.
  intros Hij. destruct (workers p !! i) as [x|] eqn:Hi;
    [|unfold worker_step; by rewrite Hi].
  destruct (worker_step_turn i p w x Hi) as (y & -> & _).
  by apply list_lookup_insert_ne.
Qed.

Lemma run_pool_app l1 : ∀ l2 p w,
  run_pool (l1 ++ l2) p w = run_pool l2 (run_pool l1 p w).1 (run_pool l1 p w).2.
Proof.
  induction l1 as [|i l1 IH]; intros l2 p w; [done|].
  cbn [app run_pool]. destruct (worker_step i p w) as [p1 w1]. apply IH.
Qed.

(** Over a stretch of the schedule the work never grows, and it
    shrinks when a worker that has not ended gets a turn. *)
Lemma todo_stretch n r names self0 w0 l : ∀ p w,
  r = length (range 1 (retries self0 + 2)) →
  pool_live n names self0 w0 p w →
  pool_live n names self0 w0 (run_pool l p w).1 (run_pool l p w).2
  ∧ (todo r (run_pool l p w).1 ≤ todo r p)%nat
  ∧ ∀ i x, i ∈ l → workers p !! i = Some x → settled x = false →
           (todo r (run_pool l p w).1 < todo r p)%nat.
Proof.
  induction l as [|j l IH]; intros p w Hr Hlive.
  - split; [done|]. split; [done|]. by intros i x Hi%elem_of_nil.
  - cbn [run_pool].
    pose proof (pool_live_step n names self0 w0 j p w Hlive) as Hlive'.
    destruct Hlive as (_ & Hframe & Hqueue).
    destruct (todo_step n r names self0 w0 j p w Hr Hframe Hqueue) as [Hle Hlt].
    pose proof (λ i, worker_step_other j i p w) as Hother.
    destruct (worker_step j p w) as [p1 w1]. cbn [fst snd] in *.
    destruct (IH p1 w1 Hr Hlive') as (Hlive'' & Hle' & Hlt').
    split; [done|]. split; [lia|].
    intros i x Hi Hx Hunsettled.
    destruct (decide (j = i)) as [->|Hji].
    + specialize (Hlt x Hx Hunsettled). lia.
    + apply elem_of_cons in Hi as [->|Hi]; [done|].
      assert (Hx' : workers p1 !! i = Some x) by (by rewrite (Hother i Hji)).
      specialize (Hlt' i x Hi Hx' Hunsettled). lia.
Qed.

(** Once every worker has ended, nothing changes any more. *)
Lemma settled_stay l : ∀ p w,
  Forall (λ x, settled x = true) (workers p) → run_pool l p w = (p, w).
Proof.
  induction l as [|i l IH]; intros p w Hall; [done|].
  cbn [run_pool].
  assert (Hstep : worker_step i p w = (p, w)).
  { unfold worker_step. destruct (workers p !! i) as [x|] eqn:Hi; [|done].
    rewrite Forall_forall in Hall.
    specialize (Hall x (list_elem_of_lookup_2 _ _ _ Hi)).
    by destruct x. }
  rewrite Hstep. by apply IH.
Qed.

Lemma settled_or_not (ws : list wstate) :
  Forall (λ x, settled x = true) ws
  ∨ ∃ i x, ws !! i = Some x ∧ settled x = false.
Proof.
  induction ws as [|x ws [IH|(i & y & Hi & Hy)]].
  - left. constructor.
  - destruct (settled x) eqn:Hx.
    + left. by constructor.
    + right. by exists 0%nat, x.
  - right. by exists (S i), y.
Qed.

(** After as many fair stretches as there is work, every worker has
    ended. *)
Lemma todo_stretches n r names self0 w0 blocks : ∀ p w,
  r = length (range 1 (retries self0 + 2)) →
  pool_live n names self0 w0 p w →
  Forall (fair n) blocks →
  Forall (λ x, settled x = true) (workers (run_pool (concat blocks) p w).1)
  ∨ (todo r (run_pool (concat blocks) p w).1 + length blocks ≤ todo r p)%nat.
Proof.
  induction blocks as [|b bs IH]; intros p w Hr Hlive Hfair.
  - right. simpl. lia.
  - apply Forall_cons in Hfair as [Hb Hbs]. cbn [concat]. rewrite run_pool_app.
    destruct (settled_or_not (workers p)) as [Hall|(i & x & Hi & Hx)].
    + left. rewrite (settled_stay b p w Hall). cbn [fst snd].
      by rewrite (settled_stay _ p w Hall).
    + destruct (todo_stretch n r names self0 w0 b p w Hr Hlive) as (Hlive' & _ & Hlt).
      assert (Hin : i ∈ b).
      { apply Hb. destruct Hlive as (_ & (_ & Hlen & _) & _).
        rewrite <- Hlen. by eapply lookup_lt_Some. }
      specialize (Hlt i x Hin Hi Hx).
      destruct (IH _ _ Hr Hlive' Hbs) as [Hall|Hle]; [by left|right].
      simpl. lia.
Qed.

Lemma settled_returned_or_failed (ws : list wstate) :
  Forall (λ x, settled x = true) ws →
  (∃ j e, ws !! j = Some (WFailed e))
  ∨ (sum_list_with returned ws = length ws ∧ sum_list_with owes ws = 0%nat).
Proof.
  induction 1 as [|x ws Hx _ [(j & e & Hj)|[IH1 IH2]]].
  - by right.
  - left. by exists (S j), e.
  - destruct x as [| | | | |e]; try done.
    + right. simpl. split; [by rewrite IH1|done].
    + left. by exists 0%nat, e.
Qed.

Lemma todo_initial r self names :
  todo r (initial_pool self names)
  = (length names * (r + 4) + Z.to_nat (concurrency self))%nat.
Proof.
  unfold todo, initial_pool. cbn [queue workers].
  generalize (Z.to_nat (concurrency self)). intros n.
  rewrite sum_list_with_app.
  assert (H1 : sum_list_with (item_cost r) (Some <$> names) = (length names * (r + 4))%nat).
  { induction names as [|x l IH]; [done|].
    rewrite fmap_cons. cbn [sum_list_with item_cost length]. rewrite IH. lia. }
  assert (H2 : ∀ m, sum_list_with (item_cost r) (replicate m None) = m).
  { intros m. induction m as [|m IH]; [done|].
    cbn [replicate sum_list_with item_cost]. rewrite IH. lia. }
  assert (H3 : ∀ m, sum_list_with (work r) (replicate m WGet) = 0%nat).
  { intros m. induction m as [|m IH]; [done|]. simpl. exact IH. }
  rewrite H1, H2, H3. lia.
Qed.

(** X20: a pooled run comes to an end.  When the event loop gives every
    worker a turn in each of more stretches than
    [names * (attempts + 4) + workers], every worker has ended, by its
    stop sentinel or by an exception; and unless a worker failed,
    every queue item is marked done, so that [await q.join()]
    returns. *)
Theorem pool_finishes_or_fails (self : SteamChecker) (names : list str)
    (blocks : list (list nat)) (w : world) :
  1 ≤ concurrency self →
  let n := Z.to_nat (concurrency self) in
  let r := Z.to_nat (retries self + 1) in
  Forall (fair n) blocks →
  (length names * (r + 4) + n < length blocks)%nat →
  let run := run_pool (concat blocks) (initial_pool self names) w in
  Forall (λ x, settled x = true) (workers run.1)
  ∧ (unfinished run.1 = 0%nat ∨ ∃ j e, workers run.1 !! j = Some (WFailed e)).
Proof.
  intros Hc n r Hfair Hlong run.
  assert (Hr : r = length (range 1 (retries self + 2))).
  { rewrite range_length. subst r. f_equal. lia. }
  pose proof (initial_pool_live self names w) as Hlive. fold n in Hlive.
  destruct (todo_stretch n r names self w (concat blocks) _ _ Hr Hlive)
    as ((Hinv & (_ & Hlen & _) & Hqueue) & _ & _).
  fold run in Hinv, Hlen, Hqueue.
  assert (Hall : Forall (λ x, settled x = true) (workers run.1)).
  { destruct (todo_stretches n r names self w blocks _ _ Hr Hlive Hfair) as [Hall|Hle];
      [done|].
    rewrite todo_initial in Hle. fold n in Hle. lia. }
  split; [exact Hall|].
  destruct (settled_returned_or_failed _ Hall) as [Hfailed|[Hret Howes]]; [by right|left].
  destruct Hinv as (recs & lost & _ & _ & _ & _ & Hunf & _).
  destruct Hqueue as (rest & k & Hq & Hk & Hrest).
  rewrite Hunf, Howes, Hq.
  assert (k = 0%nat) as -> by lia.
  destruct Hrest as [->|Hz]; [done|]. lia.
Qed.


(** *** Running again *)






End Program.

(** ** The theorems at concrete inputs *)

(** C1 on a network that redirects every name to a profile-by-id page
    whose body says the profile could not be found. *)
Lemma redirect_to_profiles_first_witness :
  let self := SteamChecker_init 12 2 0 1 in
  let name := lit "abc" in
  let w := Sample.empty_world in
  let taken := Outcome Taken (Some 200) (lit "redirect_to_profiles") in
  Str.contains (lit "could not be found")
    (Sample.lower (lit "The specified profile could not be found.")) = true
  ∧ (_check_once Sample.lower Sample.net_redirect name w).1 = Ok taken
  ∧ (_check_with_retries Sample.lower Sample.net_redirect Sample.never_cancelled
       self name w).1 = Ok taken.
Proof.
  intros self name w taken. split; [reflexivity|].
  destruct (redirect_to_profiles_first Sample.lower Sample.net_redirect
              Sample.never_cancelled self name
              {| resp_url := lit "https://steamcommunity.com/profiles/76561198000000000/";
                 resp_status := 200;
                 resp_text := Text (lit "The specified profile could not be found.") |}
              w eq_refl eq_refl) as [H1 H2].
  split; [exact H1|]. apply H2. vm_compute. discriminate.
Defined.






(** C5, as amended, on the scenario of the spec, from an empty store. *)
Lemma resume_never_rechecks_witness :
  let names := [PyStr (lit "ab"); PyStr (lit "abc"); PyStr (lit "a1b2c3d4")] in
  let w := Sample.empty_world in
  let run := run_check_list Sample.lower Sample.net_scenario Sample.time_time
               Sample.local_stamp Sample.hms Sample.never_cancelled []
               (SteamChecker_init 12 2 0 1) names 0 true w in
  store_ok (results_csv w)
  ∧ store_ok (results_csv run.2)
  ∧ recorded_usernames (results_csv run.2)
    = selected Sample.lower names 0 true w
  ∧ NoDup (recorded_usernames (results_csv run.2)).
Proof.
  intros names w run.
  assert (Hok : store_ok (results_csv w)) by (by exists []).
  destruct (resume_never_rechecks Sample.lower Sample.net_scenario Sample.time_time
              Sample.local_stamp Sample.hms Sample.never_cancelled []
              (SteamChecker_init 12 2 0 1) names 0 w Hok)
    as (_ & Hok' & new & Hafter & _ & Hret).
  assert (Hreturned : ∃ self', run.1 = Ok (Returned self'))
    by (eexists; vm_compute; reflexivity).
  destruct Hreturned as [self' Hself'].
  destruct (Hret self' Hself') as (_ & _ & Hseq & Hnodup).
  split; [exact Hok|]. split; [exact Hok'|]. split.
  - etrans; [exact Hafter|]. rewrite (Hseq eq_refl). reflexivity.
  - apply Hnodup; [constructor|].
    apply (bool_decide_unpack _). vm_compute. exact I.
Defined.

(** C5 as stated fails: a name that occurs twice in the input of one
    run is checked twice and recorded twice, also under resume and from
    an empty store. *)
Lemma duplicate_input_checked_twice :
  let names := [PyStr (lit "abc"); PyStr (lit "abc")] in
  let w := Sample.empty_world in
  let run := run_check_list Sample.lower Sample.net_redirect Sample.time_time
               Sample.local_stamp Sample.hms Sample.never_cancelled []
               (SteamChecker_init 12 2 0 1) names 0 true w in
  store_ok (results_csv w)
  ∧ recorded_usernames (results_csv w) = []
  ∧ (∃ self', run.1 = Ok (Returned self'))
  ∧ requests run.2 = [CHECK_URL_format (lit "abc"); CHECK_URL_format (lit "abc")]
  ∧ recorded_usernames (results_csv run.2) = [lit "abc"; lit "abc"]
  ∧ ¬ NoDup (recorded_usernames (results_csv run.2)).
Proof.
  cbv zeta. split; [by exists []|]. split; [reflexivity|].
  split; [eexists; vm_compute; reflexivity|].
  split; [vm_compute; reflexivity|].
  assert (Hafter : recorded_usernames
            (results_csv
               (run_check_list Sample.lower Sample.net_redirect Sample.time_time
                  Sample.local_stamp Sample.hms Sample.never_cancelled []
                  (SteamChecker_init 12 2 0 1)
                  [PyStr (lit "abc"); PyStr (lit "abc")] 0 true
                  Sample.empty_world).2) = [lit "abc"; lit "abc"])
    by (vm_compute; reflexivity).
  split; [exact Hafter|]. rewrite Hafter.
  intros Hnd. apply NoDup_cons in Hnd as [Hnotin _]. apply Hnotin. by left.
Qed.

(** C6 on a pool of two workers that the event loop resumes in turn,
    until both have taken their stop sentinel: two checks resolve, one
    taken and one available, and their two records are appended. *)
Lemma dispatcher_appends_one_record_witness :
  let self := set_start_time (SteamChecker_init 12 2 0 2) 0 in
  let names := [lit "abc"; lit "a1b2c3d4"] in
  let sched := [0; 1; 0; 1; 0; 1; 0; 1]%nat in
  let w := Sample.empty_world in
  let run := run_pool Sample.lower Sample.net_scenario Sample.time_time
               Sample.local_stamp Sample.hms Sample.never_cancelled sched
               (initial_pool self names) w in
  let done := pool_resolved Sample.lower Sample.net_scenario Sample.time_time
                Sample.local_stamp Sample.hms Sample.never_cancelled sched
                (initial_pool self names) w in
  unfinished run.1 = 0%nat
  ∧ done = [(lit "abc", Outcome Taken (Some 200) (lit "redirect_to_profiles"));
            (lit "a1b2c3d4", Outcome Available (Some 200) (lit "not_found_text"))]
  ∧ available_text run.2 = lit "a1b2c3d4" ++ [10%N]
  ∧ done.*1 ≡ₚ names
  ∧ ∃ recs, Forall2 record_for done recs ∧ appended w run.2 recs.
Proof.
  intros self names sched w run done.
  destruct (dispatcher_appends_one_record Sample.lower Sample.net_scenario
              Sample.time_time Sample.local_stamp Sample.hms Sample.never_cancelled)
    as (_ & _ & _ & _ & Hturns & Hpool).
  destruct (Hpool self names sched w) as (_ & _ & Hdone).
  assert (Hunf : unfinished run.1 = 0%nat) by (vm_compute; reflexivity).
  split; [exact Hunf|]. split; [vm_compute; reflexivity|].
  split; [vm_compute; reflexivity|]. split; [exact (Hdone Hunf)|].
  exact (Hturns sched (initial_pool self names) w).
Defined.

(** C8 on an input that sanitizing empties. *)
Lemma nothing_to_check_returns_witness :
  let self := SteamChecker_init 12 2 0 1 in
  let names := [PyStr (lit "ab"); PyStr (lit "?!"); PyStr (lit "abc")] in
  let w := Sample.recorded_world in
  let run := run_check_list Sample.lower Sample.net_down Sample.time_time
               Sample.local_stamp Sample.hms Sample.never_cancelled []
               self names 0 true w in
  selected Sample.lower names 0 true w = []
  ∧ run.1 = Ok (Returned (set_total_to_check self 0))
  ∧ stdout run.2 = [NoNamesToCheck]
  ∧ sessions run.2 = 0%nat
  ∧ requests run.2 = [].
Proof.
  intros self names w run.
  assert (Hsel : selected Sample.lower names 0 true w = []) by (vm_compute; reflexivity).
  destruct (nothing_to_check_returns Sample.lower Sample.net_down Sample.time_time
              Sample.local_stamp Sample.hms Sample.never_cancelled []
              self names 0 true w Hsel) as (H1 & H2 & H3 & H4 & _).
  split; [exact Hsel|]. split; [exact H1|]. split; [exact H2|].
  split; [exact H3|exact H4].
Defined.

(** C9 without [Custom.txt], and with a [Custom.txt] of blank lines. *)
Lemma custom_file_missing_or_empty_witness :
  let run w := run_from_custom_file Sample.lower Sample.net_down Sample.time_time
                 Sample.local_stamp Sample.hms Sample.never_cancelled []
                 0 1 0 true w in
  (custom_txt Sample.no_custom_world = None
   ∧ run Sample.no_custom_world
     = (Ok None, log_line CreatedCustom (set_custom (Some []) Sample.no_custom_world)))
  ∧ (Forall (λ ln, Str.strip ln = []) [[10%N]; lit "   " ++ [10%N]]
     ∧ run Sample.blank_custom_world
       = (Ok None, log_line NoNamesInCustom Sample.blank_custom_world))
  ∧ requests (run Sample.no_custom_world).2 = []
  ∧ sessions (run Sample.blank_custom_world).2 = 0%nat.
Proof.
  intros run.
  destruct (custom_file_missing_or_empty Sample.lower Sample.net_down Sample.time_time
              Sample.local_stamp Sample.hms Sample.never_cancelled []
              0 1 0 true Sample.no_custom_world) as (Hmissing & _ & Hquiet).
  destruct (custom_file_missing_or_empty Sample.lower Sample.net_down Sample.time_time
              Sample.local_stamp Sample.hms Sample.never_cancelled []
              0 1 0 true Sample.blank_custom_world) as (_ & Hblank & Hquiet').
  assert (Hall : Forall (λ ln, Str.strip ln = []) [[10%N]; lit "   " ++ [10%N]])
    by (repeat constructor).
  split; [split; [reflexivity|exact (proj1 (Hmissing eq_refl))]|].
  split; [split; [exact Hall|exact (Hblank _ eq_refl Hall)]|].
  split.
  - exact (proj1 (proj2 (Hquiet (or_introl eq_refl)))).
  - exact (proj1 (proj2 (proj2 (Hquiet' (or_intror (ex_intro _ _ (conj eq_refl Hall))))))).
Defined.

(** C7 fails on the code: one name of three checked, ten seconds after
    the start.  The ETA is computed, twenty seconds, and formatted, but
    no status line is printed: the terminal is as it was. *)
Theorem update_title_prints_nothing :
  let self := Sample.running_checker in
  let w := Sample.ten_seconds_in in
  let run := _update_title Sample.time_time Sample.hms self w in
  Qeq (eta self (Sample.time_time (clock_reads w) - 0)%Q) 20
  ∧ Sample.hms (eta self (Sample.time_time (clock_reads w) - 0)%Q) = Ok (lit "00:00:20")
  ∧ run.1 = Ok ()
  ∧ stdout run.2 = stdout w
  ∧ ∀ elapsed_s remaining_s,
      StatusLine (checked self) (total_to_check self) (available self)
        elapsed_s remaining_s ∉ stdout run.2.
Proof.
  cbv zeta. split; [reflexivity|]. split; [vm_compute; reflexivity|].
  split; [vm_compute; reflexivity|]. split; [vm_compute; reflexivity|].
  intros elapsed_s remaining_s.
  replace (stdout (_update_title Sample.time_time Sample.hms Sample.running_checker
                     Sample.ten_seconds_in).2) with (@nil out_line)
    by (vm_compute; reflexivity).
  apply not_elem_of_nil.
Qed.

(** The concrete scenario of the spec: [ab] is dropped, [abc] redirects
    to a profile path and is recorded as taken, [a1b2c3d4] is reported
    as not found and is recorded as available, alone in
    [Available.txt]. *)
Example spec_scenario_records :
  let names := [PyStr (lit "ab"); PyStr (lit "abc"); PyStr (lit "a1b2c3d4")] in
  let run := run_check_list Sample.lower Sample.net_scenario Sample.time_time
               Sample.local_stamp Sample.hms Sample.never_cancelled []
               (SteamChecker_init 12 2 0 1) names 0 true Sample.empty_world in
  results_csv run.2
  = Some [HEADER;
          [lit "abc"; lit "taken"; lit "200"; lit "2025-01-01 00:00:01";
           lit "redirect_to_profiles"];
          [lit "a1b2c3d4"; lit "available"; lit "200"; lit "2025-01-01 00:00:03";
           lit "not_found_text"]]
  ∧ available_txt run.2 = Some (lit "a1b2c3d4" ++ [10%N])
  ∧ stdout run.2 = [NamesQueued 2 1 0; LineTaken 1 2 (lit "abc");
                    LineAvailable 2 2 (lit "a1b2c3d4")].
Proof. cbv zeta. split_and!; vm_compute; reflexivity. Qed.

(** ** The further properties at concrete inputs *)

(** A file whose first row is a record, not the header. *)
Lemma load_seen_without_header_witness :
  let first := [lit "abc"; lit "taken"] in
  let rest := [[lit "xyz9"; lit "available"]] in
  (lit "username" ∉ first)
  ∧ load_seen_from_csv (Some (CsvRows (first :: rest))) = ∅.
Proof.
  intros first rest.
  assert (H : lit "username" ∉ first)
    by (apply (bool_decide_unpack _); vm_compute; exact I).
  split; [exact H|].
  exact (proj2 (proj2 (load_seen_without_header first rest H))).
Defined.

(** A username written with spaces around it is seen without them. *)
Lemma load_seen_stripped_witness :
  let f := Some (CsvRows [HEADER; [lit " abc "; lit "taken"]]) in
  lit "abc" ∈ load_seen_from_csv f
  ∧ lit "abc" ≠ [] ∧ is_stripped (lit "abc").
Proof.
  intros f.
  assert (H : lit "abc" ∈ load_seen_from_csv f)
    by (apply (bool_decide_unpack _); vm_compute; exact I).
  split; [exact H|]. exact (load_seen_stripped f (lit "abc") H).
Defined.

(** Writing the record of [abc] to an empty store. *)
Lemma write_then_seen_witness :
  let w := Sample.empty_world in
  let w' := (write_result Sample.time_time Sample.local_stamp (lit "abc") Taken
               (Some 200) (lit "redirect_to_profiles") w).2 in
  (store_ok (results_csv w) ∧ is_candidate (lit "abc"))
  ∧ store_ok (results_csv w')
  ∧ load_seen_from_csv (CsvRows <$> results_csv w')
    = {[lit "abc"]} ∪ load_seen_from_csv (CsvRows <$> results_csv w).
Proof.
  intros w w'.
  assert (Hok : store_ok (results_csv w)) by (exists []; split; [reflexivity|constructor]).
  assert (Hc : is_candidate (lit "abc")) by (split; [by repeat constructor|simpl; lia]).
  split; [split; [exact Hok|exact Hc]|].
  exact (write_then_seen Sample.time_time Sample.local_stamp (lit "abc") Taken
           (Some 200) (lit "redirect_to_profiles") w Hok Hc).
Defined.

(** The backoff of a checker with two retries on a network that is
    down. *)
Lemma backoff_total_bounded_witness :
  let self := SteamChecker_init 12 2 0 1 in
  let run := _check_with_retries Sample.lower Sample.net_down Sample.never_cancelled
               self (lit "abc") Sample.empty_world in
  retries self = Z.of_nat 2
  ∧ ∃ k, (k ≤ 2)%nat
         ∧ sleeps run.2 = sleeps Sample.empty_world ++ backoffs backoff0 k
         ∧ (Qsum (backoffs backoff0 k) == (6 # 10) * (2 ^ Z.of_nat k - 1))%Q
         ∧ (Qsum (backoffs backoff0 k) <= (6 # 10) * (2 ^ Z.of_nat 2 - 1))%Q.
Proof.
  intros self run. split; [reflexivity|].
  exact (backoff_total_bounded Sample.lower Sample.net_down Sample.never_cancelled
           self (lit "abc") Sample.empty_world 2 eq_refl).
Defined.

(** The ETA one name of three into a run, after ten seconds. *)
Lemma eta_linear_witness :
  let self := Sample.running_checker in
  ((0 <= 10)%Q ∧ (1 ≤ checked self) ∧ (checked self ≤ total_to_check self))
  ∧ (0 <= eta self 10)%Q
  ∧ (eta self 10 == 10 / inject_Z (checked self)
                    * inject_Z (total_to_check self - checked self))%Q.
Proof.
  intros self.
  assert (H0 : (0 <= 10)%Q) by (vm_compute; discriminate).
  assert (H1 : 1 ≤ checked self) by (vm_compute; discriminate).
  assert (H2 : checked self ≤ total_to_check self) by (vm_compute; discriminate).
  destruct (eta_linear self 10) as (Hpos & _ & Hlin).
  split; [split; [exact H0|split; [exact H1|exact H2]]|].
  split; [exact (Hpos H0)|exact (Hlin H1 H2)].
Defined.


(** The counters after the scenario of the spec. *)
Lemma counters_agree_with_store_witness :
  let names := [PyStr (lit "ab"); PyStr (lit "abc"); PyStr (lit "a1b2c3d4")] in
  let self := SteamChecker_init 12 2 0 1 in
  let w := Sample.empty_world in
  let run := run_check_list Sample.lower Sample.net_scenario Sample.time_time
               Sample.local_stamp Sample.hms Sample.never_cancelled []
               self names 0 true w in
  ∃ e, run.1 = Ok e
       ∧ checked (checker_of e) - checked self
         = Z.of_nat (length (csv_rows run.2)) - Z.of_nat (length (csv_rows w))
       ∧ available (checker_of e) - available self
         = Z.of_nat (available_rows run.2) - Z.of_nat (available_rows w)
       ∧ length (csv_rows run.2) = 3%nat ∧ available_rows run.2 = 1%nat.
Proof.
  intros names self w run.
  assert (Hret : ∃ e, run.1 = Ok e) by (eexists; vm_compute; reflexivity).
  destruct Hret as [e He]. exists e. split; [exact He|].
  destruct (counters_agree_with_store Sample.lower Sample.net_scenario Sample.time_time
              Sample.local_stamp Sample.hms Sample.never_cancelled []
              self names 0 true w e He) as (Hch & Hav & _).
  split; [exact Hch|]. split; [exact Hav|].
  split; vm_compute; reflexivity.
Defined.

(** Two workers that have each taken a name. *)
Lemma semaphore_never_blocks_witness :
  let self := set_start_time (SteamChecker_init 12 2 0 2) 0 in
  let names := [lit "abc"; lit "a1b2c3d4"] in
  let run := run_pool Sample.lower Sample.net_scenario Sample.time_time
               Sample.local_stamp Sample.hms Sample.never_cancelled [0; 1]%nat
               (initial_pool self names) Sample.empty_world in
  workers run.1 !! 1%nat = Some (WSem (lit "a1b2c3d4"))
  ∧ (0 < sem run.1)%nat
  ∧ (sem run.1 + sum_list_with inflight (workers run.1))%nat = 2%nat.
Proof.
  intros self names run.
  assert (H1 : workers run.1 !! 1%nat = Some (WSem (lit "a1b2c3d4")))
    by (vm_compute; reflexivity).
  destruct (semaphore_never_blocks Sample.lower Sample.net_scenario Sample.time_time
              Sample.local_stamp Sample.hms Sample.never_cancelled self names
              [0; 1]%nat Sample.empty_world) as (Hsem & _ & Hfree).
  split; [exact H1|]. split; [exact (proj1 (Hfree 1%nat _ H1))|exact Hsem].
Defined.

(** A worker that fails in [_update_title] after its first check, and
    the other worker going on alone. *)
Lemma failed_worker_blocks_join_witness :
  let self := set_start_time (SteamChecker_init 12 2 0 2) 0 in
  let names := [lit "abc"; lit "a1b2c3d4"] in
  let run := run_pool Sample.lower Sample.net_scenario Sample.time_time
               Sample.local_stamp Sample.hms_overflow Sample.never_cancelled
               [0; 0; 0]%nat (initial_pool self names) Sample.empty_world in
  let run' := run_pool Sample.lower Sample.net_scenario Sample.time_time
                Sample.local_stamp Sample.hms_overflow Sample.never_cancelled
                [1; 1; 0; 1; 0; 1]%nat run.1 run.2 in
  workers run.1 !! 0%nat = Some (WFailed (Exc (lit "OverflowError")))
  ∧ workers run'.1 !! 0%nat = Some (WFailed (Exc (lit "OverflowError")))
  ∧ unfinished run'.1 ≠ 0%nat.
Proof.
  intros self names run run'.
  assert (H0 : workers run.1 !! 0%nat = Some (WFailed (Exc (lit "OverflowError"))))
    by (vm_compute; reflexivity).
  split; [exact H0|].
  exact (failed_worker_blocks_join Sample.lower Sample.net_scenario Sample.time_time
           Sample.local_stamp Sample.hms_overflow Sample.never_cancelled self names
           [0; 0; 0]%nat [1; 1; 0; 1; 0; 1]%nat Sample.empty_world 0%nat _ H0).
Defined.

(** A word list served as two words separated by a comma. *)
Lemma fetched_words_clean_witness :
  let run := fetch_full_wordlist Sample.net_api Sample.json_loads Sample.empty_world in
  run.2.1 = Ok [lit "abc"; lit "xyz9"]
  ∧ Forall (λ s, s ≠ [] ∧ is_stripped s) [lit "abc"; lit "xyz9"]
  ∧ run.1 = [FetchingWordlist; FetchedWords 2].
Proof.
  intros run.
  assert (H : run.2.1 = Ok [lit "abc"; lit "xyz9"]) by (vm_compute; reflexivity).
  destruct (fetched_words_clean Sample.net_api Sample.json_loads Sample.empty_world)
    as (_ & _ & _ & _ & Hwords).
  split; [exact H|]. exact (Hwords _ H).
Defined.

(** The word API cannot be reached. *)
Lemma api_fetch_failure_contained_witness :
  let w := Sample.empty_world in
  let run := run_from_api Sample.lower Sample.net_down Sample.time_time
               Sample.local_stamp Sample.hms Sample.never_cancelled []
               Sample.json_loads 0 1 0 true w in
  raised_in_fetch (Sample.net_down (length (requests w)) API_URL)
  = Some (Exc (lit "ClientConnectorError"))
  ∧ run.1 = [FetchingWordlist; FetchFailed (Exc (lit "ClientConnectorError"))]
  ∧ run.2.1 = Ok None
  ∧ requests run.2.2 = [API_URL]
  ∧ results_csv run.2.2 = results_csv w.
Proof.
  intros w run.
  destruct (api_fetch_failure_contained Sample.lower Sample.net_down Sample.time_time
              Sample.local_stamp Sample.hms Sample.never_cancelled []
              Sample.json_loads 0 1 0 true w (Exc (lit "ClientConnectorError")) eq_refl)
    as (Hrq & _ & _ & Hcsv & _ & Hfront & Hres).
  split; [reflexivity|]. split; [exact Hfront|]. split; [exact Hres|].
  split; [exact Hrq|exact Hcsv].
Defined.

(** The word API answers with a JSON object. *)
Lemma api_json_not_a_list_witness :
  let w := Sample.empty_world in
  let resp := {| resp_url := API_URL; resp_status := 200;
                 resp_text := Text (lit "{}") |} in
  let run := run_from_api Sample.lower Sample.net_api_object Sample.time_time
               Sample.local_stamp Sample.hms Sample.never_cancelled []
               Sample.json_loads 0 1 0 true w in
  (Sample.net_api_object (length (requests w)) API_URL = GetResponse resp
   ∧ Sample.json_loads (lit "{}") = JsonOther)
  ∧ run.1 = [FetchingWordlist; FetchedWords 0]
  ∧ stdout run.2.2 = [NoNamesToCheck]
  ∧ requests run.2.2 = [API_URL].
Proof.
  intros w resp run.
  destruct (api_json_not_a_list Sample.lower Sample.net_api_object Sample.time_time
              Sample.local_stamp Sample.hms Sample.never_cancelled []
              Sample.json_loads 0 1 0 true w resp (lit "{}") eq_refl eq_refl eq_refl)
    as (Hfront & _ & Hout & Hrq & _).
  split; [split; reflexivity|]. split; [exact Hfront|].
  split; [exact Hout|exact Hrq].
Defined.

(** Option 1 in a directory without [Custom.txt]. *)
Lemma menu_never_creates_custom_witness :
  let w := Sample.no_custom_world in
  let run := main_menu Sample.lower Sample.net_down Sample.time_time
               Sample.local_stamp Sample.hms Sample.never_cancelled []
               Sample.json_loads (Line (lit " 1 ")) w in
  (Str.strip (lit " 1 ") = lit "1" ∧ custom_txt w = None)
  ∧ run = (menu_lines, (Ok None, log_line NoNamesInCustom (ensure_files w)))
  ∧ custom_txt (log_line NoNamesInCustom (ensure_files w)) = Some [].
Proof.
  intros w run. split; [split; reflexivity|].
  exact (menu_never_creates_custom Sample.lower Sample.net_down Sample.time_time
           Sample.local_stamp Sample.hms Sample.never_cancelled []
           Sample.json_loads (lit " 1 ") w eq_refl (or_introl eq_refl)).
Defined.

(** Option 2 against a word API that serves two words. *)
Lemma menu_runs_sequentially_witness :
  let run := main_menu Sample.lower Sample.net_api Sample.time_time
               Sample.local_stamp Sample.hms Sample.never_cancelled []
               Sample.json_loads (Line (lit "2")) Sample.empty_world in
  ∃ e, run.2.1 = Ok (Some e)
       ∧ ∃ self', e = Returned self' ∧ concurrency self' = 1 ∧ retries self' = 2
                  ∧ delay self' = 0%Q.
Proof.
  intros run.
  assert (Hret : ∃ e, run.2.1 = Ok (Some e)) by (eexists; vm_compute; reflexivity).
  destruct Hret as [e He]. exists e. split; [exact He|].
  exact (menu_runs_sequentially Sample.lower Sample.net_api Sample.time_time
           Sample.local_stamp Sample.hms Sample.never_cancelled []
           Sample.json_loads (Line (lit "2")) Sample.empty_world e He).
Defined.

(** Two workers resumed in turn, seventeen times each, on two names. *)
Lemma pool_finishes_or_fails_witness :
  let self := set_start_time (SteamChecker_init 12 2 0 2) 0 in
  let names := [lit "abc"; lit "a1b2c3d4"] in
  let blocks := replicate 17 [0; 1]%nat in
  let run := run_pool Sample.lower Sample.net_scenario Sample.time_time
               Sample.local_stamp Sample.hms Sample.never_cancelled (concat blocks)
               (initial_pool self names) Sample.empty_world in
  (1 ≤ concurrency self ∧ Forall (fair 2) blocks
   ∧ (length names * (3 + 4) + 2 < length blocks)%nat)
  ∧ Forall (λ x, settled x = true) (workers run.1)
  ∧ (unfinished run.1 = 0%nat ∨ ∃ j e, workers run.1 !! j = Some (WFailed e)).
Proof.
  intros self names blocks run.
  assert (Hc : 1 ≤ concurrency self) by (vm_compute; discriminate).
  assert (Hfair : Forall (fair 2) blocks).
  { apply Forall_forall. intros b Hb. apply elem_of_replicate in Hb as [-> _].
    intros i Hi. destruct i as [|[|i]]; [by left|right; by left|lia]. }
  assert (Hlong : (length names * (3 + 4) + 2 < length blocks)%nat)
    by (vm_compute; lia).
  split; [split; [exact Hc|split; [exact Hfair|exact Hlong]]|].
  exact (pool_finishes_or_fails Sample.lower Sample.net_scenario Sample.time_time
           Sample.local_stamp Sample.hms Sample.never_cancelled self names blocks
           Sample.empty_world Hc Hfair Hlong).
Defined.


